(** * physicanova: the particle simulations and their measurements

    A shallow embedding of the simulation code of five pages of the
    repository: the Millikan oil drop ([src/millikan.js], first document),
    the photoelectric effect ([src/millikan.js], second document), the
    Michelson-Morley interferometer ([src/michelson_morley.js], first
    document), Compton scattering ([src/michelson_morley.js], second
    document) and the Franck-Hertz tube ([src/frank_hertz.js]).

    Numbers.  A JavaScript Number is modelled by [num]: a real number, one
    of the two infinities, or NaN.  Arithmetic on finite values is exact
    real arithmetic: the rounding of binary64 and its overflow are
    abstracted, as is the sign of a zero (a zero divisor is read as +0).
    What is kept is what the code can observe without rounding: division by
    zero, the square root of a negative number, comparisons with NaN and the
    propagation of the non-finite values.

    Randomness.  [Math.random()] reads the next value of a random source
    carried by the world: a sequence of reals and a cursor.

    Drawing code and the text written to the page are left out; a value
    shown on the page is kept as the number handed to [toFixed].  The
    texts that the code reads back or computes itself are kept: the text
    of the two voltage controls, the text of the stopwatch and the colour
    of the laser. *)

From Stdlib Require Import Reals Lra Lia List String Ascii ZArith Bool.
From Stdlib Require Import DecimalString.
From Stdlib Require Decimal DecimalFacts DecimalPos.
Import ListNotations.

Set Implicit Arguments.

(* ================================================================= *)
(** ** JavaScript numbers *)

Module JSNum.

Open Scope R_scope.

Inductive num : Type :=
| Fin (r : R)
| PInf
| NInf
| NaN.

Definition is_finite (a : num) : bool :=
  match a with Fin _ => true | _ => false end.

(** [x * Infinity] for a finite [x]. *)
Definition signed_inf (x : R) : num :=
  if Rlt_dec 0 x then PInf else if Rlt_dec x 0 then NInf else NaN.

Definition neg (a : num) : num :=
  match a with
  | Fin x => Fin (- x)
  | PInf => NInf
  | NInf => PInf
  | NaN => NaN
  end.

Definition add (a b : num) : num :=
  match a, b with
  | NaN, _ | _, NaN => NaN
  | Fin x, Fin y => Fin (x + y)
  | PInf, NInf | NInf, PInf => NaN
  | PInf, _ | _, PInf => PInf
  | NInf, _ | _, NInf => NInf
  end.

Definition sub (a b : num) : num := add a (neg b).

Definition mul (a b : num) : num :=
  match a, b with
  | NaN, _ | _, NaN => NaN
  | Fin x, Fin y => Fin (x * y)
  | Fin x, PInf | PInf, Fin x => signed_inf x
  | Fin x, NInf | NInf, Fin x => signed_inf (- x)
  | PInf, PInf | NInf, NInf => PInf
  | PInf, NInf | NInf, PInf => NInf
  end.

(** Division: a finite value over zero is an infinity of its sign, and
    [0 / 0] is NaN. *)
Definition div (a b : num) : num :=
  match a, b with
  | NaN, _ | _, NaN => NaN
  | Fin x, Fin y => if Req_dec_T y 0 then signed_inf x else Fin (x / y)
  | Fin _, PInf | Fin _, NInf => Fin 0
  | PInf, Fin y => if Rlt_dec y 0 then NInf else PInf
  | NInf, Fin y => if Rlt_dec y 0 then PInf else NInf
  | PInf, PInf | PInf, NInf | NInf, PInf | NInf, NInf => NaN
  end.

(** Comparisons: every comparison with NaN is false. *)
Definition lt (a b : num) : bool :=
  match a, b with
  | NaN, _ | _, NaN => false
  | Fin x, Fin y => if Rlt_dec x y then true else false
  | NInf, NInf | PInf, _ | _, NInf => false
  | NInf, _ | _, PInf => true
  end.

Definition le (a b : num) : bool :=
  match a, b with
  | NaN, _ | _, NaN => false
  | Fin x, Fin y => if Rle_dec x y then true else false
  | NInf, _ | _, PInf => true
  | PInf, _ | _, NInf => false
  end.

Definition gt (a b : num) : bool := lt b a.
Definition ge (a b : num) : bool := le b a.

(** [a === b] on numbers. *)
Definition strict_eq (a b : num) : bool :=
  match a, b with
  | Fin x, Fin y => if Req_dec_T x y then true else false
  | PInf, PInf | NInf, NInf => true
  | _, _ => false
  end.

(** [!a]: a number is falsy when it is zero or NaN. *)
Definition falsy (a : num) : bool :=
  match a with
  | Fin x => if Req_dec_T x 0 then true else false
  | NaN => true
  | PInf | NInf => false
  end.

Definition isNaN (a : num) : bool :=
  match a with NaN => true | _ => false end.

(** *** The Math object *)

Definition Math_PI : num := Fin PI.

Definition Math_abs (a : num) : num :=
  match a with
  | Fin x => Fin (Rabs x)
  | PInf | NInf => PInf
  | NaN => NaN
  end.

Definition Math_sqrt (a : num) : num :=
  match a with
  | Fin x => if Rlt_dec x 0 then NaN else Fin (sqrt x)
  | PInf => PInf
  | NInf | NaN => NaN
  end.

Definition Math_exp (a : num) : num :=
  match a with
  | Fin x => Fin (exp x)
  | PInf => PInf
  | NInf => Fin 0
  | NaN => NaN
  end.

Definition Math_cos (a : num) : num :=
  match a with Fin x => Fin (cos x) | _ => NaN end.

Definition Math_sin (a : num) : num :=
  match a with Fin x => Fin (sin x) | _ => NaN end.

Definition Math_tan (a : num) : num :=
  match a with Fin x => Fin (tan x) | _ => NaN end.

Definition Math_atan (a : num) : num :=
  match a with
  | Fin x => Fin (atan x)
  | PInf => Fin (PI / 2)
  | NInf => Fin (- (PI / 2))
  | NaN => NaN
  end.

Definition Math_floor (a : num) : num :=
  match a with Fin x => Fin (IZR (Int_part x)) | _ => a end.

Definition Math_max (a b : num) : num :=
  match a, b with
  | NaN, _ | _, NaN => NaN
  | _, _ => if lt a b then b else a
  end.

Definition Math_min (a b : num) : num :=
  match a, b with
  | NaN, _ | _, NaN => NaN
  | _, _ => if lt b a then b else a
  end.

(** [Math.hypot(a, b)]: an infinite argument wins over NaN. *)
Definition Math_hypot (a b : num) : num :=
  match a, b with
  | PInf, _ | NInf, _ | _, PInf | _, NInf => PInf
  | NaN, _ | _, NaN => NaN
  | Fin x, Fin y => Fin (sqrt (x * x + y * y))
  end.

Definition is_integer (y : R) : bool :=
  if Req_dec_T y (IZR (Int_part y)) then true else false.

Definition is_odd_integer (y : R) : bool :=
  is_integer y && Z.odd (Int_part y).

(** [Math.pow(base, exponent)], following the case list of
    Number::exponentiate. *)
Definition Math_pow (base exponent : num) : num :=
  match exponent with
  | NaN => NaN
  | Fin y =>
      if Req_dec_T y 0 then Fin 1 else
      match base with
      | NaN => NaN
      | PInf => if Rlt_dec 0 y then PInf else Fin 0
      | NInf =>
          if Rlt_dec 0 y
          then (if is_odd_integer y then NInf else PInf)
          else Fin 0
      | Fin x =>
          if Req_dec_T x 0 then (if Rlt_dec 0 y then Fin 0 else PInf)
          else if Rlt_dec 0 x then Fin (Rpower x y)
          else if is_integer y then Fin (powerRZ x (Int_part y))
          else NaN
      end
  | PInf =>
      match base with
      | NaN => NaN
      | PInf | NInf => PInf
      | Fin x =>
          if Rlt_dec 1 (Rabs x) then PInf
          else if Req_dec_T (Rabs x) 1 then NaN else Fin 0
      end
  | NInf =>
      match base with
      | NaN => NaN
      | PInf | NInf => Fin 0
      | Fin x =>
          if Rlt_dec 1 (Rabs x) then Fin 0
          else if Req_dec_T (Rabs x) 1 then NaN else PInf
      end
  end.

(** The number of elements of an array, as a number. *)
Definition of_nat (n : nat) : num := Fin (INR n).

Definition of_Z (z : Z) : num := Fin (IZR z).

Arguments add !a !b.
Arguments sub !a !b.
Arguments mul !a !b.
Arguments div !a !b.
Arguments lt !a !b.
Arguments le !a !b.
Arguments gt !a !b.
Arguments ge !a !b.
Arguments strict_eq !a !b.

End JSNum.

Declare Scope num_scope.
Delimit Scope num_scope with num.
Bind Scope num_scope with JSNum.num.
Infix "+" := JSNum.add : num_scope.
Infix "-" := JSNum.sub : num_scope.
Infix "*" := JSNum.mul : num_scope.
Infix "/" := JSNum.div : num_scope.
Notation "- a" := (JSNum.neg a) : num_scope.
Infix "<?" := JSNum.lt (at level 70) : num_scope.
Infix "<=?" := JSNum.le (at level 70) : num_scope.
Infix ">?" := JSNum.gt (at level 70) : num_scope.
Infix ">=?" := JSNum.ge (at level 70) : num_scope.
Infix "===" := JSNum.strict_eq (at level 70) : num_scope.
Notation "# r" := (JSNum.Fin r%R) (at level 5, format "# r") : num_scope.

(* ================================================================= *)
(** ** Compton scattering: [src/michelson_morley.js], second document *)

Module Compton.
Import JSNum.
Open Scope num_scope.

(** keV * pm *)
Definition HC : num := #1240.
(** Compton wavelength in pm *)
Definition LAMBDA_C : num := #2.43.

(** The part of [state] that [updatePhysics] reads and writes, and the six
    readouts of the page as the numbers handed to [toFixed(2)]. *)
Record state : Type := mkState {
  lambda : num;
  theta : num;
  phi : num
}.

Record readouts : Type := mkReadouts {
  lambdaInc : num;
  lambdaScat : num;
  lambdaShift : num;
  enInc : num;
  enScat : num;
  enElec : num
}.

Definition toRad (deg : num) : num := deg * Math_PI / #180.

Definition toDeg (rad : num) : num := rad * #180 / Math_PI.

Definition updatePhysics (st : state) : state * readouts :=
  let thetaRad := toRad (theta st) in
  let shift := LAMBDA_C * (#1 - Math_cos thetaRad) in
  let lambdaPrime := lambda st + shift in
  let E_inc := HC / lambda st in
  let E_scat := HC / lambdaPrime in
  let K_e := E_inc - E_scat in
  let alpha := E_inc / #511 in
  let tanTheta2 := Math_tan (thetaRad / #2) in
  let phi' :=
    if theta st === #0 then #0
    else if theta st === #180 then #0
    else
      let cotPhi := (#1 + alpha) * tanTheta2 in
      Math_atan (#1 / cotPhi) in
  (mkState (lambda st) (theta st) phi',
   mkReadouts (lambda st) lambdaPrime shift E_inc E_scat K_e).

End Compton.


(* ================================================================= *)
(** ** The world: mutable state and the random source *)

Module Effects.
Import JSNum.

(** The random source: the values [Math.random()] will return, and how
    many of them have been read. *)
Record rng : Type := mkRng {
  src : nat -> R;
  pos : nat
}.

(** Every value of a uniform source lies in [0, 1). *)
Definition uniform (g : rng) : Prop :=
  forall i : nat, (0 <= src g i < 1)%R.

(** A computation that reads and writes a world [W] and returns an [A]. *)
Definition Js (W A : Type) : Type := W -> A * W.

Definition ret {W A : Type} (a : A) : Js W A := fun w => (a, w).

Definition bind {W A B : Type} (c : Js W A) (k : A -> Js W B) : Js W B :=
  fun w => let (a, w') := c w in k a w'.

Definition get {W : Type} : Js W W := fun w => (w, w).

Definition modify {W : Type} (f : W -> W) : Js W unit := fun w => (tt, f w).

Definition exec {W A : Type} (c : Js W A) (w : W) : W := snd (c w).

Definition eval {W A : Type} (c : Js W A) (w : W) : A := fst (c w).

(** A world that carries a random source. *)
Class Randomness (W : Type) : Type := {
  rng_of : W -> rng;
  with_rng : rng -> W -> W
}.

(** Writing the random source changes the random source and nothing
    else. *)
Class RandomnessLaws (W : Type) `{Randomness W} : Prop := {
  rng_with : forall (g : rng) (w : W), rng_of (with_rng g w) = g;
  with_with : forall (g g' : rng) (w : W),
      with_rng g (with_rng g' w) = with_rng g w
}.

(** [Math.random()] *)
Definition Math_random {W : Type} `{Randomness W} : Js W num :=
  fun w =>
    let g := rng_of w in
    (Fin (src g (pos g)), with_rng (mkRng (src g) (S (pos g))) w).

(** [for (let i = 0; i < n; i++) body()] *)
Fixpoint times {W : Type} (n : nat) (body : Js W unit) : Js W unit :=
  match n with
  | O => ret tt
  | S n' => bind body (fun _ => times n' body)
  end.

(** [array.forEach(e => body(e))] where [body] mutates [e] in place: the
    elements are visited in order and every one is replaced by its
    mutated value. *)
Fixpoint forEach {W A : Type} (body : A -> Js W A) (l : list A)
  : Js W (list A) :=
  match l with
  | [] => ret []
  | a :: l' =>
      bind (body a) (fun a' =>
      bind (forEach body l') (fun l'' => ret (a' :: l'')))
  end.

End Effects.

Notation "x <- c ;; k" := (Effects.bind c (fun x => k))
  (at level 61, c at next level, right associativity).
Notation "c ;;; k" := (Effects.bind c (fun _ => k))
  (at level 61, right associativity).

Global Instance rng_randomness : Effects.Randomness Effects.rng :=
  {| Effects.rng_of := fun g => g; Effects.with_rng := fun g _ => g |}.

(* ================================================================= *)
(** ** Millikan oil drop: [src/millikan.js], first document *)

Module Millikan.
Import JSNum Effects.
Open Scope num_scope.

(** *** CONSTANTS (SI units) *)
Definition g : num := #9.80.
Definition rho_oil : num := #875.
Definition rho_air : num := #1.225.
Definition viscosity : num := #1.81e-5.
Definition e : num := #1.602e-19.
Definition plateDistance : num := #0.005.
Definition scale : num := #100000.

Record OilDrop : Type := mkDrop {
  radius : num;
  x : num;
  y : num;
  vx : num;
  vy : num;
  q : num
}.

(** The page: the module-level variables [drops] and [voltage] (the
    selection, the camera and the stopwatch are left out), the text of
    the two voltage controls, the size of the canvas and the random
    source. *)
Record world : Type := mkWorld {
  drops : list OilDrop;
  voltage : num;
  voltage_slider : string;
  voltage_input : string;
  width : num;
  height : num;
  random : rng
}.

Definition set_drops (l : list OilDrop) (w : world) : world :=
  mkWorld l (voltage w) (voltage_slider w) (voltage_input w)
          (width w) (height w) (random w).

Definition set_random (r : rng) (w : world) : world :=
  mkWorld (drops w) (voltage w) (voltage_slider w) (voltage_input w)
          (width w) (height w) r.

#[global] Instance world_randomness : Randomness world :=
  {| rng_of := random; with_rng := set_random |}.

(** [new OilDrop()].  The sixth draw is the one the constructor spends on
    the opacity of the colour. *)
Definition OilDrop_new : Js world OilDrop :=
  w <- get ;;
  u1 <- Math_random ;;
  let radius := (#0.5 + u1 * #0.6) * #1e-6 in
  u2 <- Math_random ;;
  let x := (u2 * #0.8 + #0.1) * (width w / scale) in
  u3 <- Math_random ;;
  let y := (u3 * #0.2) * (height w / scale) in
  u4 <- Math_random ;;
  let vx := (u4 - #0.5) * #1e-5 in
  let vy := #0 in
  u5 <- Math_random ;;
  let n := if u5 <? #0.5 then #(-1) else #1 in
  let q := n * e in
  u6 <- Math_random ;;
  ret (mkDrop radius x y vx vy q).

(** [OilDrop.prototype.update(dt)] on the drop [this]. *)
Definition update (this : OilDrop) (dt : num) : Js world OilDrop :=
  w <- get ;;
  let volume := (#4 / #3) * Math_PI * Math_pow (radius this) #3 in
  let mass := volume * rho_oil in
  let Fg := mass * g in
  let Fb := volume * rho_air * g in
  let E := voltage w / plateDistance in
  let Fe := q this * E in
  let Fd_x := #(-6) * Math_PI * viscosity * radius this * vx this in
  let Fd_y := #(-6) * Math_PI * viscosity * radius this * vy this in
  let Fnet_y := Fg - Fb + Fe + Fd_y in
  let Fnet_x := Fd_x in
  let F_driving_y := Fg - Fb + Fe in
  let F_driving_x := #0 in
  let drag_coeff := #6 * Math_PI * viscosity * radius this in
  let vy1 := F_driving_y / drag_coeff in
  let vx1 := F_driving_x / drag_coeff in
  let jitterMagnitude := (#1e-6 / radius this) * #2e-6 in
  u1 <- Math_random ;;
  let vx2 := vx1 + (u1 - #0.5) * jitterMagnitude in
  u2 <- Math_random ;;
  let vy2 := vy1 + (u2 - #0.5) * jitterMagnitude in
  ret (mkDrop (radius this)
              (x this + vx2 * dt)
              (y this + vy2 * dt)
              vx2 vy2 (q this)).

Definition isOffScreen (w : world) (this : OilDrop) : bool :=
  let px := x this * scale in
  let py := y this * scale in
  let margin := #50 in
  (px <? - margin) || (px >? width w + margin)
  || (py <? - margin) || (py >? height w + margin).

Definition spawnDrop : Js world unit :=
  d <- OilDrop_new ;;
  modify (fun w => set_drops (drops w ++ [d]) w).

(** *** The voltage controls *)

(** [parseInt(s)] with no radix: leading white space, an optional sign, an
    optional [0x] prefix, then the longest run of digits; [None] is NaN.
    The result is kept as the exact integer (a double rounds magnitudes
    above 2^53; rounding is monotone and leaves the integers up to 2^53
    alone, so the comparisons with 2000 and -2000 below are not
    affected).  Only the ASCII white space is recognised. *)
Definition is_space (c : ascii) : bool :=
  let n := N_of_ascii c in
  (N.eqb n 32 || (N.leb 9 n && N.leb n 13))%bool.

Fixpoint skip_space (s : string) : string :=
  match s with
  | String c r => if is_space c then skip_space r else s
  | EmptyString => s
  end.

Definition digit_of (radix : Z) (c : ascii) : option Z :=
  let n := Z.of_N (N_of_ascii c) in
  let d :=
    if ((48 <=? n) && (n <=? 57))%Z%bool then Some (n - 48)%Z
    else if ((97 <=? n) && (n <=? 122))%Z%bool then Some (n - 87)%Z
    else if ((65 <=? n) && (n <=? 90))%Z%bool then Some (n - 55)%Z
    else None in
  match d with
  | Some v => if (v <? radix)%Z then Some v else None
  | None => None
  end.

(** The longest prefix of digits, read in [radix]; [acc] is the value read
    so far, [None] before the first digit. *)
Fixpoint digits (radix : Z) (s : string) (acc : option Z) : option Z :=
  match s with
  | EmptyString => acc
  | String c r =>
      match digit_of radix c with
      | Some d =>
          let a := match acc with Some a => a | None => 0%Z end in
          digits radix r (Some (radix * a + d)%Z)
      | None => acc
      end
  end.

Definition parseInt (s : string) : option Z :=
  let s1 := skip_space s in
  let '(sign, s2) :=
    match s1 with
    | String "-" r => ((-1)%Z, r)
    | String "+" r => (1%Z, r)
    | _ => (1%Z, s1)
    end in
  let '(radix, s3) :=
    match s2 with
    | String "0" (String "x" r) => (16%Z, r)
    | String "0" (String "X" r) => (16%Z, r)
    | _ => (10%Z, s2)
    end in
  match digits radix s3 None with
  | Some m => Some (sign * m)%Z
  | None => None
  end.

(** The text of an integer or NaN, as assigning it to [element.value]
    writes it: the plain decimal digits, which is what JavaScript writes
    for magnitudes below 1e21 (from there on it writes an exponent). *)
Definition ToString (v : option Z) : string :=
  match v with
  | Some z => NilZero.string_of_int (Z.to_int z)
  | None => "NaN"
  end.

Definition num_of (v : option Z) : num :=
  match v with Some z => of_Z z | None => NaN end.

Definition updateVoltageFromSlider (w : world) : world :=
  let val := parseInt (voltage_slider w) in
  mkWorld (drops w) (num_of val) (voltage_slider w) (ToString val)
          (width w) (height w) (random w).

Definition updateVoltageFromInput (w : world) : world :=
  let val := parseInt (voltage_input w) in
  let val := match val with None => 0%Z | Some z => z end in
  let val := if (val >? 2000)%Z then 2000%Z else val in
  let val := if (val <? -2000)%Z then (-2000)%Z else val in
  mkWorld (drops w) (of_Z val) (ToString (Some val)) (ToString (Some val))
          (width w) (height w) (random w).

End Millikan.

(* ================================================================= *)
(** ** Photoelectric effect: [src/millikan.js], second document *)

Module Photoelectric.
Import JSNum Effects.
Open Scope num_scope.

Definition HC : num := #1240.
Definition SCALE_SPEED : num := #2.

(** *** GEO *)
Definition tubeCenter_x : num := #400.
Definition tubeCenter_y : num := #250.
Definition cathode_center_x : num := #350.
Definition cathode_center_y : num := #250.
Definition cathode_radius : num := #180.
Definition cathode_angleSpread : num := #0.6.
Definition anode_x : num := #300.
Definition anode_y : num := #250.
Definition anode_w : num := #10.
Definition anode_h : num := #200.

(** *** METALS: the work functions, in eV *)
Definition phi_sodium : num := #2.36.
Definition phi_calcium : num := #2.90.
Definition phi_zinc : num := #4.30.
Definition phi_copper : num := #4.70.
Definition phi_platinum : num := #6.35.
Definition phi_unknown : num := #3.50.

Record electron : Type := mkElectron {
  x : num;
  y : num;
  vx : num;
  vy : num;
  ke : num;
  dead : bool
}.

(** The object [state] (without the name of the metal, which only the
    drawing reads), the width of the canvas, the number shown by the
    current display, and the random source.  [spawn_calls] is a ghost
    counter: it counts the calls of [spawnRandomElectron] and no program
    variable holds it. *)
Record world : Type := mkWorld {
  lambda : num;
  intensity : num;
  voltage : num;
  workFunction : num;
  electrons : list electron;
  ammeterCurrent : num;
  time : num;
  wavePhase : num;
  hitHistory : list num;
  lastUIRefresh : num;
  current_display : num;
  canvas_width : num;
  random : rng;
  spawn_calls : nat
}.

Definition set_electrons (l : list electron) (w : world) : world :=
  mkWorld (lambda w) (intensity w) (voltage w) (workFunction w) l
          (ammeterCurrent w) (time w) (wavePhase w) (hitHistory w)
          (lastUIRefresh w) (current_display w) (canvas_width w)
          (random w) (spawn_calls w).

Definition set_hitHistory (l : list num) (w : world) : world :=
  mkWorld (lambda w) (intensity w) (voltage w) (workFunction w)
          (electrons w) (ammeterCurrent w) (time w) (wavePhase w) l
          (lastUIRefresh w) (current_display w) (canvas_width w)
          (random w) (spawn_calls w).

Definition set_ammeterCurrent (a : num) (w : world) : world :=
  mkWorld (lambda w) (intensity w) (voltage w) (workFunction w)
          (electrons w) a (time w) (wavePhase w) (hitHistory w)
          (lastUIRefresh w) (current_display w) (canvas_width w)
          (random w) (spawn_calls w).

Definition set_refresh (shown ts : num) (w : world) : world :=
  mkWorld (lambda w) (intensity w) (voltage w) (workFunction w)
          (electrons w) (ammeterCurrent w) (time w) (wavePhase w)
          (hitHistory w) ts shown (canvas_width w)
          (random w) (spawn_calls w).

Definition set_clock (t ph : num) (w : world) : world :=
  mkWorld (lambda w) (intensity w) (voltage w) (workFunction w)
          (electrons w) (ammeterCurrent w) t ph (hitHistory w)
          (lastUIRefresh w) (current_display w) (canvas_width w)
          (random w) (spawn_calls w).

Definition set_random (r : rng) (w : world) : world :=
  mkWorld (lambda w) (intensity w) (voltage w) (workFunction w)
          (electrons w) (ammeterCurrent w) (time w) (wavePhase w)
          (hitHistory w) (lastUIRefresh w) (current_display w)
          (canvas_width w) r (spawn_calls w).

Definition count_spawn_call (w : world) : world :=
  mkWorld (lambda w) (intensity w) (voltage w) (workFunction w)
          (electrons w) (ammeterCurrent w) (time w) (wavePhase w)
          (hitHistory w) (lastUIRefresh w) (current_display w)
          (canvas_width w) (random w) (S (spawn_calls w)).

#[global] Instance world_randomness : Randomness world :=
  {| rng_of := random; with_rng := set_random |}.

Definition spawnElectron (x y normalAngle : num) : Js world unit :=
  w <- get ;;
  let photonE := HC / lambda w in
  let workFn := workFunction w in
  if photonE <=? workFn then ret tt else
  let maxKE := photonE - workFn in
  u1 <- Math_random ;;
  let ke := maxKE * (#0.9 + u1 * #0.1) in
  let speed := Math_sqrt ke * SCALE_SPEED in
  u2 <- Math_random ;;
  let spread := (u2 - #0.5) * #1.0 in
  let angle := normalAngle + spread in
  modify (fun w =>
    set_electrons
      (electrons w ++
       [mkElectron x y (Math_cos angle * speed) (Math_sin angle * speed)
                   ke false]) w).

Definition spawnRandomElectron : Js world unit :=
  modify count_spawn_call ;;;
  u <- Math_random ;;
  let theta := (u - #0.5) * #2 * cathode_angleSpread in
  let cx := cathode_center_x in
  let cy := cathode_center_y in
  let r := cathode_radius in
  let ex := cx + r * Math_cos theta in
  let ey := cy + r * Math_sin theta in
  let normalAngle := theta + Math_PI in
  spawnElectron (ex - #2) ey normalAngle.

Definition recordHit (timestamp : num) : Js world unit :=
  modify (fun w => set_hitHistory (hitHistory w ++ [timestamp]) w).

(** The body of the [forEach] of [updateElectrons], on the electron [e]. *)
Definition updateElectron (forceFactor tubeTop tubeBottom timestamp : num)
  (e : electron) : Js world electron :=
  w <- get ;;
  let vx' := vx e - forceFactor in
  let x' := x e + vx' in
  let y' := y e + vy e in
  let hit :=
    (x' <=? anode_x + anode_w) && (x' >=? anode_x)
    && (Math_abs (y' - anode_y) <? anode_h / #2) && negb (dead e) in
  (if hit then recordHit timestamp else ret tt) ;;;
  let dead1 := if hit then true else dead e in
  let dist := Math_hypot (x' - cathode_center_x) (y' - cathode_center_y) in
  let dead2 :=
    if (dist >? cathode_radius) && (x' >? cathode_center_x)
    then true else dead1 in
  let dead3 := if x' <? anode_x then true else dead2 in
  let dead4 := if (y' <? tubeTop) || (y' >? tubeBottom) then true else dead3 in
  let dead5 :=
    if (x' <? #0) || (x' >? canvas_width w) then true else dead4 in
  ret (mkElectron x' y' vx' (vy e) (ke e) dead5).

Definition updateElectrons (timestamp : num) : Js world unit :=
  w <- get ;;
  let forceFactor := voltage w * #0.05 in
  let tubeTop := tubeCenter_y - #120 in
  let tubeBottom := tubeCenter_y + #120 in
  es <- forEach (updateElectron forceFactor tubeTop tubeBottom timestamp)
                (electrons w) ;;
  modify (set_electrons (filter (fun e => negb (dead e)) es)).

Definition calculateRealCurrent (timestamp : num) : Js world unit :=
  let windowSize := #500 in
  modify (fun w =>
    set_hitHistory
      (filter (fun t => (timestamp - t) <? windowSize) (hitHistory w)) w) ;;;
  w <- get ;;
  let count := of_nat (List.length (hitHistory w)) in
  let scale := #0.2 in
  let current := count * scale * (#1000 / windowSize) in
  modify (fun w =>
    set_ammeterCurrent (ammeterCurrent w * #0.9 + current * #0.1) w) ;;;
  w <- get ;;
  if falsy (lastUIRefresh w) || (timestamp - lastUIRefresh w >? #100)
  then modify (set_refresh (ammeterCurrent w) timestamp)
  else ret tt.

(** The number of iterations of [for (let i = 0; i < count; i++)]: the
    number of naturals below [count], none for NaN.  For an infinite
    [count] the loop of the source does not end; the intensity is the
    value of a slider and is finite, and that case is read as no
    iteration. *)
Definition iterations (count : num) : nat :=
  match count with
  | Fin c => Z.to_nat (- Int_part (- c))
  | _ => O
  end.

(** The block [// Spawning Logic] of [loop]. *)
Definition spawning : Js world unit :=
  w <- get ;;
  if intensity w >? #0 then
    let spawnRate := intensity w * #0.03 in
    let count := Math_floor spawnRate in
    let remainder := spawnRate - count in
    times (iterations count) spawnRandomElectron ;;;
    u <- Math_random ;;
    if u <? remainder then spawnRandomElectron else ret tt
  else ret tt.

Definition loop (timestamp : num) : Js world unit :=
  modify (fun w => set_clock (time w + #1) (wavePhase w - #0.1) w) ;;;
  updateElectrons timestamp ;;;
  spawning ;;;
  calculateRealCurrent timestamp ;;;
  ret tt.

(** One call of [loop] per animation frame, with the timestamps of the
    frames. *)
Fixpoint frames (timestamps : list num) : Js world unit :=
  match timestamps with
  | [] => ret tt
  | t :: ts => loop t ;;; frames ts
  end.

(** Calls of [calculateRealCurrent] with no hit recorded in between. *)
Fixpoint aggregate (timestamps : list num) : Js world unit :=
  match timestamps with
  | [] => ret tt
  | t :: ts => calculateRealCurrent t ;;; aggregate ts
  end.

End Photoelectric.

(* ================================================================= *)
(** ** Franck-Hertz tube: [src/frank_hertz.js] *)

Module FranckHertz.
Import JSNum Effects.
Open Scope num_scope.

(** eV (mercury) *)
Definition EXCITATION_ENERGY : num := #4.9.
(** V *)
Definition CONTACT_POTENTIAL : num := #2.0.

Record Electron : Type := mkElectron {
  x : num;
  y : num;
  vx : num;
  energy : num;
  active : bool
}.

(** A glow left by a collision; [opacity] is the alpha of its colour. *)
Record collision : Type := mkCollision {
  at_x : num;
  at_y : num;
  life : num;
  opacity : num
}.

(** The object [state] (without the auto-scan flag and the plotted
    history), the size of the tube canvas and the random source. *)
Record world : Type := mkWorld {
  vAcc : num;
  vRet : num;
  temperature : num;
  current : num;
  electrons : list Electron;
  collisions : list collision;
  tube_width : num;
  tube_height : num;
  random : rng
}.

Definition set_collisions (l : list collision) (w : world) : world :=
  mkWorld (vAcc w) (vRet w) (temperature w) (current w) (electrons w) l
          (tube_width w) (tube_height w) (random w).

Definition set_random (r : rng) (w : world) : world :=
  mkWorld (vAcc w) (vRet w) (temperature w) (current w) (electrons w)
          (collisions w) (tube_width w) (tube_height w) r.

#[global] Instance world_randomness : Randomness world :=
  {| rng_of := random; with_rng := set_random |}.

(** Returns [(dipStrength, transmission)]. *)
Definition getTemperatureFactor (t : num) : num * num :=
  if t <? #140 then (#0, #1)
  else if (t >=? #140) && (t <=? #200) then
    let dist := Math_abs (t - #180) in
    (Math_exp (- (dist * dist) / (#20 * #20)), #0.8)
  else
    (#0.5, Math_exp (- (t - #200) / #20) * #0.5).

(** [Electron.prototype.reset()] *)
Definition reset : Js world Electron :=
  w <- get ;;
  u1 <- Math_random ;;
  let y := #50 + u1 * (tube_height w - #100) in
  u2 <- Math_random ;;
  let vx := #0.5 + u2 * #0.5 in
  ret (mkElectron #40 y vx #0 true).

(** [Electron.prototype.update()] on the electron [this]. *)
Definition update (this : Electron) : Js world Electron :=
  if negb (active this) then ret this else
  w <- get ;;
  let cathodeX := #40 in
  let gridX := tube_width w - #60 in
  let anodeX := tube_width w - #20 in
  let dipStrength := fst (getTemperatureFactor (temperature w)) in
  if x this <? gridX then
    let dist := gridX - cathodeX in
    let E_field := vAcc w / dist in
    let energy1 := energy this + E_field * vx this in
    let x1 := x this + vx this in
    let vx1 := #1 + Math_sqrt energy1 * #0.5 in
    if (energy1 >=? EXCITATION_ENERGY) && (dipStrength >? #0.01) then
      u <- Math_random ;;
      if u <? #0.2 * dipStrength then
        let energy2 := energy1 - EXCITATION_ENERGY in
        modify (fun w =>
          set_collisions
            (collisions w ++ [mkCollision x1 (y this) #1.0 dipStrength])
            w) ;;;
        ret (mkElectron x1 (y this) #0.5 energy2 true)
      else ret (mkElectron x1 (y this) vx1 energy1 true)
    else ret (mkElectron x1 (y this) vx1 energy1 true)
  else if x this <? anodeX then
    let dist := anodeX - gridX in
    let E_field := vRet w / dist in
    let energy1 := energy this - E_field * vx this in
    let x1 := x this + vx this in
    if energy1 <=? #0
    then ret (mkElectron x1 (y this) (vx this) energy1 false)
    else ret (mkElectron x1 (y this) (vx this) energy1 true)
  else ret (mkElectron (x this) (y this) (vx this) (energy this) false).

(** The loop [for (let k = 1; k < 15; k++)] of [calculateCurrent]: [n]
    iterations are left, [k] is the loop variable and [modulation] the sum
    so far; the first branch is the [break]. *)
Fixpoint dips (n k : nat) (v modulation : num) : num :=
  match n with
  | O => modulation
  | S n' =>
      let dropPos := of_nat k * EXCITATION_ENERGY + CONTACT_POTENTIAL in
      if v <? dropPos - #3 then modulation
      else
        let diff := v - dropPos in
        let width := #1.5 in
        dips n' (S k) v (modulation + Math_exp (- (diff * diff) / width))
  end.

Definition calculateCurrent (w : world) (v : num) : num :=
  if v <? #0 then #0 else
  let '(dipStrength, transmission) := getTemperatureFactor (temperature w) in
  let baseCurrent := Math_pow v #1.5 * #0.2 * transmission in
  let n := Math_floor ((v + CONTACT_POTENTIAL) / EXCITATION_ENERGY) in
  let eRem := (v + CONTACT_POTENTIAL) - n * EXCITATION_ENERGY in
  let phase := (v + CONTACT_POTENTIAL) / EXCITATION_ENERGY in
  let cyclePos := phase - Math_floor phase in
  let modulation := dips 14 1 v #0 in
  let dipFactor := #1 - (#0.8 * dipStrength * modulation) in
  let dipFactor := Math_max #0.1 dipFactor in
  baseCurrent * dipFactor.

End FranckHertz.

(* ================================================================= *)
(** ** Vocabulary of the statements and the worlds of the examples *)

Section RunsVocabulary.
Import JSNum Effects.
Context {W : Type} `{Randomness W}.

(** Two random sources whose next [n] values are the same. *)
Definition same_draws (n : nat) (g1 g2 : rng) : Prop :=
  forall i : nat, (i < n)%nat -> src g1 (pos g1 + i) = src g2 (pos g2 + i).

(** Two worlds with the same program variables: they differ in the
    random source at most. *)
Definition same_variables (w1 w2 : W) : Prop :=
  with_rng (rng_of w1) w2 = w1.

(** Two worlds with the same program variables, whose random sources
    return the same next [n] values. *)
Definition agree (n : nat) (w1 w2 : W) : Prop :=
  same_variables w1 w2 /\ same_draws n (rng_of w1) (rng_of w2).

(** Two computations that read at most [n] random values: run in worlds
    that agree on the next [n + m] values, they return results related
    by [R] and leave worlds that agree on the next [m] values. *)
Definition related {A : Type} (n : nat) (R : A -> A -> Prop)
  (c1 c2 : Js W A) : Prop :=
  forall (m : nat) (w1 w2 : W), agree (n + m) w1 w2 ->
  R (fst (c1 w1)) (fst (c2 w2)) /\ agree m (snd (c1 w1)) (snd (c2 w2)).

End RunsVocabulary.

Section MillikanVocabulary.
Import JSNum Effects Millikan.
Open Scope R_scope.

(** A drop of radius 1 micrometre, a drop of radius 0, and a page under
    0 V whose random source returns 0.5 at every call. *)
Definition drop_1um : OilDrop :=
  mkDrop (Fin 1e-6) (Fin 0.004) (Fin 0.001) (Fin 0) (Fin 0) (Fin 1.602e-19).

Definition drop_r0 : OilDrop :=
  mkDrop (Fin 0) (Fin 0.004) (Fin 0.001) (Fin 0) (Fin 0) (Fin 1.602e-19).

Definition still_page : world :=
  mkWorld [] (Fin 0) "0" "0" (Fin 800) (Fin 500) (mkRng (fun _ => 0.5) 0).

(** A drop whose position is NaN. *)
Definition lost_drop : OilDrop :=
  mkDrop (Fin 1e-6) NaN NaN (Fin 0) (Fin 0) (Fin 1.602e-19).

(** What [updateVoltageFromInput] stores for the parsed text [v]. *)
Definition clamped (v : option Z) : Z :=
  Z.max (-2000) (Z.min 2000 (match v with Some z => z | None => 0%Z end)).

(** The integers from -2000 to 2000. *)
Definition in_range : list Z :=
  List.map (fun n => (Z.of_nat n - 2000)%Z) (List.seq 0 4001).

(** The text written for [z] parses to [z]. *)
Definition reads_back (z : Z) : bool :=
  match parseInt (ToString (Some z)) with
  | Some z' => (z' =? z)%Z
  | None => false
  end.

(** The position and the velocity of a particle are finite. *)
Definition finite_drop (d : Millikan.OilDrop) : bool :=
  is_finite (Millikan.x d) && is_finite (Millikan.y d)
  && is_finite (Millikan.vx d) && is_finite (Millikan.vy d).

End MillikanVocabulary.

Section PhotoelectricVocabulary.
Import JSNum Effects Photoelectric.
Open Scope R_scope.

(** The fields of the world that no function of this page writes. *)
Definition params (w : world) : num * num * num * num * num :=
  (lambda w, intensity w, voltage w, workFunction w, canvas_width w).

(** The photon energy is not above the work function. *)
Definition below_threshold (w : world) : Prop :=
  le (div HC (lambda w)) (workFunction w) = true.

(** What a function may change while the tube emits nothing: the random
    source and the counter of spawn calls. *)
Definition quiet (w w' : world) : Prop :=
  params w' = params w /\ electrons w' = electrons w /\
  hitHistory w' = hitHistory w /\ ammeterCurrent w' = ammeterCurrent w.

(** A frame in which no electron is added. *)
Definition no_emission (w w' : world) : Prop :=
  params w' = params w /\
  (List.length (electrons w') <= List.length (electrons w))%nat.

(** The number of spawn calls of a frame as a function of the value [u]
    of the extra draw, after [count] guaranteed calls. *)
Definition calls_of_draw (count : nat) (remainder u : R) : R :=
  INR count + (if Rlt_dec u remainder then 1 else 0).

(** Green light on sodium at 10 % intensity, an empty tube, and a random
    source that returns [u] at every call. *)
Definition bench (u : R) : world :=
  mkWorld (Fin 510) (Fin 10) (Fin 0) phi_sodium [] (Fin 0) (Fin 0) (Fin 0)
          [] (Fin 0) (Fin 0) (Fin 800) (mkRng (fun _ => u) 0) 0.

(** The random numbers that one call of [spawnRandomElectron] reads, and
    the electrons that it adds: one number for the place on the cathode
    and, above the threshold, two for the energy and the direction of the
    one electron. *)
Definition draws_per_call (w : world) : nat :=
  if le (div HC (lambda w)) (workFunction w) then 1%nat else 3%nat.

Definition emitted_per_call (w : world) : nat :=
  if le (div HC (lambda w)) (workFunction w) then 0%nat else 1%nat.

(** The world [bench u] at 50 % intensity. *)
Definition bright_bench (u : R) : world :=
  mkWorld (Fin 510) (Fin 50) (Fin 0) phi_sodium [] (Fin 0) (Fin 0) (Fin 0)
          [] (Fin 0) (Fin 0) (Fin 800) (mkRng (fun _ => u) 0) 0.

(** Red light of 700 nm on copper, at full intensity. *)
Definition red_on_copper : world :=
  mkWorld (Fin 700) (Fin 100) (Fin 0) phi_copper [] (Fin 0) (Fin 0) (Fin 0)
          [] (Fin 0) (Fin 0) (Fin 800) (mkRng (fun _ => 0.25) 0) 0.

(** An ammeter at 8 with one hit, recorded at 100 ms. *)
Definition after_a_hit : world :=
  mkWorld (Fin 510) (Fin 0) (Fin 0) phi_sodium [] (Fin 8) (Fin 0) (Fin 0)
          [Fin 100] (Fin 0) (Fin 0) (Fin 800) (mkRng (fun _ => 0.25) 0) 0.

(** A bound on the random values that one frame at intensity [I] reads:
    three for each of the floor(0.03 I) guaranteed calls of
    [spawnRandomElectron], one for the extra draw and three for the extra
    call. *)
Definition draws_per_frame (I : R) : nat :=
  (3 * Z.to_nat (Int_part (I * 0.03)) + 4)%nat.

(** The world [bench 0.25] with a random source that has already
    returned five values, returns 0.25 eight times and 0.9 from then
    on. *)
Definition bench_short : world :=
  set_random
    (mkRng (fun i => if ((5 <=? i) && (i <? 13))%nat then 0.25 else 0.9) 5)
    (bench 0.25).

Definition finite_pe (e : Photoelectric.electron) : bool :=
  is_finite (Photoelectric.x e) && is_finite (Photoelectric.y e)
  && is_finite (Photoelectric.vx e) && is_finite (Photoelectric.vy e).

End PhotoelectricVocabulary.

Section FranckHertzVocabulary.
Import JSNum Effects FranckHertz.
Open Scope R_scope.

(** An electron of the Franck-Hertz tube in flight: at or beyond the
    cathode, not moving backwards, with a finite energy that is not
    negative. *)
Definition in_flight (e : FranckHertz.Electron) : Prop :=
  exists xr yr vr en : R,
    FranckHertz.x e = Fin xr /\ FranckHertz.y e = Fin yr /\
    FranckHertz.vx e = Fin vr /\ FranckHertz.energy e = Fin en /\
    40 <= xr /\ 0 <= vr /\ 0 <= en.

(** An electron leaving the cathode, and a tube at 180 degrees under the
    accelerating voltage [va]. *)
Definition electron_at_cathode : FranckHertz.Electron :=
  FranckHertz.mkElectron (Fin 40) (Fin 100) (Fin 1) (Fin 0) true.

Definition tube (va : R) : FranckHertz.world :=
  FranckHertz.mkWorld (Fin va) (Fin 1.5) (Fin 180) (Fin 0) [] []
                      (Fin 600) (Fin 300) (mkRng (fun _ => 0.5) 0).

(** The voltage of the [k]-th dip, the valley that the loop of
    [calculateCurrent] adds for it, and the loop itself on reals. *)
Definition dropPos (k : nat) : R := INR k * 4.9 + 2.0.

Definition valley (k : nat) (v : R) : R :=
  exp (- ((v - dropPos k) * (v - dropPos k)) / 1.5).

Fixpoint dipsR (n k : nat) (v m : R) : R :=
  match n with
  | O => m
  | S n' =>
      if Rlt_dec v (dropPos k - 3) then m
      else dipsR n' (S k) v (m + valley k v)
  end.

(** The current at 180 degrees, for a positive voltage. *)
Definition currentR (v : R) : R :=
  Rpower v 1.5 * 0.2 * 0.8 * Rmax 0.1 (1 - 0.8 * dipsR 14 1 v 0).

End FranckHertzVocabulary.

Section FranckHertzFlightVocabulary.
Import JSNum Effects FranckHertz.
Open Scope R_scope.

(** [Math.pow(v, 1.5)] for a voltage [v] that is not negative. *)
Definition pow15 (v : R) : R := if Req_dec_T v 0 then 0 else Rpower v 1.5.

(** [n] successive calls of [update] on one electron, as the frames of
    [animate] make them. *)
Fixpoint flight (n : nat) (e : Electron) : Js world Electron :=
  match n with
  | O => ret e
  | S n' => e' <- update e ;; flight n' e'
  end.

(** A tube with a finite accelerating voltage that is not negative, a
    finite retarding voltage, and a canvas of width [W], wider than the
    100 pixels between its edges and the electrodes. *)
Definition powered (W : R) (w : world) : Prop :=
  (exists va vr : R, vAcc w = Fin va /\ 0 <= va /\ vRet w = Fin vr) /\
  tube_width w = Fin W /\ 100 < W.

(** An electron at [xr] with a finite energy that is not negative and a
    speed of at least 0.5, the least speed that [reset] gives. *)
Definition launched (xr : R) (e : Electron) : Prop :=
  exists vr en : R,
    x e = Fin xr /\ vx e = Fin vr /\ energy e = Fin en /\
    0.5 <= vr /\ 0 <= en.

(** The tube of [tube va], at 120 degrees. *)
Definition cold_tube (va : R) : world :=
  mkWorld (Fin va) (Fin 1.5) (Fin 120) (Fin 0) [] []
          (Fin 600) (Fin 300) (mkRng (fun _ => 0.5) 0).

End FranckHertzFlightVocabulary.

(* ================================================================= *)
(** ** Photoelectric effect: the readouts of [updatePhysics] *)

Module PhotoelectricPanel.
Import JSNum Effects Photoelectric.
Open Scope num_scope.

(** The three readouts that [updatePhysics] writes, as the numbers handed
    to [toFixed(2)]. *)
Record readouts : Type := mkReadouts {
  thresholdFreq : num;
  photonEnergy : num;
  ke_display : num
}.

Definition updatePhysics (w : world) : readouts :=
  let energy := HC / lambda w in
  let thresholdFreqHz := (workFunction w * #1.602e-19) / #6.626e-34 in
  let tfTHz := thresholdFreqHz / #1e12 in
  let kemax := energy - workFunction w in
  let kemax := if kemax <? #0 then #0 else kemax in
  mkReadouts tfTHz energy kemax.

End PhotoelectricPanel.

Section PhotoelectricTubeVocabulary.
Import JSNum Effects Photoelectric.
Open Scope R_scope.

(** The test [// Anode Hit] of [updateElectrons] on the moved electron. *)
Definition anode_hit (ff : num) (e : electron) : bool :=
  let x' := add (x e) (sub (vx e) ff) in
  let y' := add (y e) (vy e) in
  (le x' (add anode_x anode_w)) && (ge x' anode_x)
  && (lt (Math_abs (sub y' anode_y)) (div anode_h (Fin 2))) && negb (dead e).

(** An electron that [updateElectrons] keeps in a canvas of width [W]: it
    is alive, not left of the anode plane, between the glass walls, on
    the canvas, not behind the cathode dish and not on the anode. *)
Definition in_tube (W : R) (e : electron) : Prop :=
  dead e = false /\
  exists xr yr : R,
    x e = Fin xr /\ y e = Fin yr /\
    300 <= xr <= W /\ 130 <= yr <= 370 /\
    (xr <= 350 \/ (xr - 350) * (xr - 350) + (yr - 250) * (yr - 250)
                  <= 180 * 180) /\
    ~ (xr <= 310 /\ Rabs (yr - 250) < 100).

(** The world [bench 0.25] with one electron in the tube, moving to the
    left. *)
Definition bench_with_electron : world :=
  set_electrons
    [mkElectron (Fin 400) (Fin 250) (Fin (-2)) (Fin 0) (Fin 1) false]
    (bench 0.25).

End PhotoelectricTubeVocabulary.

(* ================================================================= *)
(** ** Compton scattering: the photons and the recoil electrons *)

Module ComptonScene.
Import JSNum Effects Compton.
Open Scope num_scope.

(** *** GEO *)
Definition centerX : num := #400.
Definition centerY : num := #300.
Definition sourceX : num := #50.

Inductive photon_type : Type := incident | scattered.

(** A photon packet.  The properties [hasHit] and [dead] are missing on a
    new incident photon; a missing property is read as [false], which is
    how the two tests [!p.hasHit] and [!p.dead] read it. *)
Record photon : Type := mkPhoton {
  x : num;
  y : num;
  vx : num;
  vy : num;
  type : photon_type;
  lambda : num;
  hasHit : bool;
  dead : bool
}.

Record electron : Type := mkElectron {
  ex : num;
  ey : num;
  evx : num;
  evy : num;
  edead : bool
}.

(** The object [state]: the part that [updatePhysics] reads and writes,
    the two arrays and the flag [targetHit]; and the size of the
    canvas. *)
Record world : Type := mkWorld {
  physics : Compton.state;
  photons : list photon;
  electrons : list electron;
  targetHit : bool;
  canvas_width : num;
  canvas_height : num
}.

Definition set_photons (l : list photon) (w : world) : world :=
  mkWorld (physics w) l (electrons w) (targetHit w)
          (canvas_width w) (canvas_height w).

Definition set_electrons (l : list electron) (w : world) : world :=
  mkWorld (physics w) (photons w) l (targetHit w)
          (canvas_width w) (canvas_height w).

Definition set_targetHit (b : bool) (w : world) : world :=
  mkWorld (physics w) (photons w) (electrons w) b
          (canvas_width w) (canvas_height w).

Definition firePhoton : Js world unit :=
  modify (fun w =>
    set_photons
      (photons w ++
       [mkPhoton (sourceX + #40) centerY #4 #0 incident
                 (Compton.lambda (physics w)) false false]) w) ;;;
  modify (set_electrons []) ;;;
  modify (set_targetHit false).

Definition scatter (incidentPhoton : photon) : Js world unit :=
  modify (set_targetHit true) ;;;
  w <- get ;;
  let thetaRad := toRad (theta (physics w)) in
  let speed := #3 in
  let shift := LAMBDA_C * (#1 - Math_cos thetaRad) in
  let newLambda := lambda incidentPhoton + shift in
  let lambdaScale := #0.2 in
  let numCycles := #8 in
  let packetLength := Math_max #5 (newLambda * lambdaScale) * numCycles in
  let halfLength := packetLength / #2 in
  let dirX := Math_cos thetaRad in
  let dirY := Math_sin thetaRad in
  modify (fun w =>
    set_photons
      (photons w ++
       [mkPhoton (centerX - dirX * halfLength) (centerY - dirY * halfLength)
                 (dirX * speed) (dirY * speed) scattered newLambda
                 false false]) w) ;;;
  w <- get ;;
  let phiRad := phi (physics w) in
  let eSpeed := #3 in
  modify (fun w =>
    set_electrons
      (electrons w ++
       [mkElectron centerX centerY (Math_cos phiRad * eSpeed)
                   (- (Math_sin phiRad) * eSpeed) false]) w).

Definition is_incident (p : photon) : bool :=
  match type p with incident => true | scattered => false end.

(** [(cycleLength * numCycles) / 2] of the two blocks of the photon loop. *)
Definition packetHalfLength (p : photon) : num :=
  let lambdaScale := #0.2 in
  let cycleLength := Math_max #5 (lambda p * lambdaScale) in
  let numCycles := #8 in
  (cycleLength * numCycles) / #2.

(** The body of the first [forEach] of [updateEntities], on the photon
    [p]. *)
Definition updatePhoton (p : photon) : Js world photon :=
  let x' := x p + vx p in
  let y' := y p + vy p in
  let p1 := mkPhoton x' y' (vx p) (vy p) (type p) (lambda p)
                     (hasHit p) (dead p) in
  p2 <- (if is_incident p1 && negb (hasHit p1) then
           if x' + packetHalfLength p1 >=? centerX then
             let p2 := mkPhoton x' y' (vx p) (vy p) (type p) (lambda p)
                                true (dead p) in
             scatter p2 ;;; ret p2
           else ret p1
         else ret p1) ;;
  let dead3 :=
    if is_incident p2 && hasHit p2 then
      if x' - packetHalfLength p2 >? centerX then true else dead p2
    else dead p2 in
  w <- get ;;
  let margin := #100 in
  let dead4 :=
    if (x' <? - margin) || (x' >? canvas_width w + margin)
       || (y' <? - margin) || (y' >? canvas_height w + margin)
    then true else dead3 in
  ret (mkPhoton x' y' (vx p) (vy p) (type p) (lambda p) (hasHit p2) dead4).

(** The body of the second [forEach], on the electron [e]. *)
Definition updateElectron (w : world) (e : electron) : electron :=
  let x' := ex e + evx e in
  let y' := ey e + evy e in
  let dead' :=
    if (x' <? #0) || (x' >? canvas_width w)
       || (y' <? #0) || (y' >? canvas_height w)
    then true else edead e in
  mkElectron x' y' (evx e) (evy e) dead'.

(** [updateEntities].  The first [forEach] visits the photons that the
    array holds when it starts and mutates them in place; [scatter]
    appends to the same array meanwhile, and what it appended is not
    visited.  So after the loop the array holds the visited photons, as
    mutated, followed by what was appended. *)
Definition updateEntities : Js world unit :=
  w <- get ;;
  ps <- forEach updatePhoton (photons w) ;;
  w1 <- get ;;
  let appended := skipn (List.length (photons w)) (photons w1) in
  modify (set_photons (filter (fun p => negb (dead p)) (ps ++ appended))) ;;;
  w2 <- get ;;
  let es := map (updateElectron w2) (electrons w2) in
  modify (set_electrons (filter (fun e => negb (edead e)) es)) ;;;
  w3 <- get ;;
  if targetHit w3 && (List.length (photons w3) =? 0)%nat
     && (List.length (electrons w3) =? 0)%nat
  then modify (set_targetHit false)
  else ret tt.

Definition mapRange (value inMin inMax outMin outMax : num) : num :=
  (value - inMin) * (outMax - outMin) / (inMax - inMin) + outMin.

End ComptonScene.

Section ComptonSceneVocabulary.
Import JSNum Effects Compton ComptonScene.

(** An incident photon that has not scattered yet, and a scattered one. *)
Definition unhit (p : photon) : bool := is_incident p && negb (hasHit p).

Definition is_scattered (p : photon) : bool := negb (is_incident p).

Definition count {A : Type} (f : A -> bool) (l : list A) : nat :=
  List.length (filter f l).

(** A canvas of 800 by 600 pixels with the settings of the page when it
    loads, the recoil angle not computed yet, and nothing in flight. *)
Definition scene : world :=
  mkWorld (mkState (Fin 71) (Fin 45) (Fin 0)) [] [] false (Fin 800) (Fin 600).

End ComptonSceneVocabulary.

(* ================================================================= *)
(** ** Millikan oil drop: the selection and the stopwatch *)

Module MillikanPanel.
Import JSNum Effects Millikan.
Open Scope num_scope.

(** *** The [mousedown] handler of the canvas *)

(** The [forEach] of the handler, on the drops from index [i] on:
    [minDist] and [clickedDrop] are its two local variables.  A drop is
    an object and the handler keeps a reference to it; the model keeps
    the index of the drop in [drops]. *)
Fixpoint nearest (mouseX mouseY : num) (l : list OilDrop) (i : nat)
  (minDist : num) (clickedDrop : option nat) : option nat :=
  match l with
  | [] => clickedDrop
  | drop :: rest =>
      let px := x drop * scale in
      let py := y drop * scale in
      let dist :=
        Math_sqrt (Math_pow (px - mouseX) #2 + Math_pow (py - mouseY) #2) in
      if dist <? minDist
      then nearest mouseX mouseY rest (S i) dist (Some i)
      else nearest mouseX mouseY rest (S i) minDist clickedDrop
  end.

(** The value that the handler assigns to [selectedDrop], for a click at
    [(mouseX, mouseY)] on the canvas. *)
Definition clickedDrop (mouseX mouseY : num) (w : world) : option nat :=
  nearest mouseX mouseY (drops w) 0 #20 None.

(** *** The stopwatch *)

(** The object [stopwatch] and the text of the element
    [stopwatch-display].  The times are whole milliseconds, as
    [Date.now()] returns them. *)
Record stopwatch : Type := mkStopwatch {
  running : bool;
  startTime : Z;
  elapsedTime : Z;
  display : string
}.

(** [pad(n)], as the text that the template of [formatTime] makes of
    it. *)
Definition pad (n : Z) : string :=
  if (n <? 10)%Z then ("0" ++ ToString (Some n))%string
  else ToString (Some n).

(** [Math.floor(a / b)] is [Z.div] and [a % b] is [Z.rem]. *)
Definition formatTime (ms : Z) : string :=
  let minutes := (ms / 60000)%Z in
  let seconds := (Z.rem ms 60000 / 1000)%Z in
  let centiseconds := (Z.rem ms 1000 / 10)%Z in
  (pad minutes ++ ":" ++ pad seconds ++ "." ++ pad centiseconds)%string.

(** [toggleStopwatch()], when [Date.now()] returns [now]. *)
Definition toggleStopwatch (now : Z) (s : stopwatch) : stopwatch :=
  if running s then
    mkStopwatch false (startTime s)
                (elapsedTime s + (now - startTime s))%Z (display s)
  else
    mkStopwatch true now (elapsedTime s) (display s).

Definition resetStopwatch (s : stopwatch) : stopwatch :=
  mkStopwatch false (startTime s) 0%Z "00:00.00".

(** The block [// Stopwatch update] of [loop], when [Date.now()] returns
    [now]. *)
Definition stopwatch_update (now : Z) (s : stopwatch) : stopwatch :=
  if running s then
    let diff := (now - startTime s)%Z in
    mkStopwatch (running s) (startTime s) (elapsedTime s)
                (formatTime (elapsedTime s + diff))
  else s.

End MillikanPanel.

Section MillikanPanelVocabulary.
Import JSNum Effects Millikan MillikanPanel.

(** The value of the decimal digits [d] read after the value [acc]. *)
Fixpoint uint_val (d : Decimal.uint) (acc : Z) : Z :=
  match d with
  | Decimal.Nil => acc
  | Decimal.D0 d => uint_val d (10 * acc + 0)
  | Decimal.D1 d => uint_val d (10 * acc + 1)
  | Decimal.D2 d => uint_val d (10 * acc + 2)
  | Decimal.D3 d => uint_val d (10 * acc + 3)
  | Decimal.D4 d => uint_val d (10 * acc + 4)
  | Decimal.D5 d => uint_val d (10 * acc + 5)
  | Decimal.D6 d => uint_val d (10 * acc + 6)
  | Decimal.D7 d => uint_val d (10 * acc + 7)
  | Decimal.D8 d => uint_val d (10 * acc + 8)
  | Decimal.D9 d => uint_val d (10 * acc + 9)
  end%Z.

(** A text that does not go on with a decimal digit. *)
Definition stops (r : string) : Prop :=
  match r with
  | EmptyString => True
  | String c _ => digit_of 10 c = None
  end.

(** Decimal digits that start with a digit from 1 to 9. *)
Definition leading (d : Decimal.uint) : Prop :=
  match d with
  | Decimal.Nil | Decimal.D0 _ => False
  | _ => True
  end.

(** The distance in pixels from the point [(mx, my)] of the canvas to a
    drop at [(xr, yr)] metres. *)
Definition pixel_distance (mx my xr yr : R) : R :=
  sqrt ((xr * 100000 - mx) * (xr * 100000 - mx)
        + (yr * 100000 - my) * (yr * 100000 - my))%R.

(** The pixel distance of the drop [d], whose position is finite. *)
Definition drop_distance (mx my : R) (d : OilDrop) : R :=
  match x d, y d with
  | Fin xr, Fin yr => pixel_distance mx my xr yr
  | _, _ => 0%R
  end.

(** The presses of the start/stop button at the times [ts], and frames of
    the page at the times [ts]. *)
Definition presses (ts : list Z) (s : stopwatch) : stopwatch :=
  fold_left (fun s t => toggleStopwatch t s) ts s.

(** The time between the first and the second press, the third and the
    fourth, and so on. *)
Fixpoint run_time (ts : list Z) : Z :=
  match ts with
  | t1 :: t2 :: rest => ((t2 - t1) + run_time rest)%Z
  | _ => 0%Z
  end.

(** The page [still_page] with two drops, the second one 30 pixels to
    the right of the first, and a stopwatch that has not run yet. *)
Definition two_drops : world :=
  set_drops [drop_1um;
             mkDrop (Fin 1e-6) (Fin 0.0043) (Fin 0.001) (Fin 0) (Fin 0)
                    (Fin 1.602e-19)]
            still_page.

Definition stopped : stopwatch := mkStopwatch false 0 0 "00:00.00".

(** A text of ASCII characters only: the white space that [parseInt]
    skips in it is the ASCII white space. *)
Fixpoint plain_ascii (s : string) : bool :=
  match s with
  | EmptyString => true
  | String c r => (N.ltb (N_of_ascii c) 128 && plain_ascii r)%bool
  end.

(** NaN, or an integer of magnitude at most 2^53: a number holds it
    exactly, and its text is its plain decimal digits. *)
Definition safe_integer (v : option Z) : Prop :=
  match v with
  | Some z => (Z.abs z <= 9007199254740992)%Z
  | None => True
  end.

(** The page [still_page] with 2500 typed into the slider. *)
Definition loud_page : world :=
  mkWorld [] (Fin 0) "2500" "0" (Fin 800) (Fin 500) (mkRng (fun _ => 0.5%R) 0).

End MillikanPanelVocabulary.

(* ================================================================= *)
(** ** Michelson-Morley interferometer: [src/michelson_morley.js], first
       document *)

Module MichelsonMorley.
Import JSNum.
Open Scope num_scope.

Inductive model_name : Type := ether | relativity.

(** The fields of [state] that [calculateFringeShift] reads. *)
Record state : Type := mkState {
  model : model_name;
  v : num;
  angle : num
}.

Definition calculateFringeShift (st : state) : num :=
  match model st with
  | relativity => #0
  | ether =>
      let vRatioSq := v st * v st in
      let maxVisualShift := #10 * vRatioSq in
      let rad := angle st * Math_PI / #180 in
      let currentShift := maxVisualShift * Math_cos (#2 * rad) in
      currentShift
  end.

(** [Math.round]: the nearest integer, a half rounded up. *)
Definition Math_round (a : num) : num :=
  match a with Fin x => Fin (IZR (Int_part (x + 0.5))) | _ => a end.

(** The text of a number in a template; for a finite number this is the
    text of an integer, which is all that [nmToRGB] puts into its
    template. *)
Definition text_of (a : num) : string :=
  match a with
  | Fin x => Millikan.ToString (Some (Int_part x))
  | PInf => "Infinity"
  | NInf => "-Infinity"
  | NaN => "NaN"
  end.

(** The colour [(r, g, b)] of the first cascade of [nmToRGB] and the
    [factor] of the second. *)
Definition hue (wavelength : num) : num * num * num :=
  if (wavelength >=? #380) && (wavelength <? #440) then
    (- (wavelength - #440) / (#440 - #380), #0.0, #1.0)
  else if (wavelength >=? #440) && (wavelength <? #490) then
    (#0.0, (wavelength - #440) / (#490 - #440), #1.0)
  else if (wavelength >=? #490) && (wavelength <? #510) then
    (#0.0, #1.0, - (wavelength - #510) / (#510 - #490))
  else if (wavelength >=? #510) && (wavelength <? #580) then
    ((wavelength - #510) / (#580 - #510), #1.0, #0.0)
  else if (wavelength >=? #580) && (wavelength <? #645) then
    (#1.0, - (wavelength - #645) / (#645 - #580), #0.0)
  else if (wavelength >=? #645) && (wavelength <=? #780) then
    (#1.0, #0.0, #0.0)
  else
    (#0.0, #0.0, #0.0).

Definition intensity_factor (wavelength : num) : num :=
  if (wavelength >=? #380) && (wavelength <? #420) then
    #0.3 + #0.7 * (wavelength - #380) / (#420 - #380)
  else if (wavelength >=? #420) && (wavelength <? #701) then
    #1.0
  else if (wavelength >=? #701) && (wavelength <=? #780) then
    #0.3 + #0.7 * (#780 - wavelength) / (#780 - #700)
  else
    #0.0.

(** The three numbers [R], [G] and [B] of [nmToRGB]. *)
Definition channels (wavelength : num) : num * num * num :=
  let '(r, g, b) := hue wavelength in
  let factor := intensity_factor wavelength in
  (Math_round (#255 * (r * factor)),
   Math_round (#255 * (g * factor)),
   Math_round (#255 * (b * factor))).

Definition nmToRGB (wavelength : num) : string :=
  let '(R, G, B) := channels wavelength in
  ("rgb(" ++ text_of R ++ ", " ++ text_of G ++ ", " ++ text_of B ++ ")")%string.

End MichelsonMorley.

Section MichelsonMorleyVocabulary.
Import JSNum MichelsonMorley.

(** A wavelength from 380 to 780 nm. *)
Definition visible (wavelength : num) : bool :=
  ge wavelength (Fin 380) && le wavelength (Fin 780).

End MichelsonMorleyVocabulary.

(* ================================================================= *)
(** ** Franck-Hertz tube: the frame of [animate] *)

Module FranckHertzFrame.
Import JSNum Effects FranckHertz.
Open Scope num_scope.

Definition set_electrons (l : list Electron) (w : world) : world :=
  mkWorld (vAcc w) (vRet w) (temperature w) (current w) l (collisions w)
          (tube_width w) (tube_height w) (random w).

Definition set_current (c : num) (w : world) : world :=
  mkWorld (vAcc w) (vRet w) (temperature w) c (electrons w) (collisions w)
          (tube_width w) (tube_height w) (random w).

(** The block [// Emission] of [animate]; [new Electron()] is [reset] on
    a new object. *)
Definition emission : Js world unit :=
  w <- get ;;
  let emissionRate := Math_max #0 ((temperature w - #100) / #500) in
  u <- Math_random ;;
  if u <? emissionRate then
    e <- reset ;;
    modify (fun w => set_electrons (electrons w ++ [e]) w)
  else ret tt.

(** The loop of the block [// Logic], which goes from the last electron
    to the first and splices out the ones that are not active or are
    beyond the canvas: the electrons that stay, in their order. *)
Fixpoint logic_loop (l : list Electron) : Js world (list Electron) :=
  match l with
  | [] => ret []
  | e :: rest =>
      rest' <- logic_loop rest ;;
      e' <- update e ;;
      w <- get ;;
      if negb (active e') || (x e' >? tube_width w)
      then ret rest'
      else ret (e' :: rest')
  end.

Definition logic : Js world unit :=
  w <- get ;;
  l <- logic_loop (electrons w) ;;
  modify (set_electrons l).

(** The block [// Collisions]: every glow loses 0.05 of its life and is
    spliced out when none is left. *)
Definition fade (c : collision) : collision :=
  mkCollision (at_x c) (at_y c) (life c - #0.05) (opacity c).

Definition glows : Js world unit :=
  modify (fun w =>
    set_collisions
      (filter (fun c => negb (life c <=? #0)) (map fade (collisions w))) w).

(** [animate] while no auto-scan runs; the history of the plot and the
    drawing are left out. *)
Definition animate : Js world unit :=
  modify (fun w => set_current (calculateCurrent w (vAcc w)) w) ;;;
  emission ;;;
  logic ;;;
  glows.

End FranckHertzFrame.

Section FranckHertzFrameVocabulary.
Import JSNum Effects FranckHertz FranckHertzFrame.
Open Scope R_scope.

(** The electrons of a tube of width [W] in the order of their emission,
    the oldest first: every one is active, on the canvas and launched,
    and has advanced by 0.5 at least for every electron emitted after it
    and by [o] more. *)
Fixpoint queued (W o : R) (l : list Electron) : Prop :=
  match l with
  | [] => True
  | e :: rest =>
      (exists xr : R,
         launched xr e /\ active e = true /\ xr <= W /\
         40 + 0.5 * INR (List.length rest) + o <= xr) /\
      queued W o rest
  end.

(** The tube [tube 10] with one glow that has just appeared. *)
Definition glowing_tube : world :=
  set_collisions [mkCollision (Fin 100) (Fin 100) (Fin 1.0) (Fin 1)] (tube 10).

End FranckHertzFrameVocabulary.

(* ================================================================= *)
(** ** Facts about numbers *)

Section NumFacts.
Import JSNum.
Open Scope R_scope.

(** *** Division and NaN *)

Lemma div_fin (x y : R) : y <> 0 -> div (Fin x) (Fin y) = Fin (x / y).
Proof.
  intros H. unfold div.
  destruct (Req_dec_T y 0); [contradiction|reflexivity].
Qed.

Lemma div_zero_zero (y : R) : y = 0 -> div (Fin 0) (Fin y) = NaN.
Proof.
  intros ->. unfold div, signed_inf.
  destruct (Req_dec_T 0 0) as [_|E]; [|lra].
  destruct (Rlt_dec 0 0); [lra|reflexivity].
Qed.

Lemma add_NaN_l (a : num) : add NaN a = NaN.
Proof. reflexivity. Qed.

Lemma mul_NaN_l (a : num) : mul NaN a = NaN.
Proof. reflexivity. Qed.

Lemma add_NaN_r (a : num) : add a NaN = NaN.
Proof. destruct a; reflexivity. Qed.

Lemma mul_NaN_r (a : num) : mul a NaN = NaN.
Proof. destruct a; reflexivity. Qed.

Lemma is_finite_Fin (a : num) : is_finite a = true -> exists r, a = Fin r.
Proof. destruct a; try discriminate. intros _. eexists. reflexivity. Qed.

(** *** Integer parts and powers *)

Lemma Int_part_3 : Int_part 3 = 3%Z.
Proof.
  symmetry. apply Int_part_spec. split; lra.
Qed.

Lemma Int_part_IZR (z : Z) : Int_part (IZR z) = z.
Proof.
  symmetry. apply Int_part_spec. split; lra.
Qed.

(** A loop bound that [Math.floor] returned is run that many times. *)
Lemma ceil_IZR (z : Z) : (- Int_part (- IZR z))%Z = z.
Proof.
  rewrite <- opp_IZR, Int_part_IZR. lia.
Qed.

Lemma Math_pow_cube (r : R) : Math_pow (Fin r) (Fin 3) = Fin (r * r * r).
Proof.
  unfold Math_pow.
  destruct (Req_dec_T 3 0) as [E|_]; [lra|].
  destruct (Req_dec_T r 0) as [E|Hr].
  - destruct (Rlt_dec 0 3); [|lra]. subst r. f_equal. lra.
  - destruct (Rlt_dec 0 r) as [Hp|Hn].
    + f_equal. replace 3 with (INR 3) by (simpl; lra).
      rewrite Rpower_pow by exact Hp. simpl. lra.
    + unfold is_integer. rewrite Int_part_3.
      destruct (Req_dec_T 3 3) as [_|E]; [|lra].
      f_equal. simpl. lra.
Qed.

(** *** The cosine of 45 degrees *)

Lemma sqrt2_bounds : 1.41421 < sqrt 2 < 1.41422.
Proof.
  assert (H0 : 0 <= sqrt 2) by apply sqrt_pos.
  assert (H2 : sqrt 2 * sqrt 2 = 2) by (apply sqrt_sqrt; lra).
  split; nra.
Qed.

Lemma cos_45_bounds : 0.70710 < cos (45 * PI / 180) < 0.70711.
Proof.
  replace (45 * PI / 180) with (PI / 4) by lra.
  rewrite cos_PI4.
  destruct sqrt2_bounds as [Hlo Hhi].
  assert (Hpos : 0 < sqrt 2) by lra.
  split.
  - apply Rmult_lt_reg_r with (sqrt 2); [exact Hpos|].
    unfold Rdiv. rewrite Rmult_assoc, Rinv_l by lra. nra.
  - apply Rmult_lt_reg_r with (sqrt 2); [exact Hpos|].
    unfold Rdiv. rewrite Rmult_assoc, Rinv_l by lra. nra.
Qed.

End NumFacts.

Create Rewrite HintDb nan.
#[global] Hint Rewrite add_NaN_l add_NaN_r mul_NaN_l mul_NaN_r : nan.

(** Proves that a product of non-zero reals is not zero. *)
Ltac nonzero :=
  first [assumption | apply PI_neq0 | lra
        | apply Rmult_integral_contrapositive_currified; nonzero].

(* ================================================================= *)
(** ** Facts about computations *)

Section EffectsFacts.
Import Effects.

Lemma exec_bind {W A B : Type} (c : Js W A) (k : A -> Js W B) (w : W) :
  exec (bind c k) w = exec (k (eval c w)) (exec c w).
Proof. unfold exec, eval, bind. destruct (c w). reflexivity. Qed.

Lemma exec_seq {W A B : Type} (c : Js W A) (k : Js W B) (w : W) :
  exec (bind c (fun _ => k)) w = exec k (exec c w).
Proof. apply exec_bind. Qed.

End EffectsFacts.

(* ================================================================= *)
(** ** Compton scattering: the readouts *)

Section ComptonFacts.
Import JSNum Compton.
Open Scope R_scope.

Lemma compton_shift_nonneg (t : R) : 0 <= 2.43 * (1 - cos t).
Proof. pose proof (COS_bound t) as [_ H]. nra. Qed.

(** C1.  For every incident wavelength [l > 0] and every angle [t] (in
    degrees) the readouts computed by [updatePhysics] are
    shift = LAMBDA_C * (1 - cos t), scattered wavelength = l + shift,
    incident energy = HC / l, scattered energy = HC / (l + shift) and
    electron energy = their difference; at l = 71 pm and t = 45 degrees
    these are 0.711.. pm, 71.711.. pm, 17.46.. keV, 17.29.. keV and
    0.17.. keV. *)
Theorem compton_updatePhysics_readouts (l t : R) (p : num) (Hl : 0 < l) :
  let r := snd (updatePhysics (mkState (Fin l) (Fin t) p)) in
  let shift := 2.43 * (1 - cos (t * PI / 180)) in
  (lambdaInc r = Fin l /\
   lambdaShift r = Fin shift /\
   lambdaScat r = Fin (l + shift) /\
   enInc r = Fin (1240 / l) /\
   enScat r = Fin (1240 / (l + shift)) /\
   enElec r = Fin (1240 / l - 1240 / (l + shift))) /\
  (l = 71 -> t = 45 ->
   0.711 < shift < 0.712 /\
   71.711 < l + shift < 71.712 /\
   17.46 < 1240 / l < 17.47 /\
   17.29 < 1240 / (l + shift) < 17.30 /\
   0.17 < 1240 / l - 1240 / (l + shift) < 0.18).
Proof.
  intros r shift.
  assert (Hs : 0 <= shift) by apply compton_shift_nonneg.
  split.
  - unfold r, updatePhysics, toRad, HC, LAMBDA_C, Math_PI; cbn [snd lambda theta
      lambdaInc lambdaShift lambdaScat enInc enScat enElec
      mul div add sub neg Math_cos].
    destruct (Req_dec_T 180 0) as [E|_]; [lra|].
    cbn [Math_cos mul add sub neg div].
    destruct (Req_dec_T l 0) as [E|_]; [lra|].
    fold shift.
    replace (1 + - cos (t * PI / 180)) with (1 - cos (t * PI / 180)) by lra.
    fold shift.
    destruct (Req_dec_T (l + shift) 0) as [E|_]; [lra|].
    cbn [add neg].
    repeat split; f_equal; lra.
  - intros -> ->.
    pose proof cos_45_bounds as [Hc1 Hc2].
    assert (Hsh : 0.711 < shift < 0.712) by (unfold shift; lra).
    assert (H71 : 17.46 < 1240 / 71 < 17.47) by lra.
    assert (Hsc : 17.29 < 1240 / (71 + shift) < 17.30).
    { split.
      - apply Rmult_lt_reg_r with (71 + shift); [lra|].
        unfold Rdiv. rewrite Rmult_assoc, Rinv_l by lra. nra.
      - apply Rmult_lt_reg_r with (71 + shift); [lra|].
        unfold Rdiv. rewrite Rmult_assoc, Rinv_l by lra. nra. }
    repeat split; try lra.
    + assert (1240 / (71 + shift) < 1240 / 71 - 0.17); [|lra].
      apply Rmult_lt_reg_r with (71 + shift); [lra|].
      unfold Rdiv at 1. rewrite Rmult_assoc, Rinv_l by lra.
      assert (0.7117 < shift) by (unfold shift; lra).
      assert (17.464 < 1240 / 71) by lra. nra.
Qed.

Lemma compton_updatePhysics_readouts_witness :
  0 < 71 /\
  lambdaShift (snd (updatePhysics (mkState (Fin 71) (Fin 45) (Fin 0))))
  = Fin (2.43 * (1 - cos (45 * PI / 180))).
Proof.
  split; [lra|].
  apply (compton_updatePhysics_readouts (l := 71) 45 (Fin 0)); lra.
Defined.

End ComptonFacts.

(* ================================================================= *)
(** ** Millikan oil drop: the update of a drop *)

Section MillikanFacts.
Import JSNum Effects Millikan.
Open Scope R_scope.

(** The drop after [update], when its radius is finite and not zero and
    its charge and the voltage are finite. *)
Lemma update_finite (d : OilDrop) (dt : num) (w : world) (r qv V : R) :
  radius d = Fin r -> r <> 0 -> q d = Fin qv -> voltage w = Fin V ->
  let u1 := src (random w) (pos (random w)) in
  let u2 := src (random w) (S (pos (random w))) in
  let Fg := 4 / 3 * PI * (r * r * r) * 875 * 9.80 in
  let Fb := 4 / 3 * PI * (r * r * r) * 1.225 * 9.80 in
  let Fe := qv * (V / 0.005) in
  let drag := 6 * PI * 1.81e-5 * r in
  let jitter := 1e-6 / r * 2e-6 in
  let vx2 := 0 + (u1 - 0.5) * jitter in
  let vy2 := (Fg - Fb + Fe) / drag + (u2 - 0.5) * jitter in
  update d dt w =
  (mkDrop (Fin r) (add (x d) (mul (Fin vx2) dt)) (add (y d) (mul (Fin vy2) dt))
          (Fin vx2) (Fin vy2) (Fin qv),
   set_random (mkRng (src (random w)) (S (S (pos (random w))))) w).
Proof.
  intros Hr Hr0 Hq HV. cbv zeta.
  unfold update, bind, get, ret, Math_random.
  cbn [rng_of with_rng world_randomness].
  rewrite Hr, Hq, HV, Math_pow_cube.
  unfold g, rho_oil, rho_air, viscosity, e, plateDistance, Math_PI.
  cbn [mul add sub neg random set_random src pos voltage].
  rewrite !div_fin by nonzero.
  cbn [mul add sub neg random set_random src pos voltage].
  rewrite !div_fin by nonzero.
  cbn [mul add sub neg random set_random src pos voltage].
  unfold set_random;
    cbn [drops voltage voltage_slider voltage_input width height random].
  repeat f_equal; unfold Rdiv; lra.
Qed.

(** With radius 0 the horizontal velocity is 0 / 0. *)
Lemma update_radius_zero (d : OilDrop) (dt : num) (w : world) :
  radius d = Fin 0 ->
  vx (eval (update d dt) w) = NaN /\ x (eval (update d dt) w) = NaN.
Proof.
  intros Hr.
  unfold eval, update, bind, get, ret, Math_random.
  cbn [rng_of with_rng world_randomness fst vx x].
  rewrite Hr. unfold viscosity, Math_PI.
  cbn [mul].
  rewrite div_zero_zero by lra.
  autorewrite with nan. split; reflexivity.
Qed.


(** A drop made by the constructor from a uniform random source has a
    radius between 0.5 and 1.1 micrometres and the charge of one
    electron, of either sign. *)
Lemma OilDrop_new_wellformed (w : world) :
  uniform (random w) ->
  exists r qv : R,
    radius (eval OilDrop_new w) = Fin r /\ 0.5e-6 <= r < 1.1e-6 /\
    q (eval OilDrop_new w) = Fin qv /\ (qv = 1.602e-19 \/ qv = - 1.602e-19).
Proof.
  intros Hu.
  unfold eval, OilDrop_new, bind, get, ret, Math_random.
  cbn [rng_of with_rng world_randomness fst radius q random set_random
       src pos add mul sub neg].
  pose proof (Hu (pos (random w))) as H1.
  unfold e. cbn [lt].
  destruct (Rlt_dec _ _); cbn [mul].
  - eexists. eexists. split; [reflexivity|]. split; [lra|].
    split; [reflexivity|]. right. lra.
  - eexists. eexists. split; [reflexivity|]. split; [lra|].
    split; [reflexivity|]. left. lra.
Qed.

(** C5.  [update] sets the velocity to the terminal velocity of the
    driving forces, not to an integral of the acceleration: for a drop of
    finite non-zero radius [r] and finite charge, under a finite voltage,
    the new vertical velocity is (Fg - Fb + Fe) / (6 pi eta r) plus the
    jitter term, the new horizontal velocity is 0 plus the jitter term,
    the position advances by the new velocity times [dt], and the drop
    after the update is the same whatever its previous velocity was. *)
Theorem oildrop_update_terminal_velocity
  (d : OilDrop) (dt : num) (w : world) (r qv V : R)
  (Hr : radius d = Fin r) (Hr0 : r <> 0)
  (Hq : q d = Fin qv) (HV : voltage w = Fin V) :
  let d' := eval (update d dt) w in
  let u1 := src (random w) (pos (random w)) in
  let u2 := src (random w) (S (pos (random w))) in
  let Fg := 4 / 3 * PI * r ^ 3 * 875 * 9.80 in
  let Fb := 4 / 3 * PI * r ^ 3 * 1.225 * 9.80 in
  let Fe := qv * V / 0.005 in
  let jitter := 1e-6 / r * 2e-6 in
  vy d' = Fin ((Fg - Fb + Fe) / (6 * PI * 1.81e-5 * r) + (u2 - 0.5) * jitter) /\
  vx d' = Fin (0 + (u1 - 0.5) * jitter) /\
  x d' = add (x d) (mul (vx d') dt) /\
  y d' = add (y d) (mul (vy d') dt) /\
  (forall vx0 vy0 : num,
     eval (update (mkDrop (radius d) (x d) (y d) vx0 vy0 (q d)) dt) w = d').
Proof.
  intros d' u1 u2 Fg Fb Fe jitter.
  assert (Hd' : d' = fst (update d dt w)) by reflexivity.
  rewrite (update_finite d dt w Hr Hr0 Hq HV) in Hd'. cbn [fst] in Hd'.
  assert (Hvy : vy d' =
    Fin ((Fg - Fb + Fe) / (6 * PI * 1.81e-5 * r) + (u2 - 0.5) * jitter)).
  { rewrite Hd'. cbn [vy]. f_equal. unfold Fg, Fb, Fe, jitter, u2.
    unfold Rdiv. simpl pow. lra. }
  assert (Hvx : vx d' = Fin (0 + (u1 - 0.5) * jitter)).
  { rewrite Hd'. reflexivity. }
  split; [exact Hvy|]. split; [exact Hvx|].
  split; [rewrite Hd'; reflexivity|]. split; [rewrite Hd'; reflexivity|].
  { intros vx0 vy0. unfold eval.
    rewrite (update_finite (mkDrop (radius d) (x d) (y d) vx0 vy0 (q d))
               dt w (r := r) (qv := qv) (V := V)) by assumption.
    rewrite Hd'. reflexivity. }
Qed.

Lemma oildrop_update_terminal_velocity_witness :
  vx (eval (update drop_1um (Fin 0.016)) still_page)
  = Fin (0 + (0.5 - 0.5) * (1e-6 / 1e-6 * 2e-6)).
Proof.
  apply (@oildrop_update_terminal_velocity drop_1um (Fin 0.016) still_page
           1e-6 1.602e-19 0); [reflexivity | lra | reflexivity | reflexivity].
Defined.

(** [update] on a drop of radius 0, under 0 V: neither component of the
    velocity is zero, both are NaN, and so is the position. *)
Lemma oildrop_radius_zero_not_finite :
  let d' := eval (update drop_r0 (Fin 0.016)) still_page in
  vx d' = NaN /\ vy d' = NaN /\ x d' = NaN /\ y d' = NaN.
Proof.
  cbv zeta.
  unfold eval, update, bind, get, ret, Math_random, drop_r0, still_page.
  cbn [rng_of with_rng world_randomness fst vx vy x y radius q voltage
       random set_random src pos].
  rewrite Math_pow_cube.
  unfold g, rho_oil, rho_air, viscosity, e, plateDistance, Math_PI.
  cbn [mul add sub neg].
  rewrite !(div_fin 4 (y := 3)) by lra.
  rewrite !(div_fin 0 (y := 0.005)) by lra.
  cbn [mul add sub neg].
  rewrite div_zero_zero by lra.
  replace (4 / 3 * PI * (0 * 0 * 0) * 875 * 9.80 +
           - (4 / 3 * PI * (0 * 0 * 0) * 1.225 * 9.80) +
           1.602e-19 * (0 / 0.005)) with 0 by (unfold Rdiv; lra).
  rewrite div_zero_zero by lra.
  repeat split; reflexivity.
Qed.

Lemma signed_inf_not_finite (x : R) : is_finite (signed_inf x) = false.
Proof.
  unfold signed_inf. destruct (Rlt_dec 0 x); [reflexivity|].
  destruct (Rlt_dec x 0); reflexivity.
Qed.

(** Nothing finite comes out of a division by zero, of a sum with a
    term that is not finite, or of a product with a factor that is not
    finite. *)
Lemma div_zero_not_finite (a : num) : is_finite (div a (Fin 0)) = false.
Proof.
  destruct a as [x| | |]; cbn [div].
  - destruct (Req_dec_T 0 0) as [_|N]; [|exfalso; lra].
    apply signed_inf_not_finite.
  - destruct (Rlt_dec 0 0); reflexivity.
  - destruct (Rlt_dec 0 0); reflexivity.
  - reflexivity.
Qed.

Lemma add_not_finite_l (a b : num) :
  is_finite a = false -> is_finite (add a b) = false.
Proof. destruct a, b; cbn; congruence. Qed.

Lemma add_not_finite_r (a b : num) :
  is_finite b = false -> is_finite (add a b) = false.
Proof. destruct a, b; cbn; congruence. Qed.

Lemma mul_not_finite_l (a b : num) :
  is_finite a = false -> is_finite (mul a b) = false.
Proof.
  destruct a, b; cbn [mul is_finite]; try congruence;
    intros _; apply signed_inf_not_finite.
Qed.

(** C9.  [update] has no guard on the drag coefficient
    [6 pi eta radius], and a zero denominator is not treated as a zero
    velocity.  When the radius is 0 the horizontal velocity is
    0 / 0 = NaN and the NaN goes into the horizontal position; the
    vertical velocity, a quotient by zero plus the jitter, is an infinity
    or NaN, and so is the vertical position.  This holds whatever the
    charge, the voltage, the position, [dt] and the random draws are:
    none of the four is zero or any other finite number. *)
Theorem oildrop_update_zero_drag
  (d : OilDrop) (dt : num) (w : world) (Hr : radius d = Fin 0) :
  let d' := eval (update d dt) w in
  vx d' = NaN /\ x d' = NaN /\
  is_finite (vy d') = false /\ is_finite (y d') = false.
Proof.
  intros d'.
  destruct (update_radius_zero d dt w Hr) as [Hvx Hx].
  split; [exact Hvx|]. split; [exact Hx|].
  assert (Hvy : is_finite (vy d') = false).
  { unfold d', eval, update, bind, get, ret, Math_random.
    cbn [rng_of with_rng world_randomness fst vy].
    rewrite Hr. unfold viscosity, Math_PI.
    replace (mul (mul (mul (Fin 6) (Fin PI)) (Fin 1.81e-5)) (Fin 0))
      with (Fin 0) by (cbn [mul]; f_equal; lra).
    apply add_not_finite_l. apply div_zero_not_finite. }
  split; [exact Hvy|].
  assert (Hy : y d' = add (y d) (mul (vy d') dt)) by reflexivity.
  rewrite Hy. apply add_not_finite_r. apply mul_not_finite_l. exact Hvy.
Qed.

Lemma oildrop_update_zero_drag_witness :
  x (eval (update drop_r0 (Fin 0.016)) still_page) = NaN /\
  is_finite (y (eval (update drop_r0 (Fin 0.016)) still_page)) = false.
Proof.
  destruct (@oildrop_update_zero_drag drop_r0 (Fin 0.016) still_page eq_refl)
    as (_ & Hx & _ & Hy).
  split; [exact Hx|exact Hy].
Defined.

End MillikanFacts.

(* ================================================================= *)
(** ** Millikan oil drop: the voltage input *)

Section VoltageInput.
Import JSNum Effects Millikan.
Open Scope Z_scope.

Lemma updateVoltageFromInput_eq (w : world) :
  updateVoltageFromInput w =
  let val := clamped (parseInt (voltage_input w)) in
  mkWorld (drops w) (of_Z val) (ToString (Some val)) (ToString (Some val))
          (width w) (height w) (random w).
Proof.
  unfold updateVoltageFromInput, clamped. cbv zeta.
  set (v := match parseInt (voltage_input w) with
            | Some z => z | None => 0 end).
  destruct (Z.gtb_spec v 2000) as [H|H].
  - replace (Z.max (-2000) (Z.min 2000 v)) with 2000 by lia. reflexivity.
  - destruct (Z.ltb_spec v (-2000)) as [H'|H'].
    + replace (Z.max (-2000) (Z.min 2000 v)) with (-2000) by lia.
      reflexivity.
    + replace (Z.max (-2000) (Z.min 2000 v)) with v by lia. reflexivity.
Qed.

Lemma in_range_complete (z : Z) : -2000 <= z <= 2000 -> In z in_range.
Proof.
  intros H. unfold in_range. apply in_map_iff.
  exists (Z.to_nat (z + 2000)). split; [lia|].
  apply in_seq. lia.
Qed.

Lemma reads_back_in_range : forallb reads_back in_range = true.
Proof. vm_compute. reflexivity. Qed.

(** The text written back to the input field parses to the stored
    value. *)
Lemma parseInt_ToString (z : Z) :
  -2000 <= z <= 2000 -> parseInt (ToString (Some z)) = Some z.
Proof.
  intros H.
  pose proof reads_back_in_range as Hall.
  rewrite forallb_forall in Hall.
  specialize (Hall z (in_range_complete H)).
  unfold reads_back in Hall.
  destruct (parseInt (ToString (Some z))) as [z'|]; [|discriminate].
  apply Z.eqb_eq in Hall. congruence.
Qed.

Lemma clamped_bounds (v : option Z) : -2000 <= clamped v <= 2000.
Proof. unfold clamped. lia. Qed.

Lemma clamped_idem (v : option Z) : clamped (Some (clamped v)) = clamped v.
Proof. unfold clamped. lia. Qed.

(** C10.  Whatever the text of the input field is,
    [updateVoltageFromInput] stores an integer between -2000 and 2000:
    0 when the text does not parse (NaN), the parsed integer clamped to
    the bounds otherwise; the stored voltage depends on the text alone,
    and running the handler again on the page it leaves, whose input
    field shows the clamped value, changes nothing. *)
Theorem updateVoltageFromInput_clamps_idempotent (w : world) :
  (exists z : Z,
     voltage (updateVoltageFromInput w) = of_Z z /\
     -2000 <= z <= 2000 /\
     (parseInt (voltage_input w) = None -> z = 0) /\
     (forall v : Z, parseInt (voltage_input w) = Some v ->
                    z = Z.max (-2000) (Z.min 2000 v))) /\
  updateVoltageFromInput (updateVoltageFromInput w)
  = updateVoltageFromInput w /\
  (forall w' : world,
     voltage_input w' = voltage_input w ->
     voltage (updateVoltageFromInput w') = voltage (updateVoltageFromInput w)).
Proof.
  split; [|split].
  - exists (clamped (parseInt (voltage_input w))).
    rewrite updateVoltageFromInput_eq. cbv zeta. cbn [voltage].
    split; [reflexivity|]. split; [apply clamped_bounds|].
    split.
    + intros ->. reflexivity.
    + intros v ->. reflexivity.
  - rewrite (updateVoltageFromInput_eq (updateVoltageFromInput w)).
    rewrite (updateVoltageFromInput_eq w). cbv zeta.
    cbn [voltage_input drops width height random].
    rewrite parseInt_ToString by apply clamped_bounds.
    rewrite clamped_idem. reflexivity.
  - intros w' E. rewrite !updateVoltageFromInput_eq. cbv zeta.
    cbn [voltage]. rewrite E. reflexivity.
Qed.

Example updateVoltageFromInput_5000 :
  voltage (updateVoltageFromInput
             (mkWorld [] (Fin 0) "0" " 5000" (Fin 800) (Fin 500)
                      (mkRng (fun _ => 0%R) 0)))
  = of_Z 2000.
Proof. reflexivity. Qed.

Example updateVoltageFromInput_text :
  voltage (updateVoltageFromInput
             (mkWorld [] (Fin 7) "7" "volts" (Fin 800) (Fin 500)
                      (mkRng (fun _ => 0%R) 0)))
  = of_Z 0.
Proof. reflexivity. Qed.

End VoltageInput.

(* ================================================================= *)
(** ** Photoelectric effect: the emission threshold *)

Section PhotoFacts.
Import JSNum Effects Photoelectric.
Open Scope R_scope.

Lemma spawnElectron_noop (x y a : num) (w : world) :
  below_threshold w -> spawnElectron x y a w = (tt, w).
Proof.
  intros H. unfold spawnElectron, bind, get.
  unfold below_threshold in H. rewrite H. reflexivity.
Qed.

Lemma spawnRandomElectron_below (w : world) :
  below_threshold w ->
  spawnRandomElectron w =
  (tt, set_random (mkRng (src (random w)) (S (pos (random w))))
         (count_spawn_call w)).
Proof.
  intros H. unfold spawnRandomElectron, bind, modify, Math_random.
  cbn [rng_of with_rng world_randomness].
  rewrite spawnElectron_noop; [reflexivity|].
  exact H.
Qed.

Lemma quiet_refl (w : world) : quiet w w.
Proof. repeat split. Qed.

Lemma quiet_trans (w1 w2 w3 : world) : quiet w1 w2 -> quiet w2 w3 -> quiet w1 w3.
Proof.
  unfold quiet. intros (A & B & C & D) (A' & B' & C' & D').
  repeat split; congruence.
Qed.

Lemma below_threshold_params (w w' : world) :
  params w' = params w -> below_threshold w -> below_threshold w'.
Proof.
  unfold params, below_threshold. intros E H.
  injection E as E1 E2 E3 E4 E5. rewrite E1, E4. exact H.
Qed.

Lemma times_spawn_below (n : nat) (w : world) :
  below_threshold w -> quiet w (exec (times n spawnRandomElectron) w).
Proof.
  revert w. induction n as [|n IH]; intros w H.
  - apply quiet_refl.
  - unfold exec. cbn [times]. unfold bind at 1.
    rewrite spawnRandomElectron_below by exact H.
    set (w1 := set_random _ _).
    assert (Q : quiet w w1) by (repeat split).
    apply quiet_trans with w1; [exact Q|].
    apply IH. apply below_threshold_params with w; [apply Q | exact H].
Qed.

Lemma spawning_below (w : world) :
  below_threshold w -> quiet w (exec spawning w).
Proof.
  intros H. unfold exec, spawning. unfold bind at 1. unfold get at 1.
  destruct (gt (intensity w) (Fin 0)); [|apply quiet_refl].
  cbv zeta. unfold bind at 1.
  pose proof (times_spawn_below
    (iterations (Math_floor (mul (intensity w) (Fin 0.03)))) H) as Q.
  unfold exec in Q.
  destruct (times _ spawnRandomElectron w) as [[] w1]. cbn [snd] in Q.
  assert (H1 : below_threshold w1)
    by (apply below_threshold_params with w; [apply Q | exact H]).
  unfold bind, Math_random. cbn [rng_of with_rng world_randomness].
  set (w2 := set_random _ w1).
  assert (Q2 : quiet w1 w2) by (repeat split).
  assert (H2 : below_threshold w2)
    by (apply below_threshold_params with w1; [apply Q2 | exact H1]).
  destruct (lt _ _).
  - rewrite spawnRandomElectron_below by exact H2. cbn [snd].
    apply quiet_trans with w1; [exact Q|].
    apply quiet_trans with w2; [exact Q2|]. repeat split.
  - cbn [ret snd]. apply quiet_trans with w1; assumption.
Qed.


Lemma set_hitHistory_same (w : world) (l : list num) :
  l = hitHistory w -> set_hitHistory l w = w.
Proof. intros ->. destruct w. reflexivity. Qed.

Lemma set_hitHistory_twice (w : world) (l1 l2 : list num) :
  set_hitHistory l2 (set_hitHistory l1 w) = set_hitHistory l2 w.
Proof. reflexivity. Qed.

(** [updateElectron] writes nothing but the hit history, to which it may
    append the timestamp. *)
Lemma updateElectron_world (ff top bot ts : num) (e : electron) (w : world) :
  exists (hits : list num) (e' : electron),
    updateElectron ff top bot ts e w
    = (e', set_hitHistory (hitHistory w ++ hits) w).
Proof.
  unfold updateElectron, bind, get. cbv zeta.
  match goal with |- context [if ?c then recordHit ts else ret tt] =>
    destruct c end.
  - exists [ts]. eexists. reflexivity.
  - exists []. eexists. cbn [ret].
    rewrite set_hitHistory_same by apply app_nil_r.
    reflexivity.
Qed.

Lemma forEach_updateElectron (ff top bot ts : num) (es : list electron)
  (w : world) :
  exists (hits : list num) (es' : list electron),
    forEach (updateElectron ff top bot ts) es w
    = (es', set_hitHistory (hitHistory w ++ hits) w) /\
    List.length es' = List.length es.
Proof.
  revert w. induction es as [|e es IH]; intros w.
  - exists [], []. cbn [forEach ret]. split; [|reflexivity].
    rewrite set_hitHistory_same by apply app_nil_r.
    reflexivity.
  - cbn [forEach]. unfold bind.
    destruct (updateElectron_world ff top bot ts e w) as (h1 & e' & E1).
    rewrite E1.
    destruct (IH (set_hitHistory (hitHistory w ++ h1) w))
      as (h2 & es' & E2 & L2).
    rewrite E2. exists (h1 ++ h2), (e' :: es'). cbn [ret]. split.
    + cbn [hitHistory set_hitHistory]. rewrite app_assoc. reflexivity.
    + cbn [List.length]. congruence.
Qed.

Lemma no_emission_trans (w1 w2 w3 : world) :
  no_emission w1 w2 -> no_emission w2 w3 -> no_emission w1 w3.
Proof.
  unfold no_emission. intros [A B] [A' B']. split; [congruence|lia].
Qed.

Lemma quiet_no_emission (w w' : world) : quiet w w' -> no_emission w w'.
Proof.
  intros (A & B & _). split; [exact A|]. rewrite B. apply le_n.
Qed.

Lemma updateElectrons_no_emission (ts : num) (w : world) :
  no_emission w (exec (updateElectrons ts) w).
Proof.
  unfold exec, updateElectrons. unfold bind at 1. unfold get at 1.
  cbv zeta. unfold bind at 1.
  destruct (forEach_updateElectron (mul (voltage w) (Fin 0.05))
              (sub tubeCenter_y (Fin 120)) (add tubeCenter_y (Fin 120))
              ts (electrons w) w) as (hits & es' & E & L).
  rewrite E. unfold modify. cbn [snd]. split; [reflexivity|].
  cbn [electrons set_electrons]. rewrite <- L. apply filter_length_le.
Qed.

(** The world after [calculateRealCurrent]. *)
Lemma calculateRealCurrent_world (ts : num) (w : world) :
  let h := filter (fun t => lt (sub ts t) (Fin 500)) (hitHistory w) in
  let a := add (mul (ammeterCurrent w) (Fin 0.9))
               (mul (mul (mul (of_nat (List.length h)) (Fin 0.2))
                         (div (Fin 1000) (Fin 500))) (Fin 0.1)) in
  let w1 := set_ammeterCurrent a (set_hitHistory h w) in
  exec (calculateRealCurrent ts) w =
  if (falsy (lastUIRefresh w) || gt (sub ts (lastUIRefresh w)) (Fin 100))%bool
  then set_refresh a ts w1 else w1.
Proof.
  cbv zeta. unfold exec, calculateRealCurrent, bind, modify, get.
  cbn [snd lastUIRefresh hitHistory ammeterCurrent set_ammeterCurrent
       set_hitHistory].
  destruct (falsy (lastUIRefresh w) || _)%bool; reflexivity.
Qed.

Lemma calculateRealCurrent_no_emission (ts : num) (w : world) :
  no_emission w (exec (calculateRealCurrent ts) w).
Proof.
  rewrite calculateRealCurrent_world. cbv zeta.
  destruct (_ || _)%bool; split; reflexivity || apply le_n.
Qed.

Lemma loop_no_emission (ts : num) (w : world) :
  below_threshold w -> no_emission w (exec (loop ts) w).
Proof.
  intros H. unfold exec, loop. unfold bind at 1. unfold modify at 1.
  set (w0 := set_clock _ _ w).
  assert (N0 : no_emission w w0) by (split; [reflexivity|apply le_n]).
  unfold bind at 1.
  pose proof (updateElectrons_no_emission ts w0) as N1. unfold exec in N1.
  destruct (updateElectrons ts w0) as [[] w1]. cbn [snd] in N1.
  assert (H1 : below_threshold w1).
  { apply below_threshold_params with w; [|exact H].
    destruct N0 as [A _]. destruct N1 as [B _]. congruence. }
  unfold bind at 1.
  pose proof (spawning_below H1) as Q. unfold exec in Q.
  destruct (spawning w1) as [[] w2]. cbn [snd] in Q.
  unfold bind at 1.
  pose proof (calculateRealCurrent_no_emission ts w2) as N3.
  unfold exec in N3.
  destruct (calculateRealCurrent ts w2) as [[] w3]. cbn [snd ret] in *.
  apply no_emission_trans with w0; [exact N0|].
  apply no_emission_trans with w1; [exact N1|].
  apply no_emission_trans with w2; [apply quiet_no_emission; exact Q|].
  exact N3.
Qed.

Lemma frames_no_emission (tss : list num) (w : world) :
  below_threshold w -> no_emission w (exec (frames tss) w).
Proof.
  revert w. induction tss as [|ts tss IH]; intros w H.
  - split; [reflexivity|apply le_n].
  - unfold exec. cbn [frames]. unfold bind at 1.
    pose proof (loop_no_emission ts H) as N. unfold exec in N.
    destruct (loop ts w) as [[] w1]. cbn [snd] in N.
    apply no_emission_trans with w1; [exact N|].
    apply IH. apply below_threshold_params with w; [apply N|exact H].
Qed.

Lemma red_light_on_copper (w : world) :
  lambda w = Fin 700 -> workFunction w = phi_copper -> below_threshold w.
Proof.
  intros El Ew. unfold below_threshold, HC, phi_copper in *. rewrite El, Ew.
  rewrite div_fin by lra. cbn [le].
  destruct (Rle_dec (1240 / 700) 4.70) as [_|N]; [reflexivity|].
  exfalso. apply N. lra.
Qed.

(** C2.  When the photon energy HC / lambda is not above the work
    function, [spawnElectron] returns at once: the world after the call
    is the world before it, so no electron is added, no random number is
    read and nothing else changes; and no run of frames, however long,
    adds an electron to the tube.  With lambda = 700 nm on copper
    (4.70 eV) a tube that starts empty stays empty. *)
Theorem spawnElectron_below_threshold_noop :
  (forall w : world,
     le (div HC (lambda w)) (workFunction w) = true ->
     (forall x y a : num, spawnElectron x y a w = (tt, w)) /\
     (forall tss : list num,
        (List.length (electrons (exec (frames tss) w))
         <= List.length (electrons w))%nat)) /\
  (forall (w : world) (tss : list num),
     lambda w = Fin 700 -> workFunction w = phi_copper ->
     electrons w = [] -> electrons (exec (frames tss) w) = []).
Proof.
  split.
  - intros w H. split.
    + intros x y a. apply spawnElectron_noop. exact H.
    + intros tss. apply (frames_no_emission tss (w := w)). exact H.
  - intros w tss El Ew Ee.
    pose proof (frames_no_emission tss (red_light_on_copper w El Ew))
      as [_ L].
    rewrite Ee in L. cbn [List.length] in L.
    destruct (electrons (exec (frames tss) w)); [reflexivity|].
    cbn [List.length] in L. lia.
Qed.

Lemma spawnElectron_below_threshold_noop_witness :
  le (div HC (lambda red_on_copper)) (workFunction red_on_copper) = true /\
  spawnElectron (Fin 528) (Fin 250) (Fin PI) red_on_copper
  = (tt, red_on_copper).
Proof.
  assert (H : le (div HC (lambda red_on_copper)) (workFunction red_on_copper)
              = true)
    by (apply red_light_on_copper; reflexivity).
  split; [exact H|].
  apply (proj1 (proj1 spawnElectron_below_threshold_noop red_on_copper H)).
Defined.

End PhotoFacts.

(* ================================================================= *)
(** ** Photoelectric effect: the ammeter *)

Section Ammeter.
Import JSNum Effects Photoelectric.
Open Scope R_scope.

(** [ts - t < 500] says that [t] is newer than [ts - 500]. *)
Lemma in_window_newer (ts t : num) :
  lt (sub ts t) (Fin 500) = gt t (sub ts (Fin 500)).
Proof.
  unfold gt.
  destruct ts as [a| | |], t as [b| | |]; cbn [sub neg add lt]; try reflexivity.
  destruct (Rlt_dec (a + - b) 500), (Rlt_dec (a + - (500)) b);
    try reflexivity; exfalso; lra.
Qed.

Lemma calculateRealCurrent_history (ts : num) (w : world) :
  hitHistory (exec (calculateRealCurrent ts) w)
  = filter (fun t => lt (sub ts t) (Fin 500)) (hitHistory w).
Proof.
  rewrite calculateRealCurrent_world. cbv zeta.
  destruct (_ || _)%bool; reflexivity.
Qed.

Lemma calculateRealCurrent_ammeter (ts : num) (w : world) :
  ammeterCurrent (exec (calculateRealCurrent ts) w)
  = add (mul (ammeterCurrent w) (Fin 0.9))
        (mul (mul (mul (of_nat (List.length
                         (hitHistory (exec (calculateRealCurrent ts) w))))
                       (Fin 0.2))
                  (div (Fin 1000) (Fin 500))) (Fin 0.1)).
Proof.
  rewrite calculateRealCurrent_history.
  rewrite calculateRealCurrent_world. cbv zeta.
  destruct (_ || _)%bool; reflexivity.
Qed.

Lemma filter_none {A : Type} (f : A -> bool) (l : list A) :
  (forall a, In a l -> f a = false) -> filter f l = [].
Proof.
  induction l as [|a l IH]; intros H; [reflexivity|].
  cbn [filter]. rewrite (H a (or_introl eq_refl)).
  apply IH. intros b Hb. apply H. right. exact Hb.
Qed.

(** A step that finds no hit inside the window. *)
Lemma calculateRealCurrent_idle (ts : num) (w : world) (a : R) :
  ammeterCurrent w = Fin a ->
  (forall t, In t (hitHistory w) -> lt (sub ts t) (Fin 500) = false) ->
  hitHistory (exec (calculateRealCurrent ts) w) = [] /\
  ammeterCurrent (exec (calculateRealCurrent ts) w) = Fin (0.9 * a).
Proof.
  intros Ha Hold.
  assert (Hh : hitHistory (exec (calculateRealCurrent ts) w) = []).
  { rewrite calculateRealCurrent_history. apply filter_none. exact Hold. }
  split; [exact Hh|].
  rewrite calculateRealCurrent_ammeter, Hh, Ha.
  unfold of_nat. cbn [List.length INR]. rewrite div_fin by lra.
  cbn [mul add]. f_equal. lra.
Qed.

Lemma aggregate_idle (tss : list num) (w : world) (a : R) :
  ammeterCurrent w = Fin a ->
  (forall ts t, In ts tss -> In t (hitHistory w) ->
                lt (sub ts t) (Fin 500) = false) ->
  ammeterCurrent (exec (aggregate tss) w) = Fin (0.9 ^ List.length tss * a) /\
  (tss <> [] -> hitHistory (exec (aggregate tss) w) = []).
Proof.
  revert w a. induction tss as [|ts tss IH]; intros w a Ha Hold.
  - cbn. split; [rewrite Ha; f_equal; lra|congruence].
  - unfold exec. cbn [aggregate]. unfold bind.
    destruct (calculateRealCurrent_idle ts w Ha) as [Hh Ha1].
    { intros t Ht. apply Hold; [left; reflexivity|exact Ht]. }
    unfold exec in Hh, Ha1.
    destruct (calculateRealCurrent ts w) as [[] w1]. cbn [snd] in Hh, Ha1.
    destruct (IH w1 (0.9 * a) Ha1) as [Ha2 Hh2].
    { intros ts' t _ Ht. rewrite Hh in Ht. destruct Ht. }
    unfold exec in Ha2, Hh2. split.
    + rewrite Ha2. f_equal. cbn [List.length pow]. lra.
    + intros _. destruct tss as [|ts' tss'].
      * cbn. exact Hh.
      * apply Hh2. discriminate.
Qed.

Lemma geometric_decay (a eps : R) :
  0 < eps -> exists N : nat, forall n : nat, (N <= n)%nat ->
  Rabs (0.9 ^ n * a) < eps.
Proof.
  intros He.
  destruct (Req_dec a 0) as [->|Ha].
  - exists O. intros n _. rewrite Rmult_0_r, Rabs_R0. exact He.
  - assert (Hpa : 0 < Rabs a) by (apply Rabs_pos_lt; exact Ha).
    destruct (pow_lt_1_zero 0.9) with (y := eps / Rabs a) as [N HN].
    + rewrite Rabs_pos_eq; lra.
    + apply Rdiv_lt_0_compat; assumption.
    + exists N. intros n Hn. rewrite Rabs_mult.
      specialize (HN n Hn).
      apply Rmult_lt_compat_r with (r := Rabs a) in HN; [|exact Hpa].
      unfold Rdiv in HN. rewrite Rmult_assoc, Rinv_l in HN; lra.
Qed.



End Ammeter.

(* ================================================================= *)
(** ** Photoelectric effect: the spawning rule *)

Section Spawning.
Import JSNum Effects Photoelectric.
Open Scope R_scope.

Lemma calls_of_draw_adapted (count : nat) (remainder : R) :
  0 <= remainder < 1 ->
  adapted_couple (calls_of_draw count remainder) 0 1
    [0; remainder; 1] [INR count + 1; INR count].
Proof.
  intros Hr. repeat split.
  - intros i Hi. cbn in Hi.
    destruct i as [|[|i]]; cbn; try lra. lia.
  - cbn. rewrite Rmin_left; lra.
  - cbn. rewrite Rmax_right; lra.
  - intros i Hi. cbn in Hi. intros x [Hx1 Hx2]. unfold calls_of_draw.
    destruct i as [|[|i]]; cbn in *; try lia.
    + destruct (Rlt_dec x remainder); lra.
    + destruct (Rlt_dec x remainder); lra.
Qed.

(** The integral over [0, 1] of the number of spawn calls as a function
    of the extra draw: the mean over a uniform draw. *)
Lemma calls_of_draw_mean (count : nat) (remainder : R) :
  0 <= remainder < 1 ->
  exists mean : StepFun 0 1,
    (forall u : R, mean u = calls_of_draw count remainder u) /\
    RiemannInt_SF mean = INR count + remainder.
Proof.
  intros Hr.
  exists (mkStepFun
            (existT _ [0; remainder; 1]
               (existT _ [INR count + 1; INR count]
                  (calls_of_draw_adapted count Hr)))).
  split; [reflexivity|].
  unfold RiemannInt_SF.
  destruct (Rle_dec 0 1) as [_|N]; [|exfalso; lra].
  cbn. lra.
Qed.

(** What [n] calls of [spawnRandomElectron] leave. *)
Lemma times_spawn_shape (n : nat) (w : world) :
  exists es : list electron,
    exec (times n spawnRandomElectron) w
    = mkWorld (lambda w) (intensity w) (voltage w) (workFunction w)
        (electrons w ++ es) (ammeterCurrent w) (time w) (wavePhase w)
        (hitHistory w) (lastUIRefresh w) (current_display w)
        (canvas_width w)
        (mkRng (src (random w)) (pos (random w) + n * draws_per_call w))
        (spawn_calls w + n) /\
    List.length es = (n * emitted_per_call w)%nat.
Proof.
  revert w. induction n as [|n IH]; intros w.
  - exists []. split; [|reflexivity]. cbn [times]. unfold exec, ret. cbn [snd].
    rewrite app_nil_r. cbn [Nat.mul]. rewrite !Nat.add_0_r.
    destruct w as [? ? ? ? ? ? ? ? ? ? ? ? [? ?] ?]. reflexivity.
  - cbn [times]. rewrite exec_seq.
    assert (E1 : exists es1 : list electron,
      exec spawnRandomElectron w
      = mkWorld (lambda w) (intensity w) (voltage w) (workFunction w)
          (electrons w ++ es1) (ammeterCurrent w) (time w) (wavePhase w)
          (hitHistory w) (lastUIRefresh w) (current_display w)
          (canvas_width w)
          (mkRng (src (random w)) (pos (random w) + draws_per_call w))
          (S (spawn_calls w)) /\
      List.length es1 = emitted_per_call w).
    { unfold exec, spawnRandomElectron. unfold bind at 1. unfold modify at 1.
      unfold bind at 1. unfold Math_random at 1.
      cbn [rng_of with_rng world_randomness]. cbv zeta.
      unfold spawnElectron. unfold bind at 1. unfold get at 1.
      unfold draws_per_call, emitted_per_call.
      cbn [lambda workFunction set_random count_spawn_call].
      destruct (le (div HC (lambda w)) (workFunction w)).
      - exists []. split; [|reflexivity]. unfold ret. cbn [snd].
        rewrite app_nil_r. unfold set_random, count_spawn_call.
        cbn [lambda intensity voltage workFunction electrons ammeterCurrent
             time wavePhase hitHistory lastUIRefresh current_display
             canvas_width random spawn_calls src pos].
        f_equal. f_equal. lia.
      - cbv zeta. unfold bind, modify, Math_random.
        cbn [rng_of with_rng world_randomness snd].
        eexists [_]. split; [|reflexivity].
        unfold set_electrons, set_random, count_spawn_call.
        cbn [lambda intensity voltage workFunction electrons ammeterCurrent
             time wavePhase hitHistory lastUIRefresh current_display
             canvas_width random spawn_calls src pos].
        f_equal. f_equal. lia. }
    destruct E1 as (es1 & E1 & L1). rewrite E1.
    destruct (IH (mkWorld (lambda w) (intensity w) (voltage w) (workFunction w)
          (electrons w ++ es1) (ammeterCurrent w) (time w) (wavePhase w)
          (hitHistory w) (lastUIRefresh w) (current_display w)
          (canvas_width w)
          (mkRng (src (random w)) (pos (random w) + draws_per_call w))
          (S (spawn_calls w)))) as (es & E & L).
    rewrite E.
    cbn [lambda intensity voltage workFunction electrons ammeterCurrent
         time wavePhase hitHistory lastUIRefresh current_display
         canvas_width random spawn_calls src pos].
    exists (es1 ++ es). split.
    + rewrite app_assoc.
      replace (draws_per_call (mkWorld _ _ _ _ _ _ _ _ _ _ _ _ _ _))
        with (draws_per_call w) by reflexivity.
      f_equal; [f_equal|]; lia.
    + rewrite length_app, L, L1.
      replace (emitted_per_call (mkWorld _ _ _ _ _ _ _ _ _ _ _ _ _ _))
        with (emitted_per_call w) by reflexivity.
      lia.
Qed.


(** C8.  In a frame with intensity [I > 0] the spawning block is
    floor(0.03 I) calls of [spawnRandomElectron], then one read of a
    random number [u], then one more call exactly when
    [u < 0.03 I - floor(0.03 I)]: the world it leaves is the world these
    steps leave.  Every call reads one random number, and two more when
    the light is above the threshold, where it also adds one electron; so
    the block reads [(count + extra) * draws_per_call + 1] numbers from
    the random source and adds [(count + extra) * emitted_per_call]
    electrons after those of the tube.  The remainder lies in [0, 1), so
    for a uniform [u] the extra call has the probability of the
    remainder; the number of calls in a frame is at most
    floor(0.03 I) + 1; and the mean of the number of calls over a uniform
    [u], the integral of floor(0.03 I) + [u < remainder] over [0, 1], is
    0.03 I, linear in the intensity. *)
Theorem spawning_rate_limited (w : world) (I : R)
  (HI : intensity w = Fin I) (Hpos : 0 < I) :
  let count := Z.to_nat (Int_part (I * 0.03)) in
  let remainder := I * 0.03 - IZR (Int_part (I * 0.03)) in
  let w1 := exec (times count spawnRandomElectron) w in
  let u := src (random w) (pos (random w) + count * draws_per_call w) in
  let w2 := set_random (mkRng (src (random w1)) (S (pos (random w1)))) w1 in
  let extra := if Rlt_dec u remainder then 1%nat else 0%nat in
  let w' := exec spawning w in
  w' = (if Rlt_dec u remainder then exec spawnRandomElectron w2 else w2) /\
  spawn_calls w1 = (spawn_calls w + count)%nat /\
  spawn_calls w' = (spawn_calls w + count + extra)%nat /\
  (spawn_calls w' <= spawn_calls w + count + 1)%nat /\
  src (random w') = src (random w) /\
  pos (random w')
  = (pos (random w) + (count + extra) * draws_per_call w + 1)%nat /\
  (exists es : list electron,
     electrons w' = electrons w ++ es /\
     List.length es = ((count + extra) * emitted_per_call w)%nat) /\
  0 <= remainder < 1 /\
  INR count + remainder = 0.03 * I /\
  INR (spawn_calls w' - spawn_calls w) = calls_of_draw count remainder u /\
  exists mean : StepFun 0 1,
    (forall x : R, mean x = calls_of_draw count remainder x) /\
    RiemannInt_SF mean = 0.03 * I.
Proof.
  intros count remainder w1 u w2 extra w'.
  pose proof (base_Int_part (I * 0.03)) as [Hlo Hhi].
  assert (Hc0 : (0 <= Int_part (I * 0.03))%Z).
  { apply le_IZR.
    assert (-1 < IZR (Int_part (I * 0.03))) by lra.
    assert (H1 : (-1 < Int_part (I * 0.03))%Z) by (apply lt_IZR; exact H).
    apply IZR_le. lia. }
  assert (Hcount : INR count = IZR (Int_part (I * 0.03))).
  { unfold count. rewrite INR_IZR_INZ, Z2Nat.id by exact Hc0. reflexivity. }
  destruct (times_spawn_shape count w) as (es1 & E1 & L1).
  fold w1 in E1.
  assert (Hu : src (random w1) (pos (random w1)) = u).
  { rewrite E1. reflexivity. }
  assert (Hw' : w' = (if Rlt_dec u remainder
                      then exec spawnRandomElectron w2 else w2)).
  { unfold w', exec, spawning. unfold bind at 1. unfold get at 1.
    rewrite HI. cbn [gt lt].
    destruct (Rlt_dec 0 I) as [_|N]; [|contradiction].
    cbn [mul Math_floor iterations sub neg add].
    rewrite ceil_IZR. fold count.
    change (fun _ : unit => ?k) with (fun _ : unit => k).
    match goal with |- snd (bind ?c ?k w) = _ =>
      change (snd (bind c k w)) with (exec (bind c k) w) end.
    rewrite exec_seq. fold w1.
    unfold exec at 1. unfold bind at 1. unfold Math_random at 1.
    cbn [rng_of with_rng world_randomness lt]. rewrite Hu. fold w2.
    replace (I * 0.03 + - IZR (Int_part (I * 0.03))) with remainder
      by (unfold remainder; lra).
    destruct (Rlt_dec u remainder); reflexivity. }
  assert (Hw2 : w2
    = mkWorld (lambda w) (intensity w) (voltage w) (workFunction w)
        (electrons w ++ es1) (ammeterCurrent w) (time w) (wavePhase w)
        (hitHistory w) (lastUIRefresh w) (current_display w)
        (canvas_width w)
        (mkRng (src (random w))
               (S (pos (random w) + count * draws_per_call w)))
        (spawn_calls w + count)).
  { unfold w2. rewrite E1. reflexivity. }
  assert (Hshape : exists es : list electron,
    w' = mkWorld (lambda w) (intensity w) (voltage w) (workFunction w)
        (electrons w ++ es) (ammeterCurrent w) (time w) (wavePhase w)
        (hitHistory w) (lastUIRefresh w) (current_display w)
        (canvas_width w)
        (mkRng (src (random w))
               (pos (random w) + (count + extra) * draws_per_call w + 1))
        (spawn_calls w + count + extra) /\
    List.length es = ((count + extra) * emitted_per_call w)%nat).
  { rewrite Hw'. unfold extra. destruct (Rlt_dec u remainder).
    - destruct (times_spawn_shape 1 w2) as (es2 & E2 & L2).
      cbn [times] in E2. rewrite exec_seq in E2.
      change (exec (ret tt)) with (fun x : world => x) in E2. cbv beta in E2.
      rewrite E2, Hw2.
      cbn [lambda intensity voltage workFunction electrons ammeterCurrent
           time wavePhase hitHistory lastUIRefresh current_display
           canvas_width random spawn_calls src pos].
      rewrite Hw2 in L2.
      exists (es1 ++ es2). split.
      + rewrite app_assoc.
        replace (draws_per_call (mkWorld _ _ _ _ _ _ _ _ _ _ _ _ _ _))
          with (draws_per_call w) by reflexivity.
        f_equal; try lia. f_equal. lia.
      + rewrite length_app, L1, L2.
        replace (emitted_per_call (mkWorld _ _ _ _ _ _ _ _ _ _ _ _ _ _))
          with (emitted_per_call w) by reflexivity.
        lia.
    - rewrite Hw2. exists es1. split.
      + f_equal; try lia. f_equal. lia.
      + rewrite L1. f_equal. lia. }
  destruct Hshape as (es & Es & Ls).
  assert (Hw1 : spawn_calls w1 = (spawn_calls w + count)%nat)
    by (rewrite E1; reflexivity).
  assert (Hsp : spawn_calls w' = (spawn_calls w + count + extra)%nat)
    by (rewrite Es; reflexivity).
  assert (Hex : (extra <= 1)%nat)
    by (unfold extra; destruct (Rlt_dec u remainder); lia).
  assert (Hrem : 0 <= remainder < 1) by (unfold remainder; lra).
  assert (Hsum : INR count + remainder = 0.03 * I)
    by (rewrite Hcount; unfold remainder; lra).
  split; [exact Hw'|]. split; [exact Hw1|]. split; [exact Hsp|].
  split; [lia|].
  split; [rewrite Es; reflexivity|]. split; [rewrite Es; reflexivity|].
  split; [exists es; split; [rewrite Es; reflexivity|exact Ls]|].
  split; [exact Hrem|]. split; [exact Hsum|].
  split.
  { rewrite Hsp. replace (spawn_calls w + count + extra - spawn_calls w)%nat
      with (count + extra)%nat by lia.
    rewrite plus_INR. unfold calls_of_draw, extra.
    destruct (Rlt_dec u remainder); reflexivity. }
  destruct (calls_of_draw_mean count Hrem) as (mean & Hm & Hint).
  exists mean. split; [exact Hm|]. rewrite Hint. exact Hsum.
Qed.

Lemma spawning_rate_limited_witness :
  intensity (bright_bench 0.25) = Fin 50 /\ 0 < 50 /\
  spawn_calls (exec spawning (bright_bench 0.25)) = 2%nat /\
  List.length (electrons (exec spawning (bright_bench 0.25))) = 2%nat /\
  pos (random (exec spawning (bright_bench 0.25))) = 7%nat.
Proof.
  assert (HI : intensity (bright_bench 0.25) = Fin 50) by reflexivity.
  assert (Hpos : 0 < 50) by lra.
  split; [exact HI|]. split; [exact Hpos|].
  assert (Hf : Int_part (50 * 0.03) = 1%Z).
  { symmetry. apply Int_part_spec. split; lra. }
  assert (Hk : draws_per_call (bright_bench 0.25) = 3%nat
               /\ emitted_per_call (bright_bench 0.25) = 1%nat).
  { unfold draws_per_call, emitted_per_call, bright_bench, HC, phi_sodium.
    cbn [lambda workFunction]. rewrite div_fin by lra. cbn [le].
    destruct (Rle_dec (1240 / 510) 2.36) as [N|_]; [exfalso; lra|].
    split; reflexivity. }
  destruct Hk as [Hk He].
  pose proof (@spawning_rate_limited (bright_bench 0.25) 50 HI Hpos) as T.
  cbv zeta in T. rewrite Hf, Hk, He in T.
  change (src (random (bright_bench 0.25)) _) with 0.25 in T.
  destruct (Rlt_dec 0.25 (50 * 0.03 - 1)) as [_|N]; [|exfalso; lra].
  destruct T as (_ & _ & Hc & _ & _ & Hp & (es & Ee & Le) & _).
  split; [exact Hc|]. split; [|exact Hp].
  rewrite Ee, length_app, Le. reflexivity.
Defined.

End Spawning.
(* ================================================================= *)
(** ** Runs and random draws *)

Section Related.
Import JSNum Effects.
Context {W : Type} `{RandomnessLaws W}.

Lemma same_draws_le (n m : nat) (g1 g2 : rng) :
  (m <= n)%nat -> same_draws n g1 g2 -> same_draws m g1 g2.
Proof. intros L Hs i Hi. apply Hs. lia. Qed.

Lemma agree_le (n m : nat) (w1 w2 : W) :
  (m <= n)%nat -> agree n w1 w2 -> agree m w1 w2.
Proof.
  intros L [E Hs]. split; [exact E|]. exact (same_draws_le L Hs).
Qed.

Lemma same_draws_next (n : nat) (g1 g2 : rng) :
  same_draws (S n) g1 g2 ->
  src g1 (pos g1) = src g2 (pos g2) /\
  same_draws n (mkRng (src g1) (S (pos g1))) (mkRng (src g2) (S (pos g2))).
Proof.
  intros Hs. split.
  - specialize (Hs O). rewrite !Nat.add_0_r in Hs. apply Hs. lia.
  - intros i Hi. cbn [src pos]. specialize (Hs (S i)).
    rewrite !Nat.add_succ_r in Hs. apply Hs. lia.
Qed.

Lemma agree_with_rng (n m : nat) (g1 g2 : rng) (w1 w2 : W) :
  agree n w1 w2 -> same_draws m g1 g2 ->
  agree m (with_rng g1 w1) (with_rng g2 w2).
Proof.
  intros [E _] Hs. unfold same_variables in E. split.
  - unfold same_variables.
    rewrite rng_with, with_with, <- E, with_with. reflexivity.
  - rewrite !rng_with. exact Hs.
Qed.

Lemma agree_modify (n : nat) (f : W -> W) (w1 w2 : W) :
  (forall (g : rng) (w : W), f (with_rng g w) = with_rng g (f w)) ->
  (forall w : W, rng_of (f w) = rng_of w) ->
  agree n w1 w2 -> agree n (f w1) (f w2).
Proof.
  intros Hc Hr [E Hs]. unfold same_variables in E. split.
  - unfold same_variables. rewrite Hr, <- Hc, E. reflexivity.
  - rewrite !Hr. exact Hs.
Qed.

(** A computation that reads at most [n] values reads at most [n']
    when [n <= n']. *)
Lemma related_le {A : Type} (n n' : nat) (R : A -> A -> Prop)
  (c1 c2 : Js W A) :
  (n <= n')%nat -> related n R c1 c2 -> related n' R c1 c2.
Proof.
  intros L Hc m w1 w2 Hw.
  destruct (Hc (n' - n + m)%nat w1 w2) as [Ha Hw'].
  { replace (n + (n' - n + m))%nat with (n' + m)%nat by lia. exact Hw. }
  split; [exact Ha|]. apply agree_le with (2 := Hw'). lia.
Qed.

Lemma related_ret {A : Type} (R : A -> A -> Prop) (a1 a2 : A) :
  R a1 a2 -> related 0 R (ret (W := W) a1) (ret a2).
Proof. intros Ha m w1 w2 Hw. split; assumption. Qed.

Lemma related_bind {A B : Type} (n k : nat)
  (R : A -> A -> Prop) (R' : B -> B -> Prop)
  (c1 c2 : Js W A) (k1 k2 : A -> Js W B) :
  related n R c1 c2 ->
  (forall a1 a2, R a1 a2 -> related k R' (k1 a1) (k2 a2)) ->
  related (n + k) R' (bind c1 k1) (bind c2 k2).
Proof.
  intros Hc Hk m w1 w2 Hw. unfold bind.
  rewrite <- Nat.add_assoc in Hw.
  destruct (Hc (k + m)%nat w1 w2 Hw) as [Ha Hw'].
  destruct (c1 w1) as [a1 w1'], (c2 w2) as [a2 w2']. cbn [fst snd] in *.
  apply Hk; assumption.
Qed.

Lemma related_get : related 0 same_variables (get (W := W)) get.
Proof. intros m w1 w2 Hw. split; [apply Hw|exact Hw]. Qed.

Lemma related_modify (f : W -> W) :
  (forall (g : rng) (w : W), f (with_rng g w) = with_rng g (f w)) ->
  (forall w : W, rng_of (f w) = rng_of w) ->
  related 0 eq (modify f) (modify f).
Proof.
  intros Hc Hr m w1 w2 Hw. split; [reflexivity|].
  cbn [modify snd]. apply agree_modify; assumption.
Qed.

(** [Math.random()] reads one value. *)
Lemma related_random : related 1 eq (Math_random (W := W)) Math_random.
Proof.
  intros m w1 w2 Hw. unfold Math_random. cbn [fst snd].
  destruct (same_draws_next (proj2 Hw)) as [E0 Hs'].
  split; [rewrite E0; reflexivity|].
  apply agree_with_rng with (n := (1 + m)%nat); assumption.
Qed.

Lemma related_times (b n : nat) (c : Js W unit) :
  related b eq c c -> related (n * b) eq (times n c) (times n c).
Proof.
  intros Hc. induction n as [|n IH]; cbn [times Nat.mul].
  - apply related_ret. reflexivity.
  - apply related_bind with (R := eq); [exact Hc|]. intros _ _ _. exact IH.
Qed.

Lemma related_forEach {A : Type} (f : A -> Js W A) (l : list A) :
  (forall a : A, related 0 eq (f a) (f a)) ->
  related 0 eq (forEach f l) (forEach f l).
Proof.
  intros Hf. induction l as [|a l IH]; cbn [forEach].
  - apply related_ret. reflexivity.
  - apply related_bind with (n := 0%nat) (k := 0%nat) (R := eq);
      [apply Hf|]. intros a1 ? <-.
    apply related_bind with (n := 0%nat) (k := 0%nat) (R := eq);
      [exact IH|]. intros l1 ? <-.
    apply related_ret. reflexivity.
Qed.

End Related.

(** A write that leaves the random source alone keeps two worlds in
    agreement. *)
Ltac writes :=
  apply related_modify;
  [ intros ? w; destruct w; reflexivity | intros w; destruct w; reflexivity ].

(** [then_ n k]: the computation is a [bind] whose first part reads at
    most [n] values and whose second part reads at most [k]. *)
Ltac then_ a b :=
  apply related_le with (n := (a + b)%nat); [lia|];
  apply related_bind with (n := a) (k := b) (R := eq).

Ltac draws u b :=
  then_ 1%nat b; [apply related_random|]; intros u ? <-.

Ltac done_ :=
  apply related_le with (n := 0%nat); [lia|]; apply related_ret; reflexivity.

Section PhotoDeterminism.
Import JSNum Effects Photoelectric.
Open Scope R_scope.

#[global] Instance photo_randomness_laws : @RandomnessLaws world _.
Proof. split; intros; reflexivity. Qed.

Lemma same_variables_fields (w1 w2 : world) :
  same_variables w1 w2 ->
  lambda w1 = lambda w2 /\ intensity w1 = intensity w2 /\
  voltage w1 = voltage w2 /\ workFunction w1 = workFunction w2 /\
  electrons w1 = electrons w2 /\ ammeterCurrent w1 = ammeterCurrent w2 /\
  time w1 = time w2 /\ wavePhase w1 = wavePhase w2 /\
  hitHistory w1 = hitHistory w2 /\ lastUIRefresh w1 = lastUIRefresh w2 /\
  current_display w1 = current_display w2 /\
  canvas_width w1 = canvas_width w2 /\ spawn_calls w1 = spawn_calls w2.
Proof.
  intros E. unfold same_variables in E. rewrite <- E. repeat split.
Qed.

(** Reads the world and rewrites the fields of the second world into
    those of the first. *)
Ltac read_world b w1 w2 Hw :=
  apply related_le with (n := (0 + b)%nat); [lia|];
  apply related_bind with (n := 0%nat) (k := b) (R := same_variables);
  [apply related_get|];
  intros w1 w2 Hw;
  let F := fresh "F" in
  pose proof (same_variables_fields Hw) as F;
  repeat match type of F with
  | _ /\ _ => let E := fresh "E" in destruct F as [E F]; rewrite <- ?E; clear E
  end;
  rewrite <- ?F; clear F.

(** [spawnElectron] reads at most two values. *)
Lemma spawnElectron_related (x y a : num) :
  related 2 eq (spawnElectron x y a) (spawnElectron x y a).
Proof.
  unfold spawnElectron. read_world 2%nat w1 w2 Hw.
  destruct (le _ _); [done_|].
  draws u1 1%nat. draws u2 0%nat. writes.
Qed.

Lemma spawnRandomElectron_related :
  related 3 eq spawnRandomElectron spawnRandomElectron.
Proof.
  unfold spawnRandomElectron.
  then_ 0%nat 3%nat; [writes|]. intros _ _ _.
  draws u 2%nat. apply spawnElectron_related.
Qed.

Lemma updateElectron_related (ff top bot ts : num) (e : electron) :
  related 0 eq (updateElectron ff top bot ts e) (updateElectron ff top bot ts e).
Proof.
  unfold updateElectron. read_world 0%nat w1 w2 Hw. cbv zeta.
  then_ 0%nat 0%nat.
  - match goal with |- context [if ?c then _ else _] => destruct c end.
    + unfold recordHit. writes.
    + apply related_ret. reflexivity.
  - intros _ _ _. apply related_ret. reflexivity.
Qed.

Lemma updateElectrons_related (ts : num) :
  related 0 eq (updateElectrons ts) (updateElectrons ts).
Proof.
  unfold updateElectrons. read_world 0%nat w1 w2 Hw. cbv zeta.
  then_ 0%nat 0%nat.
  - apply related_forEach. intros e. apply updateElectron_related.
  - intros es ? <-. writes.
Qed.

Lemma calculateRealCurrent_related (ts : num) :
  related 0 eq (calculateRealCurrent ts) (calculateRealCurrent ts).
Proof.
  unfold calculateRealCurrent. cbv zeta.
  then_ 0%nat 0%nat; [writes|]. intros _ _ _.
  read_world 0%nat w1 w2 Hw.
  then_ 0%nat 0%nat; [writes|]. intros _ _ _.
  read_world 0%nat w3 w4 Hw'.
  destruct (_ || _)%bool; [writes|apply related_ret; reflexivity].
Qed.

End PhotoDeterminism.

Section TubeDeterminism.
Import JSNum Effects FranckHertz.
Open Scope R_scope.

#[global] Instance tube_randomness_laws : @RandomnessLaws world _.
Proof. split; intros; reflexivity. Qed.

Lemma tubes_same_variables (w1 w2 : world) :
  same_variables w1 w2 ->
  vAcc w1 = vAcc w2 /\ vRet w1 = vRet w2 /\
  temperature w1 = temperature w2 /\ collisions w1 = collisions w2 /\
  tube_width w1 = tube_width w2.
Proof.
  intros E. unfold same_variables in E. rewrite <- E. repeat split.
Qed.

(** [Electron.update] reads at most one value: it returns the same
    electron and leaves tubes that agree, when it is run in tubes that
    agree on the next value. *)
Lemma update_related (e : Electron) : related 1 eq (update e) (update e).
Proof.
  unfold update.
  destruct (active e); cbn [negb]; [|done_].
  apply related_le with (n := (0 + 1)%nat); [lia|].
  apply related_bind with (n := 0%nat) (k := 1%nat) (R := same_variables);
    [apply related_get|].
  intros w1 w2 Hw.
  destruct (tubes_same_variables Hw) as (<- & <- & <- & _ & <-). cbv zeta.
  destruct (lt (x e) _).
  - destruct (_ && _)%bool; [|done_].
    draws u 0%nat.
    destruct (lt u _); [|done_].
    then_ 0%nat 0%nat; [writes|]. intros _ _ _.
    apply related_ret. reflexivity.
  - destruct (lt (x e) _).
    + destruct (le _ _); done_.
    + done_.
Qed.

End TubeDeterminism.

(* ================================================================= *)
(** ** Photoelectric effect: what a run depends on *)

Section DeterminismClaim.
Import JSNum Effects Photoelectric.
Open Scope R_scope.

Lemma updateElectrons_world (ts : num) (w : world) :
  exists (hits : list num) (es' : list electron),
    exec (updateElectrons ts) w
    = set_electrons (filter (fun e => negb (dead e)) es')
        (set_hitHistory (hitHistory w ++ hits) w) /\
    List.length es' = List.length (electrons w).
Proof.
  unfold exec, updateElectrons. unfold bind at 1. unfold get at 1.
  cbv zeta. unfold bind at 1.
  destruct (forEach_updateElectron (mul (voltage w) (Fin 0.05))
              (sub tubeCenter_y (Fin 120)) (add tubeCenter_y (Fin 120))
              ts (electrons w) w) as (hits & es' & E & L).
  rewrite E. exists hits, es'. split; [reflexivity|exact L].
Qed.

(** Above the threshold [spawnElectron] adds one electron. *)
Lemma spawnElectron_above (x y a : num) (w : world) :
  le (div HC (lambda w)) (workFunction w) = false ->
  List.length (electrons (exec (spawnElectron x y a) w))
  = S (List.length (electrons w)).
Proof.
  intros H. unfold exec, spawnElectron. unfold bind at 1. unfold get at 1.
  rewrite H. cbv zeta. unfold bind, modify, Math_random.
  cbn [rng_of with_rng world_randomness snd].
  unfold set_electrons, set_random. cbn [electrons].
  rewrite length_app. cbn [List.length]. lia.
Qed.

Lemma spawnRandomElectron_above (w : world) :
  le (div HC (lambda w)) (workFunction w) = false ->
  List.length (electrons (exec spawnRandomElectron w))
  = S (List.length (electrons w)).
Proof.
  intros H. unfold spawnRandomElectron. rewrite exec_seq.
  unfold exec at 1. unfold bind, Math_random.
  cbn [rng_of with_rng world_randomness]. cbv zeta.
  match goal with |- context [snd (spawnElectron ?x ?y ?a ?w0)] =>
    change (snd (spawnElectron x y a w0)) with (exec (spawnElectron x y a) w0)
  end.
  rewrite spawnElectron_above; [reflexivity|]. exact H.
Qed.

(** The spawning block when the spawn rate is below one per frame. *)
Lemma spawning_fraction (w : world) (I : R) :
  intensity w = Fin I -> 0 < I -> I * 0.03 < 1 ->
  exec spawning w =
  let u := src (random w) (pos (random w)) in
  let w' := set_random (mkRng (src (random w)) (S (pos (random w)))) w in
  if Rlt_dec u (I * 0.03) then exec spawnRandomElectron w' else w'.
Proof.
  intros HI Hpos Hlt.
  assert (Hfloor : Int_part (I * 0.03) = 0%Z).
  { symmetry. apply Int_part_spec. split; lra. }
  unfold exec, spawning. unfold bind at 1. unfold get at 1.
  rewrite HI. cbn [gt lt].
  destruct (Rlt_dec 0 I) as [_|N]; [|contradiction].
  cbn [mul Math_floor iterations sub neg add].
  rewrite ceil_IZR, Hfloor. cbn [Z.to_nat times].
  unfold bind at 1. cbn [ret].
  unfold bind at 1. unfold Math_random at 1.
  cbn [rng_of with_rng world_randomness lt]. cbv zeta.
  replace (I * 0.03 + - 0) with (I * 0.03) by lra.
  destruct (Rlt_dec _ _); reflexivity.
Qed.

Lemma related_exec {A : Type} (n m : nat) (c : Js world A) (w1 w2 : world) :
  related n eq c c -> agree (n + m) w1 w2 ->
  agree m (exec c w1) (exec c w2).
Proof. intros Hc Hw. apply (Hc m w1 w2 Hw). Qed.

(** The spawning block of a frame at intensity [I] reads at most
    [draws_per_frame I] values. *)
Lemma spawning_related (I : R) (m : nat) (w1 w2 : world) :
  intensity w1 = Fin I -> agree (draws_per_frame I + m) w1 w2 ->
  agree m (exec spawning w1) (exec spawning w2).
Proof.
  intros HI Hw.
  pose proof (same_variables_fields (proj1 Hw)) as (_ & Ei & _).
  unfold spawning. rewrite !exec_bind.
  change (exec get w1) with w1. change (eval get w1) with w1.
  change (exec get w2) with w2. change (eval get w2) with w2. cbv beta.
  rewrite <- Ei, HI. cbn [gt lt].
  destruct (Rlt_dec 0 I) as [_|_]; [|apply agree_le with (2 := Hw); lia].
  cbn [mul Math_floor iterations sub neg add]. rewrite ceil_IZR.
  set (count := Z.to_nat (Int_part (I * 0.03))).
  assert (Hr : related (draws_per_frame I) eq
    (times count spawnRandomElectron ;;;
     u <- Math_random ;;
     if lt u (Fin (I * 0.03 + - IZR (Int_part (I * 0.03))))
     then spawnRandomElectron else ret tt)
    (times count spawnRandomElectron ;;;
     u <- Math_random ;;
     if lt u (Fin (I * 0.03 + - IZR (Int_part (I * 0.03))))
     then spawnRandomElectron else ret tt)).
  { unfold draws_per_frame. fold count.
    then_ (count * 3)%nat 4%nat.
    - apply related_times. apply spawnRandomElectron_related.
    - intros _ _ _. draws u 3%nat.
      destruct (lt _ _); [apply spawnRandomElectron_related|done_]. }
  apply (Hr m w1 w2 Hw).
Qed.

(** No function of the page writes the intensity. *)
Lemma spawning_intensity (w : world) :
  intensity (exec spawning w) = intensity w.
Proof.
  unfold exec, spawning. unfold bind at 1. unfold get at 1.
  destruct (gt _ _); [|reflexivity]. cbv zeta.
  set (n := iterations _).
  match goal with |- intensity (snd (bind ?c ?k w)) = _ =>
    change (snd (bind c k w)) with (exec (bind c k) w) end.
  rewrite exec_seq.
  destruct (times_spawn_shape n w) as (es & E & _).
  set (w1 := exec (times n spawnRandomElectron) w) in *.
  assert (H1 : intensity w1 = intensity w) by (rewrite E; reflexivity).
  unfold exec at 1. unfold bind at 1. unfold Math_random at 1.
  cbn [rng_of with_rng world_randomness].
  destruct (lt _ _); [|cbn [ret snd]; exact H1].
  match goal with |- intensity (snd (spawnRandomElectron ?w0)) = _ =>
    destruct (times_spawn_shape 1 w0) as (es2 & E2 & _);
    cbn [times] in E2; rewrite exec_seq in E2;
    change (exec (ret tt)) with (fun x : world => x) in E2; cbv beta in E2;
    change (snd (spawnRandomElectron w0)) with (exec spawnRandomElectron w0)
  end.
  rewrite E2. cbn [intensity set_random]. exact H1.
Qed.

Lemma updateElectrons_intensity (ts : num) (w : world) :
  intensity (exec (updateElectrons ts) w) = intensity w.
Proof.
  destruct (updateElectrons_world ts w) as (hits & es' & E & _).
  rewrite E. reflexivity.
Qed.

Lemma calculateRealCurrent_intensity (ts : num) (w : world) :
  intensity (exec (calculateRealCurrent ts) w) = intensity w.
Proof.
  rewrite calculateRealCurrent_world. cbv zeta.
  destruct (_ || _)%bool; reflexivity.
Qed.

Lemma loop_intensity (ts : num) (w : world) :
  intensity (exec (loop ts) w) = intensity w.
Proof.
  unfold loop. rewrite !exec_seq.
  change (exec (ret tt)) with (fun w : world => w). cbv beta.
  rewrite calculateRealCurrent_intensity, spawning_intensity,
    updateElectrons_intensity. reflexivity.
Qed.

Lemma loop_related (ts : num) (I : R) (m : nat) (w1 w2 : world) :
  intensity w1 = Fin I -> agree (draws_per_frame I + m) w1 w2 ->
  agree m (exec (loop ts) w1) (exec (loop ts) w2).
Proof.
  intros HI Hw. unfold loop. rewrite !exec_seq.
  change (exec (ret tt)) with (fun w : world => w). cbv beta.
  apply related_exec with (n := 0%nat);
    [apply calculateRealCurrent_related|]. cbn [Nat.add].
  apply spawning_related with (I := I).
  { rewrite updateElectrons_intensity. exact HI. }
  apply related_exec with (n := 0%nat);
    [apply updateElectrons_related|]. cbn [Nat.add].
  apply related_exec with (n := 0%nat); [writes|exact Hw].
Qed.

(** A run of frames reads at most [draws_per_frame I] values per
    frame. *)
Lemma frames_related (tss : list num) (I : R) (m : nat) (w1 w2 : world) :
  intensity w1 = Fin I ->
  agree (List.length tss * draws_per_frame I + m) w1 w2 ->
  agree m (exec (frames tss) w1) (exec (frames tss) w2).
Proof.
  revert w1 w2. induction tss as [|ts tss IH]; intros w1 w2 HI Hw.
  - exact Hw.
  - cbn [frames]. rewrite !exec_seq. apply IH.
    + rewrite loop_intensity. exact HI.
    + apply loop_related with (I := I); [exact HI|].
      cbn [List.length Nat.mul] in Hw.
      rewrite <- Nat.add_assoc in Hw. exact Hw.
Qed.

Lemma bench_frame (u : R) :
  List.length (electrons (exec (frames [Fin 16]) (bench u)))
  = if Rlt_dec u 0.3 then 1%nat else 0%nat.
Proof.
  cbn [frames]. rewrite exec_seq. change (exec (ret tt)) with (fun w : world => w).
  cbv beta. unfold loop. rewrite !exec_seq.
  change (exec (ret tt)) with (fun w : world => w). cbv beta.
  rewrite calculateRealCurrent_world. cbv zeta.
  set (w0 := exec (modify _) (bench u)).
  destruct (updateElectrons_world (Fin 16) w0) as (hits & es' & E & L).
  destruct es'; [|discriminate L].
  rewrite E. cbn [filter].
  set (w1 := set_electrons [] _).
  assert (Es : exec spawning w1 =
    let w' := set_random (mkRng (fun _ => u) 1) w1 in
    if Rlt_dec u (10 * 0.03) then exec spawnRandomElectron w' else w').
  { apply (spawning_fraction w1 (I := 10)); [reflexivity|lra|lra]. }
  cbv zeta in Es.
  assert (Hlen : List.length (electrons (exec spawning w1))
                 = if Rlt_dec u 0.3 then 1%nat else 0%nat).
  { rewrite Es.
    destruct (Rlt_dec u (10 * 0.03)), (Rlt_dec u 0.3); try (exfalso; lra).
    - rewrite spawnRandomElectron_above; [reflexivity|].
      cbn [lambda workFunction set_random w1 set_electrons set_hitHistory
           w0 exec modify snd set_clock bench].
      unfold HC, phi_sodium. rewrite div_fin by lra. cbn [le].
      destruct (Rle_dec (1240 / 510) 2.36) as [Hle|_]; [exfalso; lra|].
      reflexivity.
    - reflexivity. }
  destruct (_ || _)%bool; exact Hlen.
Qed.



(** The timestamps are an input of a run: the same frame, from the same
    world and with the same random source, keeps the recorded hit when
    it comes at 200 ms and drops it when it comes at 700 ms. *)
Lemma runs_depend_on_timestamps :
  hitHistory (exec (frames [Fin 200]) after_a_hit) = [Fin 100] /\
  hitHistory (exec (frames [Fin 700]) after_a_hit) = [].
Proof.
  assert (H : forall ts : R,
    hitHistory (exec (frames [Fin ts]) after_a_hit)
    = if Rlt_dec (ts + - (100)) 500 then [Fin 100] else []).
  { intros ts. cbn [frames]. rewrite exec_seq.
    change (exec (ret tt)) with (fun w : world => w). cbv beta.
    unfold loop. rewrite !exec_seq.
    change (exec (ret tt)) with (fun w : world => w). cbv beta.
    rewrite calculateRealCurrent_world. cbv zeta.
    set (w0 := exec (modify _) after_a_hit).
    destruct (updateElectrons_world (Fin ts) w0) as (hits & es' & E & L).
    destruct es'; [|discriminate L].
    assert (Hh : hits = []).
    { pose proof (f_equal hitHistory E) as Eh.
      unfold exec, updateElectrons in Eh. unfold bind at 1 in Eh.
      unfold get at 1 in Eh. cbv zeta in Eh.
      change (electrons w0) with (@nil electron) in Eh.
      cbn [forEach] in Eh. unfold bind, ret, modify in Eh.
      cbn [snd hitHistory set_electrons set_hitHistory filter] in Eh.
      change (hitHistory w0) with [Fin 100] in Eh.
      destruct hits; [reflexivity|discriminate Eh]. }
    rewrite E, Hh. cbn [filter].
    set (w1 := set_electrons [] _).
    assert (Es : exec spawning w1 = w1).
    { unfold exec, spawning. unfold bind at 1. unfold get at 1.
      change (intensity w1) with (Fin 0). cbn [gt lt].
      destruct (Rlt_dec 0 0) as [N|_]; [exfalso; lra|reflexivity]. }
    rewrite Es.
    change (hitHistory w1) with [Fin 100]. cbn [filter sub add neg lt].
    destruct (Rlt_dec (ts + - (100)) 500);
      destruct (_ || _)%bool; reflexivity. }
  rewrite !H.
  destruct (Rlt_dec (200 + - (100)) 500) as [_|N]; [|exfalso; lra].
  destruct (Rlt_dec (700 + - (100)) 500) as [N|_]; [exfalso; lra|].
  split; reflexivity.
Qed.



End DeterminismClaim.
(* ================================================================= *)
(** ** Particles and values that are not finite *)

Section NonFinite.
Import JSNum Effects.
Open Scope R_scope.

Lemma forEach_In {W A : Type} (P Q : A -> Prop) (f : A -> Js W A) :
  (forall a w, P a -> Q (fst (f a w))) ->
  forall (l : list A) (w : W) (a : A), In a l -> P a ->
  exists a' : A, In a' (fst (forEach f l w)) /\ Q a'.
Proof.
  intros Hf. induction l as [|b l IH]; intros w a Ha Pa; [contradiction|].
  cbn [forEach]. unfold bind.
  pose proof (Hf b w) as Hb.
  destruct (f b w) as [b' w1]. cbn [fst] in Hb.
  pose proof (IH w1 a) as IH1.
  destruct (forEach f l w1) as [l' w2]. cbn [fst ret] in *.
  destruct Ha as [<-|Ha].
  - exists b'. split; [left; reflexivity|apply Hb; exact Pa].
  - destruct (IH1 Ha Pa) as (a' & Ia & Qa). exists a'.
    split; [right; exact Ia|exact Qa].
Qed.

Lemma div_NaN_l (a : num) : div NaN a = NaN.
Proof. reflexivity. Qed.

Lemma forEach_all {W A : Type} (Q : A -> Prop) (f : A -> Js W A) :
  (forall a w, Q (fst (f a w))) ->
  forall (l : list A) (w : W), Forall Q (fst (forEach f l w)).
Proof.
  intros Hf. induction l as [|a l IH]; intros w.
  - constructor.
  - cbn [forEach]. unfold bind.
    pose proof (Hf a w) as Ha.
    destruct (f a w) as [a' w1]. cbn [fst] in Ha.
    pose proof (IH w1) as Hl.
    destruct (forEach f l w1) as [l' w2]. cbn [fst ret] in *.
    constructor; assumption.
Qed.

(** Under a voltage that is NaN the vertical velocity and position of
    every drop are NaN after [update]. *)
Lemma oildrop_update_nan_voltage (d : Millikan.OilDrop) (dt : num)
  (w : Millikan.world) :
  Millikan.voltage w = NaN ->
  let d' := eval (Millikan.update d dt) w in
  Millikan.vy d' = NaN /\ Millikan.y d' = NaN.
Proof.
  intros HV d'.
  assert (Evy : Millikan.vy d' = NaN).
  { unfold d', eval, Millikan.update, bind, get, ret, Math_random.
    cbn [fst Millikan.vy]. rewrite HV. rewrite div_NaN_l.
    unfold sub. rewrite mul_NaN_r, add_NaN_r, div_NaN_l, add_NaN_l.
    reflexivity. }
  split; [exact Evy|].
  assert (Hy : Millikan.y d' = add (Millikan.y d) (mul (Millikan.vy d') dt))
    by reflexivity.
  rewrite Hy, Evy, mul_NaN_l, add_NaN_r. reflexivity.
Qed.

(** Under a voltage that is NaN every photoelectron is at NaN after
    [updateElectrons]. *)
Lemma updateElectrons_nan_voltage (ts : num) (w : Photoelectric.world) :
  Photoelectric.voltage w = NaN ->
  Forall (fun e => Photoelectric.x e = NaN /\ Photoelectric.vx e = NaN)
         (Photoelectric.electrons (exec (Photoelectric.updateElectrons ts) w)).
Proof.
  intros HV.
  unfold exec, Photoelectric.updateElectrons. unfold bind at 1.
  unfold get at 1. cbv beta iota zeta. rewrite HV, mul_NaN_l.
  unfold bind at 1.
  set (f := Photoelectric.updateElectron NaN _ _ ts).
  pose proof (@forEach_all _ _
    (fun e => Photoelectric.x e = NaN /\ Photoelectric.vx e = NaN) f) as H.
  assert (Hf : forall a w0,
    Photoelectric.x (fst (f a w0)) = NaN /\
    Photoelectric.vx (fst (f a w0)) = NaN).
  { intros a w0. unfold f, Photoelectric.updateElectron, bind, get, ret.
    unfold sub. cbn [neg]. rewrite !add_NaN_r.
    match goal with |- context [if ?c then Photoelectric.recordHit ts else _] =>
      destruct c end; split; reflexivity. }
  specialize (H Hf (Photoelectric.electrons w) w).
  destruct (forEach f (Photoelectric.electrons w) w) as [es' w1].
  cbn [fst] in H. unfold modify.
  cbn [snd Photoelectric.electrons Photoelectric.set_electrons].
  apply Forall_forall. intros a Ha. apply filter_In in Ha.
  rewrite Forall_forall in H. apply H. apply Ha.
Qed.

(** An oil drop at NaN stays at NaN, and is not off screen. *)
Lemma oildrop_update_keeps_nan (d : Millikan.OilDrop) (dt : num)
  (w : Millikan.world) :
  Millikan.x d = NaN -> Millikan.y d = NaN ->
  let d' := eval (Millikan.update d dt) w in
  Millikan.x d' = NaN /\ Millikan.y d' = NaN /\
  forall w' : Millikan.world, Millikan.isOffScreen w' d' = false.
Proof.
  intros Hx Hy d'.
  assert (Ex : Millikan.x d' = NaN).
  { unfold d', eval, Millikan.update, bind, get, ret, Math_random.
    cbn [fst Millikan.x]. rewrite Hx. apply add_NaN_l. }
  assert (Ey : Millikan.y d' = NaN).
  { unfold d', eval, Millikan.update, bind, get, ret, Math_random.
    cbn [fst Millikan.y]. rewrite Hy. apply add_NaN_l. }
  split; [exact Ex|]. split; [exact Ey|].
  intros w'. unfold Millikan.isOffScreen. cbv zeta. rewrite Ex, Ey.
  rewrite !mul_NaN_l. unfold gt. cbn [lt].
  destruct (add (Millikan.width w') (Fin 50)),
           (add (Millikan.height w') (Fin 50)); reflexivity.
Qed.

Lemma lt_NaN_l (a : num) : lt NaN a = false.
Proof. reflexivity. Qed.

Lemma lt_NaN_r (a : num) : lt a NaN = false.
Proof. destruct a; reflexivity. Qed.

Lemma le_NaN_l (a : num) : le NaN a = false.
Proof. reflexivity. Qed.

Lemma le_NaN_r (a : num) : le a NaN = false.
Proof. destruct a; reflexivity. Qed.

(** A live photoelectron whose [x] is NaN stays live, with [x] at NaN,
    unless it leaves the tube through the top or the bottom. *)
Lemma pe_update_keeps_nan (ff top bot ts : num)
  (e : Photoelectric.electron) (w : Photoelectric.world) :
  Photoelectric.x e = NaN /\ Photoelectric.dead e = false /\
  (lt (add (Photoelectric.y e) (Photoelectric.vy e)) top
   || gt (add (Photoelectric.y e) (Photoelectric.vy e)) bot)%bool = false ->
  let e' := fst (Photoelectric.updateElectron ff top bot ts e w) in
  Photoelectric.x e' = NaN /\ Photoelectric.dead e' = false.
Proof.
  intros (Hx & Hd & Hy). cbv zeta.
  unfold Photoelectric.updateElectron, bind, get, ret.
  rewrite Hx, Hd, Hy. rewrite !add_NaN_l.
  unfold ge, gt. rewrite !lt_NaN_l, !lt_NaN_r, !le_NaN_l, !le_NaN_r.
  cbn [andb orb negb]. rewrite ?andb_false_r.
  cbn [fst snd Photoelectric.x Photoelectric.dead].
  split; reflexivity.
Qed.

Lemma updateElectrons_keep_nan (ts : num) (w : Photoelectric.world)
  (e : Photoelectric.electron) :
  In e (Photoelectric.electrons w) ->
  Photoelectric.x e = NaN -> Photoelectric.dead e = false ->
  (lt (add (Photoelectric.y e) (Photoelectric.vy e))
      (sub Photoelectric.tubeCenter_y (Fin 120))
   || gt (add (Photoelectric.y e) (Photoelectric.vy e))
         (add Photoelectric.tubeCenter_y (Fin 120)))%bool = false ->
  exists e' : Photoelectric.electron,
    In e' (Photoelectric.electrons
             (exec (Photoelectric.updateElectrons ts) w)) /\
    Photoelectric.x e' = NaN /\ Photoelectric.dead e' = false.
Proof.
  intros Hin Hx Hd Hy.
  unfold exec, Photoelectric.updateElectrons. unfold bind at 1.
  unfold get at 1. cbv beta iota zeta. unfold bind at 1.
  set (top := sub Photoelectric.tubeCenter_y (Fin 120)) in *.
  set (bot := add Photoelectric.tubeCenter_y (Fin 120)) in *.
  set (f := Photoelectric.updateElectron _ top bot ts).
  destruct (@forEach_In _ _
              (fun a => Photoelectric.x a = NaN /\
                        Photoelectric.dead a = false /\
                        (lt (add (Photoelectric.y a) (Photoelectric.vy a)) top
                         || gt (add (Photoelectric.y a) (Photoelectric.vy a))
                               bot)%bool = false)
              (fun a => Photoelectric.x a = NaN /\
                        Photoelectric.dead a = false)
              f (fun a w0 Ha => pe_update_keeps_nan _ top bot ts a w0 Ha)
              (Photoelectric.electrons w) w e Hin
              (conj Hx (conj Hd Hy))) as (e' & Ie & Qe).
  destruct (forEach f (Photoelectric.electrons w) w) as [es' w1].
  cbn [fst] in Ie. unfold modify.
  cbn [snd Photoelectric.electrons Photoelectric.set_electrons].
  exists e'. split; [|exact Qe].
  apply filter_In. split; [exact Ie|].
  destruct Qe as (_ & ->). reflexivity.
Qed.

(** An active electron before the grid of the Franck-Hertz tube. *)
Lemma fh_update_stays_active (e : FranckHertz.Electron)
  (w : FranckHertz.world) :
  FranckHertz.active e = true ->
  lt (FranckHertz.x e) (sub (FranckHertz.tube_width w) (Fin 60)) = true ->
  let e' := eval (FranckHertz.update e) w in
  FranckHertz.active e' = true /\
  (FranckHertz.energy e = NaN \/ FranckHertz.vAcc w = NaN ->
   FranckHertz.energy e' = NaN /\ FranckHertz.vx e' = NaN) /\
  (forall en' : R, FranckHertz.energy e' = Fin en' -> en' < 0 ->
   FranckHertz.vx e' = NaN).
Proof.
  intros Ha Hx e'.
  assert (He' : e' = eval (FranckHertz.update e) w) by reflexivity.
  clearbody e'. unfold eval, FranckHertz.update in He'.
  rewrite Ha in He'. cbn [negb] in He'.
  unfold bind at 1 in He'. unfold get at 1 in He'.
  cbv beta iota zeta in He'. rewrite Hx in He'.
  set (en1 := add (FranckHertz.energy e) _) in He'.
  assert (Hnan : FranckHertz.energy e = NaN \/ FranckHertz.vAcc w = NaN ->
                 en1 = NaN).
  { unfold en1. intros [En|En]; rewrite En.
    - apply add_NaN_l.
    - rewrite div_NaN_l, mul_NaN_l. apply add_NaN_r. }
  assert (Hplain :
    let e1 := FranckHertz.mkElectron
                (add (FranckHertz.x e) (FranckHertz.vx e)) (FranckHertz.y e)
                (add (Fin 1) (mul (Math_sqrt en1) (Fin 0.5))) en1 true in
    FranckHertz.active e1 = true /\
    (FranckHertz.energy e = NaN \/ FranckHertz.vAcc w = NaN ->
     FranckHertz.energy e1 = NaN /\ FranckHertz.vx e1 = NaN) /\
    (forall en' : R, FranckHertz.energy e1 = Fin en' -> en' < 0 ->
     FranckHertz.vx e1 = NaN)).
  { cbv zeta. cbn [FranckHertz.active FranckHertz.energy FranckHertz.vx].
    split; [reflexivity|]. split.
    - intros En. rewrite (Hnan En). split; reflexivity.
    - intros en' E1 Hn. rewrite E1. cbn [Math_sqrt].
      destruct (Rlt_dec en' 0) as [_|N]; [reflexivity|contradiction]. }
  destruct (ge en1 FranckHertz.EXCITATION_ENERGY) eqn:Hge; cbn [andb] in He';
    [|cbn [ret fst] in He'; subst e'; exact Hplain].
  match type of He' with context [if gt ?a ?b then _ else _] =>
    destruct (gt a b) end;
    [|cbn [ret fst] in He'; subst e'; exact Hplain].
  unfold bind at 1 in He'. unfold Math_random at 1 in He'.
  cbn [rng_of with_rng FranckHertz.world_randomness] in He'.
  match type of He' with context [if lt ?a ?b then _ else _] =>
    destruct (lt a b) end;
    [|cbn [ret fst] in He'; subst e'; exact Hplain].
  unfold bind, modify, ret in He'. cbn [fst] in He'. subst e'.
  cbn [FranckHertz.active FranckHertz.energy FranckHertz.vx].
  split; [reflexivity|]. split.
  - intros En. exfalso. rewrite (Hnan En) in Hge. discriminate Hge.
  - intros en' E' Hn. exfalso.
    unfold ge, FranckHertz.EXCITATION_ENERGY in *.
    destruct en1 as [r| | |]; cbn [le sub add neg] in *; try discriminate.
    destruct (Rle_dec 4.9 r) as [H|H]; [|discriminate].
    injection E' as E'. lra.
Qed.




End NonFinite.

(* ================================================================= *)
(** ** Franck-Hertz tube: the current *)

Section FranckHertzCurrent.
Import JSNum Effects FranckHertz.
Open Scope R_scope.

Lemma dips_fin (n k : nat) (v m : R) :
  dips n k (Fin v) (Fin m) = Fin (dipsR n k v m).
Proof.
  revert k m. induction n as [|n IH]; intros k m; [reflexivity|].
  cbn [dips dipsR]. cbv zeta.
  unfold of_nat, EXCITATION_ENERGY, CONTACT_POTENTIAL.
  cbn [mul add sub neg lt].
  rewrite div_fin by lra. cbn [Math_exp add].
  destruct (Rlt_dec v (INR k * 4.9 + 2.0 + - (3))) as [H|H],
           (Rlt_dec v (dropPos k - 3)) as [H'|H'];
    try reflexivity; try (exfalso; unfold dropPos in H'; lra).
  rewrite IH. reflexivity.
Qed.

Lemma getTemperatureFactor_180 :
  getTemperatureFactor (Fin 180) = (Fin 1, Fin 0.8).
Proof.
  unfold getTemperatureFactor. cbn [lt ge le].
  destruct (Rlt_dec 180 140) as [N|_]; [exfalso; lra|].
  destruct (Rle_dec 140 180) as [_|N]; [|exfalso; lra].
  destruct (Rle_dec 180 200) as [_|N]; [|exfalso; lra].
  cbn [andb sub add neg Math_abs mul]. rewrite div_fin by lra.
  cbn [Math_exp]. f_equal. f_equal.
  replace (180 + - (180)) with 0 by lra. rewrite Rabs_R0.
  replace (- (0 * 0) / (20 * 20)) with 0 by (unfold Rdiv; lra).
  apply exp_0.
Qed.

Lemma calculateCurrent_180 (w : world) (v : R) :
  temperature w = Fin 180 -> 0 < v ->
  calculateCurrent w (Fin v) = Fin (currentR v).
Proof.
  intros Ht Hv. unfold calculateCurrent. cbn [lt].
  destruct (Rlt_dec v 0) as [N|_]; [exfalso; lra|].
  rewrite Ht, getTemperatureFactor_180. cbv zeta.
  rewrite dips_fin. unfold Math_pow.
  destruct (Req_dec_T 1.5 0) as [N|_]; [exfalso; lra|].
  destruct (Req_dec_T v 0) as [N|_]; [exfalso; lra|].
  destruct (Rlt_dec 0 v) as [_|N]; [|contradiction].
  cbn [mul sub add neg]. unfold Math_max. cbn [lt].
  unfold currentR.
  replace (1 + - (0.8 * 1 * dipsR 14 1 v 0))
    with (1 - 0.8 * dipsR 14 1 v 0) by lra.
  destruct (Rlt_dec 0.1 (1 - 0.8 * dipsR 14 1 v 0)) as [H|H]; cbn [mul].
  - rewrite Rmax_right by lra. reflexivity.
  - rewrite Rmax_left by lra. reflexivity.
Qed.


(** *** Bounds on the exponential and on the power *)

Lemma exp_le (x y : R) : x <= y -> exp x <= exp y.
Proof.
  intros [H|H]; [left; apply exp_increasing; exact H|right; congruence].
Qed.

Lemma exp_times (n : nat) (y : R) : exp (INR n * y) = exp y ^ n.
Proof.
  induction n as [|n IH].
  - cbn. rewrite Rmult_0_l. apply exp_0.
  - rewrite S_INR, Rmult_plus_distr_r, Rmult_1_l, exp_plus, IH.
    cbn [pow]. lra.
Qed.

(** [exp (- (n y))] is at most [1 / (1 + y)^n]. *)
Lemma exp_neg_bound (n : nat) (y x : R) :
  0 <= y -> INR n * y <= x -> exp (- x) <= / (1 + y) ^ n.
Proof.
  intros Hy Hx.
  assert (Hp : 0 < (1 + y) ^ n) by (apply pow_lt; lra).
  assert (Hlow : (1 + y) ^ n <= exp x).
  { apply Rle_trans with (exp (INR n * y)); [|apply exp_le; exact Hx].
    rewrite exp_times. apply pow_incr. split; [lra|apply exp_ineq1_le]. }
  rewrite exp_Ropp. apply Rinv_le_contravar; assumption.
Qed.

Lemma valley_pos (k : nat) (v : R) : 0 < valley k v.
Proof. apply exp_pos. Qed.

Lemma valley_le (n k : nat) (y v : R) :
  0 <= y ->
  INR n * y <= (v - dropPos k) * (v - dropPos k) / 1.5 ->
  valley k v <= / (1 + y) ^ n.
Proof.
  intros Hy H. unfold valley.
  replace (- ((v - dropPos k) * (v - dropPos k)) / 1.5)
    with (- ((v - dropPos k) * (v - dropPos k) / 1.5))
    by (unfold Rdiv; lra).
  apply exp_neg_bound; assumption.
Qed.

Lemma Rpower_pos (x y : R) : 0 < Rpower x y.
Proof. apply exp_pos. Qed.

(** For [0 < a <= b], [b^1.5 >= a^1.5 * (b / a)]. *)
Lemma Rpower_15_up (a b : R) :
  0 < a -> a <= b -> Rpower a 1.5 * (b / a) <= Rpower b 1.5.
Proof.
  intros Ha Hab.
  assert (Hq : 1 <= b / a).
  { apply Rmult_le_reg_r with a; [exact Ha|].
    unfold Rdiv. rewrite Rmult_assoc, Rinv_l by lra. lra. }
  replace b with (a * (b / a)) at 2 by (field; lra).
  rewrite <- Rpower_mult_distr by lra.
  apply Rmult_le_compat_l; [left; apply Rpower_pos|].
  rewrite <- (Rpower_1 (b / a)) at 1 by lra.
  apply Rle_Rpower; lra.
Qed.

(** For [0 < a <= b], [a^1.5 >= b^1.5 * (a / b)^2]. *)
Lemma Rpower_15_down (a b : R) :
  0 < a -> a <= b ->
  Rpower b 1.5 * ((a / b) * (a / b)) <= Rpower a 1.5.
Proof.
  intros Ha Hab.
  assert (Hb : 0 < b) by lra.
  assert (Hq0 : 0 < a / b) by (apply Rdiv_lt_0_compat; assumption).
  assert (Hq1 : a / b <= 1).
  { apply Rmult_le_reg_r with b; [exact Hb|].
    unfold Rdiv. rewrite Rmult_assoc, Rinv_l by lra. lra. }
  replace a with (b * (a / b)) at 3 by (field; lra).
  rewrite <- Rpower_mult_distr by lra.
  apply Rmult_le_compat_l; [left; apply Rpower_pos|].
  replace (a / b * (a / b)) with (Rpower (a / b) (INR 2)).
  2:{ rewrite Rpower_pow by exact Hq0. cbn [pow]. lra. }
  unfold Rpower. apply exp_le.
  assert (Hln : ln (a / b) <= 0).
  { destruct Hq1 as [Hlt|Heq].
    - left. rewrite <- ln_1. apply ln_increasing; assumption.
    - rewrite Heq, ln_1. lra. }
  cbn [INR]. nra.
Qed.

(** *** Bounds on the sum of the valleys *)

Lemma dipsR_ge_acc (n k : nat) (v m : R) : m <= dipsR n k v m.
Proof.
  revert k m. induction n as [|n IH]; intros k m; cbn [dipsR]; [lra|].
  destruct (Rlt_dec v (dropPos k - 3)); [lra|].
  apply Rle_trans with (m + valley k v); [|apply IH].
  pose proof (valley_pos k v). lra.
Qed.

Lemma dipsR_upper (n k : nat) (v m b : R) :
  0 <= b ->
  (forall i : nat, (k <= i < k + n)%nat -> valley i v <= b) ->
  dipsR n k v m <= m + INR n * b.
Proof.
  intros Hb. revert k m. induction n as [|n IH]; intros k m H.
  - cbn. lra.
  - cbn [dipsR]. rewrite S_INR.
    assert (Hn : 0 <= INR n) by apply pos_INR.
    destruct (Rlt_dec v (dropPos k - 3)); [nra|].
    apply Rle_trans with (m + valley k v + INR n * b).
    + apply IH. intros i Hi. apply H. lia.
    + assert (valley k v <= b) by (apply H; lia). lra.
Qed.

Lemma dipsR_upper_but_one (j n k : nat) (v m b c : R) :
  0 <= b -> 0 <= c ->
  valley j v <= c ->
  (forall i : nat, (k <= i < k + n)%nat -> i <> j -> valley i v <= b) ->
  dipsR n k v m <= m + INR n * b + c.
Proof.
  intros Hb Hc Hj. revert k m. induction n as [|n IH]; intros k m H.
  - cbn. lra.
  - cbn [dipsR]. rewrite S_INR.
    assert (Hn : 0 <= INR n) by apply pos_INR.
    destruct (Rlt_dec v (dropPos k - 3)); [nra|].
    destruct (Nat.eq_dec k j) as [->|Hkj].
    + apply Rle_trans with (m + valley j v + INR n * b).
      * apply dipsR_upper; [exact Hb|]. intros i Hi. apply H; lia.
      * lra.
    + apply Rle_trans with (m + valley k v + INR n * b + c).
      * apply IH. intros i Hi Hij. apply H; [lia|exact Hij].
      * assert (valley k v <= b) by (apply H; [lia|exact Hkj]). lra.
Qed.

Lemma dipsR_lower (j n k : nat) (v m : R) :
  (k <= j < k + n)%nat ->
  (forall i : nat, (k <= i <= j)%nat -> ~ v < dropPos i - 3) ->
  m + valley j v <= dipsR n k v m.
Proof.
  revert k m. induction n as [|n IH]; intros k m Hj H; [lia|].
  cbn [dipsR].
  destruct (Rlt_dec v (dropPos k - 3)) as [Hbreak|_].
  - exfalso. apply (H k); [lia|exact Hbreak].
  - destruct (Nat.eq_dec k j) as [->|Hkj].
    + apply dipsR_ge_acc.
    + apply Rle_trans with (m + valley k v + valley j v).
      * pose proof (valley_pos k v). lra.
      * apply IH; [lia|]. intros i Hi. apply H. lia.
Qed.


(** *** The dips of the current *)

Lemma dipFactor_at_most_1 (v : R) :
  Rmax 0.1 (1 - 0.8 * dipsR 14 1 v 0) <= 1.
Proof.
  pose proof (dipsR_ge_acc 14 1 v 0). apply Rmax_lub; lra.
Qed.

Lemma INR_cases (i n : nat) :
  i <> n -> INR i + 1 <= INR n \/ INR n + 1 <= INR i.
Proof.
  intros H. destruct (Nat.lt_ge_cases i n) as [Hlt|Hge].
  - left. rewrite <- S_INR. apply le_INR. lia.
  - right. rewrite <- S_INR. apply le_INR. lia.
Qed.

(** One volt beside the [n]-th dip the sum of the valleys is below
    0.63. *)
Lemma valleys_beside_dip (n : nat) (s : R) :
  s = 1 \/ s = -1 ->
  dipsR 14 1 (dropPos n + s) 0 <= 0.63.
Proof.
  intros Hs.
  apply Rle_trans with (0 + INR 14 * / (1 + 2) ^ 5 + / (1 + / 3) ^ 2).
  - apply dipsR_upper_but_one with (j := n).
    + left. apply Rinv_0_lt_compat. apply pow_lt. lra.
    + left. apply Rinv_0_lt_compat. apply pow_lt. lra.
    + apply valley_le; [lra|].
      replace (dropPos n + s - dropPos n) with s by lra.
      cbn [INR]. destruct Hs as [-> | ->]; lra.
    + intros i _ Hi. apply valley_le; [lra|].
      unfold dropPos. cbn [INR].
      destruct (INR_cases Hi) as [H|H]; destruct Hs as [-> | ->]; nra.
  - cbn [INR pow]. lra.
Qed.

(** At the [n]-th dip, for [n] from 1 to 14, the sum of the valleys is
    at least 1. *)
Lemma valleys_at_dip (n : nat) :
  (1 <= n <= 14)%nat -> 1 <= dipsR 14 1 (dropPos n) 0.
Proof.
  intros Hn.
  apply Rle_trans with (0 + valley n (dropPos n)).
  - unfold valley.
    replace (- ((dropPos n - dropPos n) * (dropPos n - dropPos n)) / 1.5)
      with 0 by (unfold Rdiv; lra).
    rewrite exp_0. lra.
  - apply dipsR_lower; [lia|].
    intros i Hi. unfold dropPos.
    assert (INR i <= INR n) by (apply le_INR; lia). lra.
Qed.

(** At every voltage [n * 4.9 + 2] with [n] from 1 to 14 the current at
    180 degrees is lower than one volt below and one volt above. *)
Lemma current_local_minimum (n : nat) :
  (1 <= n <= 14)%nat ->
  currentR (dropPos n) < currentR (dropPos n - 1) /\
  currentR (dropPos n) < currentR (dropPos n + 1).
Proof.
  intros Hn.
  assert (Hv : 6.9 <= dropPos n).
  { unfold dropPos. assert (INR 1 <= INR n) by (apply le_INR; lia).
    cbn [INR] in H. lra. }
  set (v := dropPos n) in *.
  assert (Hat : Rmax 0.1 (1 - 0.8 * dipsR 14 1 v 0) <= 0.2).
  { pose proof (valleys_at_dip Hn). fold v in H. apply Rmax_lub; lra. }
  assert (Hbelow : 0.49 <= Rmax 0.1 (1 - 0.8 * dipsR 14 1 (v - 1) 0)).
  { pose proof (valleys_beside_dip n (s := -1) (or_intror eq_refl)) as H.
    fold v in H. replace (v + -1) with (v - 1) in H by lra.
    apply Rle_trans with (1 - 0.8 * dipsR 14 1 (v - 1) 0);
      [lra|apply Rmax_r]. }
  assert (Habove : 0.49 <= Rmax 0.1 (1 - 0.8 * dipsR 14 1 (v + 1) 0)).
  { pose proof (valleys_beside_dip n (s := 1) (or_introl eq_refl)) as H.
    fold v in H.
    apply Rle_trans with (1 - 0.8 * dipsR 14 1 (v + 1) 0);
      [lra|apply Rmax_r]. }
  pose proof (Rpower_pos v 1.5) as Hp.
  unfold currentR. split.
  - pose proof (@Rpower_15_down (v - 1) v) as Hd.
    assert (Hq : 0.85 <= (v - 1) / v).
    { apply Rmult_le_reg_r with v; [lra|].
      unfold Rdiv. rewrite Rmult_assoc, Rinv_l by lra. lra. }
    assert (Hq1 : (v - 1) / v <= 1).
    { apply Rmult_le_reg_r with v; [lra|].
      unfold Rdiv. rewrite Rmult_assoc, Rinv_l by lra. lra. }
    specialize (Hd ltac:(lra) ltac:(lra)).
    set (P := Rpower v 1.5) in *. set (P' := Rpower (v - 1) 1.5) in *.
    set (D := Rmax 0.1 (1 - 0.8 * dipsR 14 1 v 0)) in *.
    set (D' := Rmax 0.1 (1 - 0.8 * dipsR 14 1 (v - 1) 0)) in *.
    set (q := (v - 1) / v) in *.
    assert (Hqq : 0.72 <= q * q) by nra.
    assert (HP' : 0.72 * P <= P') by nra.
    assert (H1 : P * 0.2 * 0.8 * D <= P * 0.2 * 0.8 * 0.2) by nra.
    assert (H2 : P' * 0.2 * 0.8 * 0.49 <= P' * 0.2 * 0.8 * D').
    { apply Rmult_le_compat_l; [|exact Hbelow]. nra. }
    nra.
  - assert (Hup : Rpower v 1.5 < Rpower (v + 1) 1.5).
    { apply Rlt_Rpower_l; lra. }
    set (P := Rpower v 1.5) in *. set (P' := Rpower (v + 1) 1.5) in *.
    set (D := Rmax 0.1 (1 - 0.8 * dipsR 14 1 v 0)) in *.
    set (D' := Rmax 0.1 (1 - 0.8 * dipsR 14 1 (v + 1) 0)) in *.
    assert (H1 : P * 0.2 * 0.8 * D <= P * 0.2 * 0.8 * 0.2) by nra.
    assert (H2 : P' * 0.2 * 0.8 * 0.49 <= P' * 0.2 * 0.8 * D').
    { apply Rmult_le_compat_l; [|exact Habove]. nra. }
    nra.
Qed.

(** At 75.5 V, the fifteenth dip, the sum of the valleys is below
    0.003: the loop stops after the fourteenth. *)
Lemma valleys_at_fifteenth : dipsR 14 1 75.5 0 <= 0.003.
Proof.
  apply Rle_trans with (0 + INR 14 * / (1 + 2) ^ 8).
  - apply dipsR_upper.
    + left. apply Rinv_0_lt_compat. apply pow_lt. lra.
    + intros i Hi. apply valley_le; [lra|].
      unfold dropPos. cbn [INR].
      assert (H1 : INR 1 <= INR i) by (apply le_INR; lia).
      assert (H2 : INR i <= INR 14) by (apply le_INR; lia).
      cbn [INR] in H1, H2. nra.
  - cbn [INR pow]. lra.
Qed.

Lemma current_rises_at_fifteenth : currentR 74.5 < currentR 75.5.
Proof.
  pose proof valleys_at_fifteenth as HM.
  pose proof (dipFactor_at_most_1 74.5) as HD.
  assert (HD' : 0.9976 <= Rmax 0.1 (1 - 0.8 * dipsR 14 1 75.5 0)).
  { apply Rle_trans with (1 - 0.8 * dipsR 14 1 75.5 0); [lra|apply Rmax_r]. }
  pose proof (@Rpower_15_up 74.5 75.5 ltac:(lra) ltac:(lra)) as Hup.
  pose proof (Rpower_pos 74.5 1.5) as Hp.
  unfold currentR.
  set (P := Rpower 74.5 1.5) in *. set (P' := Rpower 75.5 1.5) in *.
  set (D := Rmax 0.1 (1 - 0.8 * dipsR 14 1 74.5 0)) in *.
  set (D' := Rmax 0.1 (1 - 0.8 * dipsR 14 1 75.5 0)) in *.
  assert (HP' : 1.0134 * P <= P') by lra.
  assert (H1 : P * 0.2 * 0.8 * D <= P * 0.2 * 0.8 * 1) by nra.
  assert (H2 : P' * 0.2 * 0.8 * 0.9976 <= P' * 0.2 * 0.8 * D').
  { apply Rmult_le_compat_l; [|exact HD']. nra. }
  nra.
Qed.


(** The local minima that the code does give: at 180 degrees, at every
    voltage [n * 4.9 + 2] with [n] from 1 to 14, [calculateCurrent] is
    lower than one volt below and one volt above. *)
Lemma calculateCurrent_local_minimum (w : world) (n : nat) :
  temperature w = Fin 180 -> (1 <= n <= 14)%nat ->
  exists a b c : R,
    calculateCurrent w (Fin (INR n * 4.9 + 2.0)) = Fin a /\
    calculateCurrent w (Fin (INR n * 4.9 + 2.0 - 1)) = Fin b /\
    calculateCurrent w (Fin (INR n * 4.9 + 2.0 + 1)) = Fin c /\
    a < b /\ a < c.
Proof.
  intros Ht Hn.
  assert (Hv : 6.9 <= INR n * 4.9 + 2.0).
  { assert (INR 1 <= INR n) by (apply le_INR; lia). cbn [INR] in H. lra. }
  exists (currentR (dropPos n)), (currentR (dropPos n - 1)),
         (currentR (dropPos n + 1)).
  fold (dropPos n) in *.
  rewrite !calculateCurrent_180 by (assumption || lra).
  repeat split; apply current_local_minimum; exact Hn.
Qed.

(** C4.  At 180 degrees and 75.5 V = 15 * 4.9 + 2.0, a voltage inside
    the range that the scan covers (up to 80 V), [calculateCurrent] is
    not at a local minimum: the current one volt below is lower.  The
    loop [for (k = 1; k < 15; k++)] adds the valleys of the dips 1 to 14
    and none for the fifteenth. *)
Theorem calculateCurrent_no_dip_at_fifteenth :
  exists a b : R,
    calculateCurrent (tube 0) (Fin (15 * 4.9 + 2.0)) = Fin a /\
    calculateCurrent (tube 0) (Fin (15 * 4.9 + 2.0 - 1)) = Fin b /\
    b < a.
Proof.
  exists (currentR 75.5), (currentR 74.5).
  replace (15 * 4.9 + 2.0 - 1) with 74.5 by lra.
  replace (15 * 4.9 + 2.0) with 75.5 by lra.
  rewrite !calculateCurrent_180 by (reflexivity || lra).
  repeat split. apply current_rises_at_fifteenth.
Qed.

End FranckHertzCurrent.

(* ================================================================= *)
(** ** Franck-Hertz tube: the temperature factors, the current and the
       flight of an electron *)

Section FranckHertzTube.
Import JSNum Effects FranckHertz.
Open Scope R_scope.

Lemma getTemperatureFactor_fin (t : num) :
  isNaN t = false ->
  exists d tr : R,
    getTemperatureFactor t = (Fin d, Fin tr) /\
    0 <= d <= 1 /\ 0 <= tr <= 1.
Proof.
  intros Ht. unfold getTemperatureFactor.
  destruct t as [r| | |]; [| | |discriminate]; cbn [lt ge le].
  - destruct (Rlt_dec r 140) as [H1|H1].
    { exists 0, 1. repeat split; try lra. }
    destruct (Rle_dec 140 r) as [H2|H2]; [|exfalso; lra].
    destruct (Rle_dec r 200) as [H3|H3]; cbn [andb].
    + cbn [sub add neg Math_abs mul]. rewrite div_fin by lra.
      cbn [Math_exp].
      eexists _, 0.8. split; [reflexivity|].
      split; [|lra].
      split; [left; apply exp_pos|].
      rewrite <- exp_0. apply exp_le.
      assert (0 <= Rabs (r + - (180)) * Rabs (r + - (180)))
        by (apply Rle_0_sqr).
      unfold Rdiv. lra.
    + cbn [sub add neg mul]. rewrite div_fin by lra.
      cbn [Math_exp mul].
      exists 0.5. eexists. split; [reflexivity|].
      pose proof (exp_pos (- (r + - (200)) / 20)) as Hp.
      assert (exp (- (r + - (200)) / 20) <= 1).
      { rewrite <- exp_0. apply exp_le. unfold Rdiv. lra. }
      split; lra.
  - cbn [andb sub add neg div].
    destruct (Rlt_dec 20 0) as [N|_]; [exfalso; lra|].
    cbn [Math_exp mul].
    exists 0.5, (0 * 0.5). split; [reflexivity|]. split; lra.
  - exists 0, 1. repeat split; try lra.
Qed.

(** X1. Both factors that [getTemperatureFactor] returns lie
    between 0 and 1, the ends included, for every temperature that is a
    number, the infinities included.  Below 140 degrees the dip strength
    is 0 and the transmission 1; from 140 to 200 degrees the transmission
    is 0.8, and at 180 degrees the dip strength is 1; above 200 degrees
    the dip strength is 0.5 and the transmission at most 0.5. *)
Theorem getTemperatureFactor_range (t : num) :
  isNaN t = false ->
  exists d tr : R,
    getTemperatureFactor t = (Fin d, Fin tr) /\
    0 <= d <= 1 /\ 0 <= tr <= 1 /\
    (forall r : R, t = Fin r -> r < 140 -> d = 0 /\ tr = 1) /\
    (forall r : R, t = Fin r -> 140 <= r <= 200 -> tr = 0.8) /\
    (t = Fin 180 -> d = 1) /\
    (forall r : R, t = Fin r -> 200 < r -> d = 0.5 /\ tr <= 0.5).
Proof.
  intros Ht.
  destruct (getTemperatureFactor_fin t Ht) as (d & tr & E & Hd & Htr).
  exists d, tr. split; [exact E|]. split; [exact Hd|]. split; [exact Htr|].
  unfold getTemperatureFactor in E.
  destruct t as [r| | |]; [| | |discriminate]; cbn [lt ge le] in E.
  - destruct (Rlt_dec r 140) as [H1|H1].
    { injection E as <- <-.
      split; [intros r' [= <-] _; split; reflexivity|].
      split; [intros r' [= <-] H; exfalso; lra|].
      split; [intros [= ->]; exfalso; lra|].
      intros r' [= <-] H; exfalso; lra. }
    destruct (Rle_dec 140 r) as [H2|H2]; [|exfalso; lra].
    destruct (Rle_dec r 200) as [H3|H3]; cbn [andb] in E.
    + cbn [sub add neg Math_abs mul] in E. rewrite div_fin in E by lra.
      cbn [Math_exp] in E. injection E as <- <-.
      split; [intros r' [= <-] H; exfalso; lra|].
      split; [intros r' _ _; reflexivity|].
      split; [|intros r' [= <-] H; exfalso; lra].
      intros [= ->]. replace (180 + - (180)) with 0 by lra.
      rewrite Rabs_R0.
      replace (- (0 * 0) / (20 * 20)) with 0 by (unfold Rdiv; lra).
      apply exp_0.
    + cbn [sub add neg mul] in E. rewrite div_fin in E by lra.
      cbn [Math_exp mul] in E. injection E as <- <-.
      split; [intros r' [= <-] H; exfalso; lra|].
      split; [intros r' [= <-] H; exfalso; lra|].
      split; [intros [= ->]; exfalso; lra|].
      intros r' _ _. split; [reflexivity|].
      assert (exp (- (r + - (200)) / 20) <= 1).
      { rewrite <- exp_0. apply exp_le. unfold Rdiv. lra. }
      lra.
  - split; [intros r' [=]|]. split; [intros r' [=]|].
    split; [intros [=]|intros r' [=]].
  - split; [intros r' [=]|]. split; [intros r' [=]|].
    split; [intros [=]|intros r' [=]].
Qed.

Lemma getTemperatureFactor_range_witness :
  exists d tr : R,
    getTemperatureFactor (Fin 250) = (Fin d, Fin tr) /\
    0 <= d <= 1 /\ 0 <= tr <= 0.5.
Proof.
  destruct (@getTemperatureFactor_range (Fin 250) eq_refl)
    as (d & tr & E & Hd & Htr & _ & _ & _ & Hhot).
  exists d, tr. split; [exact E|]. split; [exact Hd|].
  destruct (Hhot 250 eq_refl) as [_ H]; lra.
Defined.

Lemma Math_pow_15 (v : R) :
  0 <= v -> Math_pow (Fin v) (Fin 1.5) = Fin (pow15 v).
Proof.
  intros Hv. unfold Math_pow, pow15.
  destruct (Req_dec_T 1.5 0) as [N|_]; [exfalso; lra|].
  destruct (Req_dec_T v 0) as [E|E].
  - destruct (Rlt_dec 0 1.5) as [_|N]; [reflexivity|exfalso; lra].
  - destruct (Rlt_dec 0 v) as [_|N]; [reflexivity|exfalso; lra].
Qed.

Lemma pow15_nonneg (v : R) : 0 <= pow15 v.
Proof.
  unfold pow15. destruct (Req_dec_T v 0); [lra|].
  left. apply exp_pos.
Qed.

Lemma pow15_increasing (a b : R) : 0 <= a -> a < b -> pow15 a < pow15 b.
Proof.
  intros Ha Hab. unfold pow15.
  destruct (Req_dec_T b 0) as [E|_]; [exfalso; lra|].
  destruct (Req_dec_T a 0) as [E|E]; [apply exp_pos|].
  unfold Rpower. apply exp_increasing.
  apply Rmult_lt_compat_l; [lra|]. apply ln_increasing; lra.
Qed.

Lemma calculateCurrent_eq (w : world) (v d tr : R) :
  0 <= v ->
  getTemperatureFactor (temperature w) = (Fin d, Fin tr) ->
  calculateCurrent w (Fin v)
  = Fin (pow15 v * 0.2 * tr * Rmax 0.1 (1 - 0.8 * d * dipsR 14 1 v 0)).
Proof.
  intros Hv Ht. unfold calculateCurrent. cbn [lt].
  destruct (Rlt_dec v 0) as [N|_]; [exfalso; lra|].
  rewrite Ht. cbv zeta. rewrite dips_fin, Math_pow_15 by exact Hv.
  cbn [mul sub add neg]. unfold Math_max. cbn [lt].
  replace (1 + - (0.8 * d * dipsR 14 1 v 0))
    with (1 - 0.8 * d * dipsR 14 1 v 0) by lra.
  destruct (Rlt_dec 0.1 (1 - 0.8 * d * dipsR 14 1 v 0)) as [H|H]; cbn [mul].
  - rewrite Rmax_right by lra. reflexivity.
  - rewrite Rmax_left by lra. reflexivity.
Qed.





(** X4. In a tube canvas at least 100 pixels high and with
    a uniform random source, [reset] puts the electron at the cathode
    (x = 40) with no energy, active, at a height between 50 and
    [height - 50] and with a speed between 0.5 and 1, the ends included;
    it reads exactly two random values and writes nothing else. *)
Theorem reset_inside_tube (w : world) (h : R) :
  tube_height w = Fin h -> 100 <= h -> uniform (random w) ->
  exists yr vr : R,
    eval reset w = mkElectron (Fin 40) (Fin yr) (Fin vr) (Fin 0) true /\
    50 <= yr <= h - 50 /\ 0.5 <= vr <= 1 /\
    in_flight (eval reset w) /\
    exec reset w
    = set_random (mkRng (src (random w)) (S (S (pos (random w))))) w.
Proof.
  intros Hh H100 Hu. unfold reset, eval, exec, bind, get, Math_random, ret.
  cbn. rewrite Hh. cbn [sub add neg mul].
  pose proof (Hu (pos (random w))) as H1.
  pose proof (Hu (S (pos (random w)))) as H2.
  set (u1 := src (random w) (pos (random w))) in *.
  set (u2 := src (random w) (S (pos (random w)))) in *.
  exists (50 + u1 * (h + - (100))), (0.5 + u2 * 0.5).
  split; [reflexivity|].
  assert (Hy : 50 <= 50 + u1 * (h + - (100)) <= h - 50) by nra.
  split; [exact Hy|]. split; [lra|].
  split; [|destruct w; reflexivity].
  exists 40, (50 + u1 * (h + - (100))), (0.5 + u2 * 0.5), 0.
  cbn. repeat split; lra.
Qed.

Lemma reset_inside_tube_witness :
  exists yr vr : R,
    eval reset (tube 10) = mkElectron (Fin 40) (Fin yr) (Fin vr) (Fin 0) true /\
    50 <= yr <= 300 - 50 /\ 0.5 <= vr <= 1 /\
    in_flight (eval reset (tube 10)) /\
    exec reset (tube 10)
    = set_random (mkRng (src (random (tube 10)))
                        (S (S (pos (random (tube 10)))))) (tube 10).
Proof.
  apply (@reset_inside_tube (tube 10) 300); [reflexivity|lra|].
  intros i. cbn. lra.
Defined.

Lemma getTemperatureFactor_cold (t : num) :
  (t <? Fin 140)%num = true -> getTemperatureFactor t = (Fin 0, Fin 1).
Proof. intros H. unfold getTemperatureFactor. rewrite H. reflexivity. Qed.

(** X5. Below 140 degrees [update] leaves the world as
    it is, whatever the electron: no collision glow is added and no
    random value is read. *)
Theorem update_cold_reads_nothing (w : world) (e : Electron) :
  (temperature w <? Fin 140)%num = true ->
  exec (update e) w = w.
Proof.
  intros Ht. unfold update, exec.
  destruct (active e); [|reflexivity]. cbn [negb].
  unfold bind, get. cbv beta iota zeta.
  rewrite (getTemperatureFactor_cold _ Ht). cbn [fst].
  replace (Fin 0 >? Fin 0.01)%num with false.
  2:{ unfold gt. cbn [lt]. destruct (Rlt_dec 0.01 0); [exfalso; lra|reflexivity]. }
  rewrite andb_false_r.
  destruct (x e <? tube_width w - Fin 60)%num; [reflexivity|].
  destruct (x e <? tube_width w - Fin 20)%num; [|reflexivity].
  match goal with |- context [if ?c then _ else _] => destruct c end;
    reflexivity.
Qed.

Lemma update_cold_reads_nothing_witness :
  exec (update electron_at_cathode) (cold_tube 10) = cold_tube 10.
Proof.
  apply (@update_cold_reads_nothing (cold_tube 10) electron_at_cathode).
  unfold cold_tube. cbn.
  destruct (Rlt_dec 120 140) as [_|N]; [reflexivity|exfalso; lra].
Defined.

(** X6. One [update] of an active electron between the
    cathode and the grid adds at most one collision glow, and the energy
    of the electron afterwards is its energy before, plus the gain
    [vAcc / (width - 100) * vx] of the step, minus 4.9 eV for the glow
    added.  A glow is added only when the energy reached 4.9 eV, it is
    appended at the new position of the electron, and the electron then
    continues at speed 0.5. *)
Theorem update_energy_account (w : world) (e : Electron)
  (va W xr vr en : R) :
  active e = true ->
  vAcc w = Fin va -> tube_width w = Fin W -> W <> 100 ->
  x e = Fin xr -> xr < W - 60 -> vx e = Fin vr -> energy e = Fin en ->
  exists k : nat,
    (k <= 1)%nat /\
    List.length (collisions (exec (update e) w))
    = (List.length (collisions w) + k)%nat /\
    energy (eval (update e) w)
    = Fin (en + va / (W - 100) * vr - 4.9 * INR k) /\
    (k = 1%nat ->
     4.9 <= en + va / (W - 100) * vr /\
     vx (eval (update e) w) = Fin 0.5 /\
     exists c, collisions (exec (update e) w) = collisions w ++ [c] /\
               at_x c = Fin (xr + vr) /\ at_y c = y e).
Proof.
  intros Ha Hva HW H100 Hx Hxr Hv He.
  unfold update, eval, exec. rewrite Ha. cbn [negb].
  unfold bind, get. cbv beta iota zeta.
  rewrite Hx, HW, Hva, Hv, He. cbn [sub add neg lt].
  replace (W + - (60) + - (40)) with (W - 100) by lra.
  rewrite !div_fin by lra. cbn [mul add sub neg].
  destruct (Rlt_dec xr (W + - (60))) as [_|N]; [|exfalso; lra].
  assert (No : exists k : nat,
    (k <= 1)%nat /\
    List.length (collisions w) = (List.length (collisions w) + k)%nat /\
    Fin (en + va / (W - 100) * vr)
    = Fin (en + va / (W - 100) * vr - 4.9 * INR k) /\
    (k = 1%nat ->
     4.9 <= en + va / (W - 100) * vr /\
     (Fin 1 + Math_sqrt (Fin (en + va / (W - 100) * vr)) * Fin 0.5)%num
       = Fin 0.5 /\
     exists c, collisions w = collisions w ++ [c] /\
               at_x c = Fin (xr + vr) /\ at_y c = y e)).
  { exists 0%nat. split; [lia|]. split; [lia|].
    split; [f_equal; simpl (INR _); generalize (va / (W - 100) * vr);
            intros gain; lra|].
    intros K; discriminate K. }
  match goal with |- context [if ?c then _ else _] => destruct c eqn:Hc end;
    [|exact No].
  unfold Math_random. cbv beta iota zeta.
  match goal with |- context [if ?c then _ else _] => destruct c end.
  - unfold modify, ret. cbn [fst snd energy vx].
    exists 1%nat. split; [lia|].
    cbn [collisions set_collisions set_random with_rng world_randomness].
    split; [rewrite length_app; reflexivity|].
    unfold EXCITATION_ENERGY. cbn [sub neg add].
    split; [f_equal; simpl (INR _); generalize (va / (W - 100) * vr);
            intros gain; lra|].
    intros _.
    apply andb_prop in Hc. destruct Hc as [Hc _].
    unfold ge, EXCITATION_ENERGY in Hc. cbn [le] in Hc.
    destruct (Rle_dec 4.9 (en + va / (W - 100) * vr)) as [Hge|]; [|discriminate].
    split; [exact Hge|]. split; [reflexivity|].
    eexists. split; [reflexivity|]. split; reflexivity.
  - unfold ret. cbn [fst snd energy vx].
    cbn [collisions set_collisions set_random with_rng world_randomness].
    exact No.
Qed.

Lemma update_energy_account_witness :
  exists k : nat,
    (k <= 1)%nat /\
    List.length (collisions (exec (update electron_at_cathode) (tube 10)))
    = (List.length (collisions (tube 10)) + k)%nat /\
    energy (eval (update electron_at_cathode) (tube 10))
    = Fin (0 + 10 / (600 - 100) * 1 - 4.9 * INR k) /\
    (k = 1%nat ->
     4.9 <= 0 + 10 / (600 - 100) * 1 /\
     vx (eval (update electron_at_cathode) (tube 10)) = Fin 0.5 /\
     exists c, collisions (exec (update electron_at_cathode) (tube 10))
               = collisions (tube 10) ++ [c] /\
               at_x c = Fin (40 + 1) /\ at_y c = y electron_at_cathode).
Proof.
  apply (@update_energy_account (tube 10) electron_at_cathode 10 600 40 1 0);
    try reflexivity; cbn; lra.
Defined.

Lemma update_world (e : Electron) (w : world) :
  exists cs g, exec (update e) w = set_random g (set_collisions cs w).
Proof.
  assert (Same : exists cs g, w = set_random g (set_collisions cs w)).
  { exists (collisions w), (random w). destruct w; reflexivity. }
  unfold update, exec.
  destruct (active e); [|exact Same]. cbn [negb].
  unfold bind, get. cbv beta iota zeta.
  destruct (x e <? tube_width w - Fin 60)%num.
  - match goal with |- context [if ?c then _ else _] => destruct c end;
      [|exact Same].
    unfold Math_random. cbv beta iota zeta.
    match goal with |- context [if ?c then _ else _] => destruct c end.
    + unfold modify, ret. cbn [snd].
      eexists _, _. destruct w; reflexivity.
    + unfold ret. cbn [snd]. eexists (collisions w), _.
      destruct w; reflexivity.
  - destruct (x e <? tube_width w - Fin 20)%num; [|exact Same].
    match goal with |- context [if ?c then _ else _] => destruct c end;
      exact Same.
Qed.

Lemma update_powered (W : R) (e : Electron) (w : world) :
  powered W w -> powered W (exec (update e) w).
Proof.
  intros H. destruct (update_world e w) as (cs & g & ->). exact H.
Qed.

Lemma update_inactive (e : Electron) (w : world) :
  active e = false -> update e w = (e, w).
Proof. intros H. unfold update. rewrite H. reflexivity. Qed.

Lemma flight_inactive (n : nat) (e : Electron) (w : world) :
  active e = false -> flight n e w = (e, w).
Proof.
  revert w. induction n as [|n IH]; intros w H; [reflexivity|].
  cbn [flight]. unfold bind. rewrite update_inactive by exact H.
  apply IH. exact H.
Qed.

(** One update of an electron that is still active afterwards. *)
Lemma update_advances (W xr : R) (e : Electron) (w : world) :
  powered W w -> launched xr e ->
  active (eval (update e) w) = true ->
  xr < W - 20 /\
  exists xr', xr + 0.5 <= xr' /\ launched xr' (eval (update e) w).
Proof.
  intros ((va & vr & Hva & Hva0 & Hvr) & HW & H100)
         (v & en & Hx & Hv & He & Hv5 & Hen).
  unfold update, eval.
  destruct (active e) eqn:Ha; [|cbn; congruence]. cbn [negb].
  unfold bind, get. cbv beta iota zeta.
  rewrite Hx, HW, Hva, Hvr, Hv, He. cbn [sub add neg lt].
  replace (W + - (60) + - (40)) with (W - 100) by lra.
  replace (W + - (20) + - (W + - (60))) with 40 by lra.
  rewrite !div_fin by lra. cbn [mul add sub neg].
  assert (Hgain : 0 <= va / (W - 100) * v).
  { apply Rmult_le_pos; [|lra].
    apply Rmult_le_pos; [lra|]. left. apply Rinv_0_lt_compat. lra. }
  unfold Math_sqrt.
  destruct (Rlt_dec (en + va / (W - 100) * v) 0) as [N|_]; [exfalso; lra|].
  cbn [mul add].
  pose proof (sqrt_pos (en + va / (W - 100) * v)) as Hs.
  destruct (Rlt_dec xr (W + - (60))) as [H1|H1].
  - match goal with |- context [if ?c then _ else _] => destruct c eqn:Hc end.
    + unfold Math_random. cbv beta iota zeta.
      match goal with |- context [if ?c then _ else _] => destruct c end.
      * unfold modify, ret. cbn [fst]. intros _. split; [lra|].
        exists (xr + v). split; [lra|].
        apply andb_prop in Hc. destruct Hc as [Hc _].
        unfold ge, EXCITATION_ENERGY in Hc. cbn [le] in Hc.
        destruct (Rle_dec 4.9 (en + va / (W - 100) * v)) as [Hge|]; [|discriminate].
        exists 0.5. eexists. cbn. unfold EXCITATION_ENERGY. cbn [neg add].
        repeat split; try reflexivity; lra.
      * unfold ret. cbn [fst]. intros _. split; [lra|].
        exists (xr + v). split; [lra|].
        eexists _, _. cbn. repeat split; try reflexivity; lra.
    + unfold ret. cbn [fst]. intros _. split; [lra|].
      exists (xr + v). split; [lra|].
      eexists _, _. cbn. repeat split; try reflexivity; lra.
  - destruct (Rlt_dec xr (W + - (20))) as [H2|H2]; [|cbn; discriminate].
    cbn [le].
    destruct (Rle_dec (en + - (vr / 40 * v)) 0) as [H3|H3];
      [cbn; discriminate|].
    unfold ret. cbn [fst]. intros _. split; [lra|].
    exists (xr + v). split; [lra|].
    eexists _, _. cbn. repeat split; try reflexivity; lra.
Qed.

Lemma flight_active (W : R) (n : nat) :
  forall (xr : R) (e : Electron) (w : world),
  powered W w -> launched xr e ->
  active (eval (flight (S n) e) w) = true ->
  xr + 0.5 * INR n < W - 20.
Proof.
  induction n as [|n IH]; intros xr e w Hw He Hact.
  - unfold eval in Hact. cbn [flight] in Hact. unfold bind in Hact.
    destruct (update e w) as [e1 w1] eqn:E1. cbn in Hact.
    assert (Ha : active (eval (update e) w) = true)
      by (unfold eval; rewrite E1; exact Hact).
    destruct (update_advances Hw He Ha) as [H _]. cbn [INR]. lra.
  - unfold eval in Hact. change (flight (S (S n)) e) with
      (e' <- update e ;; flight (S n) e') in Hact.
    unfold bind at 1 in Hact.
    destruct (update e w) as [e1 w1] eqn:E1.
    assert (Hact1 : active e1 = true).
    { destruct (active e1) eqn:A; [reflexivity|].
      rewrite (flight_inactive (S n) e1 w1 A) in Hact. cbn in Hact.
      congruence. }
    assert (Ha : active (eval (update e) w) = true)
      by (unfold eval; rewrite E1; exact Hact1).
    destruct (update_advances Hw He Ha) as [_ (xr' & Hx' & He')].
    unfold eval in He'. rewrite E1 in He'. cbn [fst] in He'.
    assert (Hw1 : powered W w1).
    { pose proof (update_powered e Hw) as P. unfold exec in P.
      rewrite E1 in P. exact P. }
    pose proof (IH xr' e1 w1 Hw1 He' Hact) as B.
    rewrite S_INR. lra.
Qed.



End FranckHertzTube.

(* ================================================================= *)
(** ** Photoelectric effect: emission and the electrons in the tube *)

Section EffectsLoops.
Import Effects.

Lemma forEach_invariant {W A : Type} (I : W -> Prop) (P Q : A -> Prop)
  (f : A -> Js W A) :
  (forall a w, I w -> P a -> Q (fst (f a w)) /\ I (snd (f a w))) ->
  forall (l : list A) (w : W), I w -> Forall P l ->
  Forall Q (fst (forEach f l w)) /\ I (snd (forEach f l w)).
Proof.
  intros Hf. induction l as [|a l IH]; intros w Hw Hl.
  - split; [constructor|exact Hw].
  - inversion Hl as [|? ? Ha Hl']; subst.
    cbn [forEach]. unfold bind.
    destruct (Hf a w Hw Ha) as [Qa Iw].
    destruct (f a w) as [a' w1]. cbn [fst snd] in Qa, Iw.
    destruct (IH w1 Iw Hl') as [Ql Il].
    destruct (forEach f l w1) as [l' w2]. cbn [fst snd ret] in *.
    split; [constructor; assumption|assumption].
Qed.
End EffectsLoops.

Section PhotoelectricTube.
Import JSNum Effects Photoelectric PhotoelectricPanel.
Open Scope R_scope.

Lemma spawnElectron_emits (x0 y0 a : num) (w : world) :
  le (div HC (lambda w)) (workFunction w) = false ->
  exec (spawnElectron x0 y0 a) w
  = let g := random w in
    let u1 := Fin (src g (pos g)) in
    let u2 := Fin (src g (S (pos g))) in
    let ke := mul (sub (div HC (lambda w)) (workFunction w))
                  (add (Fin 0.9) (mul u1 (Fin 0.1))) in
    let speed := mul (Math_sqrt ke) SCALE_SPEED in
    let angle := add a (mul (sub u2 (Fin 0.5)) (Fin 1.0)) in
    set_electrons
      (electrons w ++
       [mkElectron x0 y0 (mul (Math_cos angle) speed)
                   (mul (Math_sin angle) speed) ke false])
      (set_random (mkRng (src g) (S (S (pos g)))) w).
Proof.
  intros H. unfold exec, spawnElectron. unfold bind at 1. unfold get at 1.
  rewrite H. cbv zeta. unfold bind, modify, Math_random.
  cbn [rng_of with_rng world_randomness snd].
  destruct w; reflexivity.
Qed.





Lemma sin_sqr_le (t : R) : sin t * sin t <= t * t.
Proof.
  assert (P : forall u, 0 < u -> - u <= sin u <= u).
  { intros u Hu. split; [|left; apply sin_lt_x; exact Hu].
    destruct (Rle_dec u PI) as [H|H].
    - pose proof (sin_ge_0 u ltac:(lra) H). lra.
    - pose proof (SIN_bound u). pose proof PI2_3_2. lra. }
  destruct (Rtotal_order t 0) as [H|[H|H]].
  - pose proof (P (- t) ltac:(lra)) as Q. rewrite sin_neg in Q. nra.
  - subst t. rewrite sin_0. lra.
  - pose proof (P t H). nra.
Qed.

Lemma cos_lower (t : R) : 1 - t * t / 2 <= cos t.
Proof.
  replace t with (2 * (t / 2)) at 3 by lra.
  rewrite cos_2a_sin. pose proof (sin_sqr_le (t / 2)). nra.
Qed.

Lemma spawnRandomElectron_eq (w : world) :
  exec spawnRandomElectron w
  = let u := Fin (src (random w) (pos (random w))) in
    let theta := mul (mul (sub u (Fin 0.5)) (Fin 2)) cathode_angleSpread in
    exec (spawnElectron
            (sub (add cathode_center_x (mul cathode_radius (Math_cos theta)))
                 (Fin 2))
            (add cathode_center_y (mul cathode_radius (Math_sin theta)))
            (add theta Math_PI))
         (set_random (mkRng (src (random w)) (S (pos (random w))))
                     (count_spawn_call w)).
Proof. reflexivity. Qed.



Lemma updateElectron_hit (ff top bot ts : num) (e : electron) (w : world) :
  exists e' : electron,
    updateElectron ff top bot ts e w
    = (e', set_hitHistory
             (hitHistory w ++ (if anode_hit ff e then [ts] else [])) w) /\
    (anode_hit ff e = true -> dead e' = true).
Proof.
  unfold updateElectron, bind, get. cbv zeta. fold (anode_hit ff e).
  destruct (anode_hit ff e).
  - unfold recordHit, modify, ret. eexists. split; [reflexivity|].
    intros _. cbn [dead].
    repeat match goal with |- context [if ?c then true else _] =>
      destruct c; try reflexivity end.
  - unfold ret. eexists. split.
    + rewrite set_hitHistory_same by apply app_nil_r. reflexivity.
    + discriminate.
Qed.

Lemma forEach_updateElectron_hits (ff top bot ts : num) (es : list electron) :
  forall w : world,
  exists (k : nat) (es' : list electron),
    forEach (updateElectron ff top bot ts) es w
    = (es', set_hitHistory (hitHistory w ++ repeat ts k) w) /\
    (k + List.length (filter (fun e => negb (dead e)) es')
     <= List.length es)%nat.
Proof.
  induction es as [|e es IH]; intros w.
  - exists 0%nat, []. cbn [forEach ret repeat]. split; [|cbn; lia].
    rewrite set_hitHistory_same by apply app_nil_r. reflexivity.
  - cbn [forEach]. unfold bind.
    destruct (updateElectron_hit ff top bot ts e w) as (e' & E1 & D1).
    rewrite E1.
    destruct (IH (set_hitHistory
                    (hitHistory w ++ (if anode_hit ff e then [ts] else [])) w))
      as (k & es' & E2 & L2).
    rewrite E2. unfold ret.
    exists ((if anode_hit ff e then 1 else 0) + k)%nat, (e' :: es').
    split.
    + f_equal. cbn [hitHistory set_hitHistory].
      rewrite set_hitHistory_twice, <- app_assoc. f_equal. f_equal.
      destruct (anode_hit ff e); reflexivity.
    + cbn [filter List.length].
      destruct (anode_hit ff e).
      * rewrite D1 by reflexivity. cbn [negb]. lia.
      * destruct (negb (dead e')); cbn [List.length]; lia.
Qed.

Lemma updateElectrons_hits (ts : num) (w : world) :
  exists (k : nat) (es' : list electron),
    exec (updateElectrons ts) w
    = set_electrons (filter (fun e => negb (dead e)) es')
        (set_hitHistory (hitHistory w ++ repeat ts k) w) /\
    (k + List.length (filter (fun e => negb (dead e)) es')
     <= List.length (electrons w))%nat.
Proof.
  unfold exec, updateElectrons. unfold bind at 1. unfold get at 1.
  cbv zeta. unfold bind at 1.
  destruct (forEach_updateElectron_hits (mul (voltage w) (Fin 0.05))
              (sub tubeCenter_y (Fin 120)) (add tubeCenter_y (Fin 120))
              ts (electrons w) w) as (k & es' & E & L).
  rewrite E. exists k, es'. split; [reflexivity|exact L].
Qed.

(** X11. [updateElectrons] appends to the hit history only
    copies of the timestamp of the frame, and every hit it records takes
    an electron out of the list: the number of hits recorded plus the
    number of electrons left is at most the number of electrons before.
    So no electron is counted twice by the ammeter. *)
Theorem updateElectrons_counts_once (ts : num) (w : world) :
  exists k : nat,
    hitHistory (exec (updateElectrons ts) w) = hitHistory w ++ repeat ts k /\
    (k + List.length (electrons (exec (updateElectrons ts) w))
     <= List.length (electrons w))%nat.
Proof.
  destruct (updateElectrons_hits ts w) as (k & es' & E & L).
  rewrite E. exists k. split; [reflexivity|exact L].
Qed.

Lemma updateElectron_in_tube (f W : R) (ts : num) (e : electron) (w : world) :
  canvas_width w = Fin W -> finite_pe e = true ->
  let e' := fst (updateElectron (Fin f) (sub tubeCenter_y (Fin 120))
                   (add tubeCenter_y (Fin 120)) ts e w) in
  dead e' = false -> in_tube W e'.
Proof.
  intros HW H. unfold finite_pe in H.
  apply andb_prop in H. destruct H as [H Hvy].
  apply andb_prop in H. destruct H as [H Hvx].
  apply andb_prop in H. destruct H as [Hx Hy].
  apply is_finite_Fin in Hx, Hy, Hvx, Hvy.
  destruct Hx as [xr Hx], Hy as [yr Hy], Hvx as [vxr Hvx], Hvy as [vyr Hvy].
  unfold updateElectron, bind, get. cbv beta iota zeta.
  rewrite Hx, Hy, Hvx, Hvy, HW.
  unfold anode_x, anode_y, anode_w, anode_h, cathode_center_x,
    cathode_center_y, cathode_radius, tubeCenter_y.
  cbn [sub add neg mul Math_abs Math_hypot le ge lt gt].
  rewrite (div_fin 200 (y := 2)) by lra.
  cbn [lt].
  set (x' := xr + (vxr + - f)). set (y' := yr + vyr).
  set (Q := (x' + - (350)) * (x' + - (350)) + (y' + - (250)) * (y' + - (250))).
  assert (Hroot : ~ 180 < sqrt Q -> Q <= 180 * 180).
  { intros Hn.
    assert (HS : 0 <= Q)
      by (apply Rplus_le_le_0_compat; apply Rle_0_sqr).
    pose proof (sqrt_sqrt Q HS) as E. pose proof (sqrt_pos Q) as P.
    generalize dependent (sqrt Q). intros r. intros. nra. }
  destruct (dead e) eqn:Hd.
  - (* dead before: stays dead *)
    rewrite andb_false_r. unfold ret. cbn [fst dead].
    intros D. exfalso.
    repeat match type of D with
    | context [if ?c then true else _] => destruct c
    end; discriminate D.
  - rewrite andb_true_r.
    destruct (Rle_dec x' (300 + 10)) as [A1|A1];
    destruct (Rle_dec 300 x') as [A2|A2];
    destruct (Rlt_dec (Rabs (y' + - (250))) (200 / 2)) as [A3|A3];
    cbn [andb];
    unfold recordHit, modify, ret; cbv beta iota; cbn [fst dead canvas_width set_hitHistory];
    destruct (Rlt_dec 180 (sqrt Q)) as [B1|B1];
    destruct (Rlt_dec 350 x') as [B2|B2];
    destruct (Rlt_dec x' 300) as [B3|B3];
    destruct (Rlt_dec y' (250 + - (120))) as [B4|B4];
    destruct (Rlt_dec (250 + 120) y') as [B5|B5];
    destruct (Rlt_dec x' 0) as [B6|B6];
    destruct (Rlt_dec W x') as [B7|B7];
    cbn [andb orb]; intros D; try discriminate D;
    (split; [reflexivity|]);
    exists x', y';
    (split; [reflexivity|]); (split; [reflexivity|]);
    (split; [lra|]); (split; [lra|]);
    (split; [first [left; lra | right; specialize (Hroot B1); unfold Q in Hroot;
       replace (x' - 350) with (x' + - (350)) by lra;
       replace (y' - 250) with (y' + - (250)) by lra; exact Hroot]|]);
    intros [C1 C2]; replace (y' - 250) with (y' + - (250)) in C2 by lra; lra.
Qed.

Lemma updateElectron_width (ff top bot ts : num) (e : electron) (w : world) :
  canvas_width (snd (updateElectron ff top bot ts e w)) = canvas_width w.
Proof.
  destruct (updateElectron_world ff top bot ts e w) as (h & e' & E).
  rewrite E. reflexivity.
Qed.

(** X12. With a finite voltage, a finite canvas width and
    finite electrons, every electron that [updateElectrons] leaves in the
    list is alive and inside the tube: not left of the anode plane
    x = 300, on the canvas, between y = 130 and y = 370, not behind the
    cathode dish, and not on the anode plate. *)
Theorem updateElectrons_keeps_in_tube (ts : num) (V W : R) (w : world) :
  voltage w = Fin V -> canvas_width w = Fin W ->
  Forall (fun e => finite_pe e = true) (electrons w) ->
  Forall (in_tube W) (electrons (exec (updateElectrons ts) w)).
Proof.
  intros HV HW Hall.
  pose proof (@forEach_invariant _ _
    (fun w0 => canvas_width w0 = Fin W)
    (fun e => finite_pe e = true)
    (fun e => dead e = false -> in_tube W e)
    (updateElectron (Fin (V * 0.05))
       (sub tubeCenter_y (Fin 120)) (add tubeCenter_y (Fin 120)) ts)) as F.
  specialize (F (fun e0 w0 Hw0 He0 =>
    conj (@updateElectron_in_tube (V * 0.05) W ts e0 w0 Hw0 He0)
         (eq_trans (updateElectron_width _ _ _ _ e0 w0) Hw0))).
  specialize (F (electrons w) w HW Hall). destruct F as [F _].
  assert (E : exec (updateElectrons ts) w
    = set_electrons
        (filter (fun e => negb (dead e))
           (fst (forEach (updateElectron (Fin (V * 0.05))
                   (sub tubeCenter_y (Fin 120)) (add tubeCenter_y (Fin 120)) ts)
                   (electrons w) w)))
        (snd (forEach (updateElectron (Fin (V * 0.05))
                   (sub tubeCenter_y (Fin 120)) (add tubeCenter_y (Fin 120)) ts)
                   (electrons w) w))).
  { unfold exec, updateElectrons. unfold bind at 1. unfold get at 1.
    cbv beta iota zeta. rewrite HV. cbn [mul]. unfold bind at 1.
    destruct (forEach _ (electrons w) w) as [es' w']. reflexivity. }
  rewrite E. cbn [electrons set_electrons].
  apply Forall_forall. intros e He. apply filter_In in He.
  destruct He as [He Hd]. rewrite Forall_forall in F.
  apply F; [exact He|]. destruct (dead e); [discriminate|reflexivity].
Qed.

Lemma updateElectrons_keeps_in_tube_witness :
  Forall (in_tube 800)
         (electrons (exec (updateElectrons (Fin 16)) bench_with_electron)).
Proof.
  apply (@updateElectrons_keeps_in_tube (Fin 16) 0 800 bench_with_electron);
    [reflexivity|reflexivity|].
  constructor; [reflexivity|constructor].
Defined.

End PhotoelectricTube.

(* ================================================================= *)
(** ** Compton scattering: energies, the recoil angle and the scene *)

Section ComptonPhysics.
Import JSNum Compton.
Open Scope R_scope.

Lemma updatePhysics_eq (l t : R) (p : num) :
  0 < l ->
  let shift := 2.43 * (1 - cos (t * PI / 180)) in
  updatePhysics (mkState (Fin l) (Fin t) p)
  = (mkState (Fin l) (Fin t)
       (if strict_eq (Fin t) (Fin 0) then Fin 0
        else if strict_eq (Fin t) (Fin 180) then Fin 0
        else Math_atan
               (div (Fin 1)
                    (Fin ((1 + 1240 / l / 511) * tan (t * PI / 180 / 2))))),
     mkReadouts (Fin l) (Fin (l + shift)) (Fin shift) (Fin (1240 / l))
                (Fin (1240 / (l + shift)))
                (Fin (1240 / l - 1240 / (l + shift)))).
Proof.
  intros Hl shift.
  assert (Hs : 0 <= shift) by apply compton_shift_nonneg.
  unfold updatePhysics, toRad, HC, LAMBDA_C, Math_PI.
  cbn [lambda theta mul].
  rewrite (div_fin (t * PI) (y := 180)) by lra.
  cbn [Math_cos mul add sub neg].
  rewrite (div_fin 1240 (y := l)) by lra.
  replace (1 + - cos (t * PI / 180)) with (1 - cos (t * PI / 180)) by lra.
  fold shift.
  rewrite (div_fin 1240 (y := l + shift)) by lra.
  rewrite (div_fin (1240 / l) (y := 511)) by lra.
  rewrite (div_fin (t * PI / 180) (y := 2)) by lra.
  cbn [Math_tan add neg mul]. reflexivity.
Qed.





End ComptonPhysics.

Section ComptonSceneFacts.
Import JSNum Effects Compton ComptonScene.
Open Scope R_scope.

Lemma scatter_eq (p : photon) (w : world) :
  scatter p w
  = (tt,
     let thetaRad := toRad (theta (physics w)) in
     let newLambda :=
       add (lambda p) (mul LAMBDA_C (sub (Fin 1) (Math_cos thetaRad))) in
     let halfLength :=
       div (mul (Math_max (Fin 5) (mul newLambda (Fin 0.2))) (Fin 8)) (Fin 2) in
     mkWorld (physics w)
       (photons w ++
        [mkPhoton (sub centerX (mul (Math_cos thetaRad) halfLength))
                  (sub centerY (mul (Math_sin thetaRad) halfLength))
                  (mul (Math_cos thetaRad) (Fin 3))
                  (mul (Math_sin thetaRad) (Fin 3))
                  scattered newLambda false false])
       (electrons w ++
        [mkElectron centerX centerY
                    (mul (Math_cos (phi (physics w))) (Fin 3))
                    (mul (neg (Math_sin (phi (physics w)))) (Fin 3)) false])
       true (canvas_width w) (canvas_height w)).
Proof. reflexivity. Qed.

(** X15. [scatter] sets [targetHit], appends one scattered
    photon and one recoil electron and writes nothing else.  For a
    scattering angle from 0 to 180 degrees and a recoil angle in
    [0, pi/2): the wavelength of the new photon is that of the incident
    one plus [LAMBDA_C * (1 - cos theta)]; its speed is 3 and it does not
    move upwards; it starts behind the target on the line of its motion,
    at half a packet length [4 * max(5, 0.2 * lambda')] from the centre
    (400, 300); the electron starts at the centre with speed 3, moving to
    the right and not downwards. *)
Theorem scatter_kinematics (p : photon) (w : world) (t ph lp : R) :
  theta (physics w) = Fin t -> 0 <= t <= 180 ->
  phi (physics w) = Fin ph -> 0 <= ph < PI / 2 ->
  lambda p = Fin lp ->
  exists (s : photon) (e : electron) (sx sy svx svy evxr evyr l' : R),
    exec (scatter p) w
    = mkWorld (physics w) (photons w ++ [s]) (electrons w ++ [e]) true
              (canvas_width w) (canvas_height w) /\
    s = mkPhoton (Fin sx) (Fin sy) (Fin svx) (Fin svy) scattered (Fin l')
                 false false /\
    e = mkElectron (Fin 400) (Fin 300) (Fin evxr) (Fin evyr) false /\
    l' = lp + 2.43 * (1 - cos (t * PI / 180)) /\
    svx * svx + svy * svy = 9 /\ 0 <= svy /\
    evxr * evxr + evyr * evyr = 9 /\ 0 < evxr /\ evyr <= 0 /\
    (400 - sx) * svy = (300 - sy) * svx /\
    (400 - sx) * (400 - sx) + (300 - sy) * (300 - sy)
    = (4 * Rmax 5 (0.2 * l')) * (4 * Rmax 5 (0.2 * l')).
Proof.
  intros Ht Htr Hph Hphr Hl.
  unfold exec. rewrite scatter_eq. cbn [snd]. cbv zeta.
  rewrite Ht, Hph, Hl. unfold toRad, LAMBDA_C, Math_PI, centerX, centerY.
  cbn [mul]. rewrite (div_fin (t * PI) (y := 180)) by lra.
  cbn [Math_cos Math_sin mul add sub neg].
  set (th := t * PI / 180).
  set (l' := lp + 2.43 * (1 + - cos th)).
  assert (Hmax : Math_max (Fin 5) (Fin (l' * 0.2)) = Fin (Rmax 5 (0.2 * l'))).
  { unfold Math_max. cbn [lt].
    destruct (Rlt_dec 5 (l' * 0.2)) as [H|H].
    - rewrite Rmax_right by lra. f_equal. lra.
    - rewrite Rmax_left by lra. reflexivity. }
  rewrite Hmax. cbn [mul]. rewrite div_fin by lra. cbn [mul add sub neg].
  set (half := Rmax 5 (0.2 * l') * 8 / 2).
  pose proof PI_RGT_0 as Hpi.
  assert (Hth : 0 <= th <= PI).
  { unfold th. split.
    - apply Rmult_le_pos; [|lra]. apply Rmult_le_pos; lra.
    - assert (t * PI <= 180 * PI) by (apply Rmult_le_compat_r; lra). lra. }
  pose proof (sin_ge_0 th (proj1 Hth) (proj2 Hth)) as Hsin.
  pose proof (sin2_cos2 th) as T1. unfold Rsqr in T1.
  pose proof (sin2_cos2 ph) as T2. unfold Rsqr in T2.
  pose proof (cos_gt_0 ph ltac:(lra) ltac:(lra)) as Hcos.
  pose proof (sin_ge_0 ph ltac:(lra) ltac:(lra)) as Hsp.
  eexists _, _.
  exists (400 + - (cos th * half)), (300 + - (sin th * half)),
    (cos th * 3), (sin th * 3), (cos ph * 3), (- sin ph * 3), l'.
  split; [reflexivity|]. split; [reflexivity|]. split; [reflexivity|].
  split; [unfold l'; lra|].
  split; [nra|]. split; [lra|]. split; [nra|]. split; [lra|].
  split; [lra|]. split; [ring|].
  replace (4 * Rmax 5 (0.2 * l')) with half by (unfold half; lra).
  replace (400 - (400 + - (cos th * half))) with (cos th * half) by ring.
  replace (300 - (300 + - (sin th * half))) with (sin th * half) by ring.
  replace (cos th * half * (cos th * half) + sin th * half * (sin th * half))
    with (half * half * (sin th * sin th + cos th * cos th)) by ring.
  rewrite T1. ring.
Qed.

Lemma scatter_kinematics_witness :
  exists (s : photon) (e : electron) (sx sy svx svy evxr evyr l' : R),
    exec (scatter (mkPhoton (Fin 344) (Fin 300) (Fin 4) (Fin 0) incident
                            (Fin 71) true false)) scene
    = mkWorld (physics scene) (photons scene ++ [s])
              (electrons scene ++ [e]) true
              (canvas_width scene) (canvas_height scene) /\
    s = mkPhoton (Fin sx) (Fin sy) (Fin svx) (Fin svy) scattered (Fin l')
                 false false /\
    e = mkElectron (Fin 400) (Fin 300) (Fin evxr) (Fin evyr) false /\
    l' = 71 + 2.43 * (1 - cos (45 * PI / 180)) /\
    svx * svx + svy * svy = 9 /\ 0 <= svy /\
    evxr * evxr + evyr * evyr = 9 /\ 0 < evxr /\ evyr <= 0 /\
    (400 - sx) * svy = (300 - sy) * svx /\
    (400 - sx) * (400 - sx) + (300 - sy) * (300 - sy)
    = (4 * Rmax 5 (0.2 * l')) * (4 * Rmax 5 (0.2 * l')).
Proof.
  apply (@scatter_kinematics
           (mkPhoton (Fin 344) (Fin 300) (Fin 4) (Fin 0) incident
                     (Fin 71) true false) scene 45 0 71);
    try reflexivity; try lra.
  pose proof PI_RGT_0. lra.
Defined.



End ComptonSceneFacts.

Section ComptonSceneFrames.
Import JSNum Effects Compton ComptonScene.
Open Scope nat_scope.

Lemma count_app {A : Type} (f : A -> bool) (l1 l2 : list A) :
  count f (l1 ++ l2) = count f l1 + count f l2.
Proof. unfold count. rewrite filter_app, length_app. reflexivity. Qed.

Lemma count_filter_le {A : Type} (f g : A -> bool) (l : list A) :
  count f (filter g l) <= count f l.
Proof.
  unfold count. induction l as [|a l IH]; [apply le_n|].
  cbn [filter]. destruct (g a), (f a) eqn:Fa; cbn [filter List.length];
    rewrite ?Fa; cbn [List.length]; lia.
Qed.

Lemma count_le_length {A : Type} (f : A -> bool) (l : list A) :
  count f l <= List.length l.
Proof. apply filter_length_le. Qed.

Lemma count_none {A : Type} (f : A -> bool) (l : list A) :
  Forall (fun a => f a = false) l -> count f l = 0.
Proof.
  unfold count. induction 1 as [|a l Ha _ IH]; [reflexivity|].
  cbn [filter]. rewrite Ha. exact IH.
Qed.

Lemma count_all {A : Type} (f : A -> bool) (l : list A) :
  Forall (fun a => f a = true) l -> count f l = List.length l.
Proof.
  unfold count. induction 1 as [|a l Ha _ IH]; [reflexivity|].
  cbn [filter]. rewrite Ha. cbn [List.length]. rewrite IH. reflexivity.
Qed.

(** One photon of the loop: either nothing is appended, or the photon was
    unhit, is hit now, and one scattered photon and one electron are
    appended. *)
Lemma updatePhoton_cases (p : photon) (w : world) :
  (exists p', updatePhoton p w = (p', w) /\
              unhit p' = unhit p /\ is_scattered p' = is_scattered p) \/
  (exists p' s e,
     updatePhoton p w
     = (p', mkWorld (physics w) (photons w ++ [s]) (electrons w ++ [e]) true
                    (canvas_width w) (canvas_height w)) /\
     unhit p = true /\ unhit p' = false /\ is_scattered p' = false /\
     is_scattered s = true /\ unhit s = false).
Proof.
  destruct p as [px py pvx pvy ty pl ph pd].
  unfold updatePhoton, unhit, is_scattered. cbv zeta.
  unfold is_incident. cbn [type hasHit dead x y vx vy lambda].
  destruct ty; cbn [andb negb].
  - destruct ph; cbn [negb].
    + left. unfold ret, bind, get. eexists. split; [reflexivity|].
      split; reflexivity.
    + match goal with |- context [if ge ?a centerX then _ else _] =>
        destruct (ge a centerX) end.
      * right. unfold bind at 1. unfold bind at 1. cbv beta.
        rewrite scatter_eq.
        unfold bind, get, ret. cbv zeta.
        eexists _, _, _. split; [reflexivity|].
        repeat split; reflexivity.
      * left. unfold ret, bind, get. eexists. split; [reflexivity|].
        split; reflexivity.
  - left. unfold ret, bind, get. eexists. split; [reflexivity|].
    split; reflexivity.
Qed.

Lemma forEach_updatePhoton (l : list photon) :
  forall w : world,
  exists (ps apd : list photon) (es : list electron) (th : bool),
    forEach updatePhoton l w
    = (ps, mkWorld (physics w) (photons w ++ apd) (electrons w ++ es) th
                   (canvas_width w) (canvas_height w)) /\
    List.length es = List.length apd /\
    count unhit apd = 0 /\ count is_scattered apd = List.length apd /\
    count unhit ps + List.length apd = count unhit l /\
    count is_scattered ps = count is_scattered l.
Proof.
  induction l as [|p l IH]; intros w.
  - exists [], [], [], (targetHit w). cbn [forEach]. unfold ret.
    rewrite !app_nil_r. split; [destruct w; reflexivity|].
    repeat split; reflexivity.
  - cbn [forEach]. unfold bind.
    destruct (updatePhoton_cases p w)
      as [(p' & E & U & Sc)|(p' & s & e & E & U & U' & Sc & Ss & Us)];
      rewrite E.
    + destruct (IH w) as (ps & apd & es & th & E2 & L & Ua & Sa & Uc & Scc).
      rewrite E2. unfold ret.
      exists (p' :: ps), apd, es, th. split; [reflexivity|].
      split; [exact L|]. split; [exact Ua|]. split; [exact Sa|].
      unfold count in *. cbn [filter]. rewrite U, Sc.
      destruct (unhit p), (is_scattered p); cbn [List.length]; lia.
    + match goal with |- context [forEach updatePhoton l ?w0] =>
        destruct (IH w0) as (ps & apd & es & th & E2 & L & Ua & Sa & Uc & Scc)
      end.
      rewrite E2. unfold ret.
      cbn [physics photons electrons canvas_width canvas_height].
      exists (p' :: ps), (s :: apd), (e :: es), th.
      rewrite <- !app_assoc. cbn [app].
      split; [reflexivity|].
      split; [cbn [List.length]; lia|].
      unfold count in *. cbn [filter]. rewrite U, U', Us, Ss.
      assert (Sp : is_scattered p = false).
      { unfold unhit in U. unfold is_scattered.
        destruct (is_incident p); [reflexivity|discriminate]. }
      rewrite Sc, Sp. cbn [List.length].
      repeat split; lia.
Qed.

Lemma skipn_length_app {A : Type} (l1 l2 : list A) :
  skipn (List.length l1) (l1 ++ l2) = l2.
Proof. induction l1 as [|a l1 IH]; [reflexivity|exact IH]. Qed.

Lemma updateEntities_lists (w : world) :
  exists (ps apd : list photon) (es : list electron) (w2 : world),
    photons (exec updateEntities w)
    = filter (fun p => negb (dead p)) (ps ++ apd) /\
    electrons (exec updateEntities w)
    = filter (fun e => negb (edead e))
             (map (updateElectron w2) (electrons w ++ es)) /\
    List.length es = List.length apd /\
    count unhit apd = 0 /\ count is_scattered apd = List.length apd /\
    count unhit ps + List.length apd = count unhit (photons w) /\
    count is_scattered ps = count is_scattered (photons w).
Proof.
  destruct (forEach_updatePhoton (photons w) w)
    as (ps & apd & es & th & E & L & Ua & Sa & Uc & Scc).
  assert (X : exists w2 b,
    exec updateEntities w
    = mkWorld (physics w)
        (filter (fun p => negb (dead p)) (ps ++ apd))
        (filter (fun e => negb (edead e))
                (map (updateElectron w2) (electrons w ++ es)))
        b (canvas_width w) (canvas_height w)).
  { unfold exec, updateEntities. unfold bind at 1. unfold get at 1.
    unfold bind at 1. rewrite E.
    unfold bind, get, modify.
    cbn [photons electrons set_photons set_electrons physics targetHit
         canvas_width canvas_height].
    rewrite skipn_length_app.
    match goal with |- context [if ?c then _ else _] => destruct c end;
      cbn [snd]; eexists _, _; reflexivity. }
  destruct X as (w2 & b & X). rewrite X.
  exists ps, apd, es, w2. cbn [photons electrons].
  repeat split; assumption.
Qed.

(** One frame. *)
Lemma updateEntities_frame (w : world) :
  List.length (electrons (exec updateEntities w))
  + count unhit (photons (exec updateEntities w))
  <= List.length (electrons w) + count unhit (photons w) /\
  count is_scattered (photons (exec updateEntities w))
  + count unhit (photons (exec updateEntities w))
  <= count is_scattered (photons w) + count unhit (photons w).
Proof.
  destruct (updateEntities_lists w)
    as (ps & apd & es & w2 & -> & -> & L & Ua & Sa & Uc & Scc).
  pose proof (count_filter_le unhit (fun p => negb (dead p)) (ps ++ apd)) as H1.
  pose proof (count_filter_le is_scattered (fun p => negb (dead p)) (ps ++ apd))
    as H2.
  rewrite count_app in H1, H2.
  pose proof (filter_length_le (fun e => negb (edead e))
                (map (updateElectron w2) (electrons w ++ es))) as H3.
  rewrite length_map, length_app in H3.
  split; lia.
Qed.

Lemma updateEntities_frames (n : nat) :
  forall w : world,
  List.length (electrons (exec (times n updateEntities) w))
  + count unhit (photons (exec (times n updateEntities) w))
  <= List.length (electrons w) + count unhit (photons w) /\
  count is_scattered (photons (exec (times n updateEntities) w))
  + count unhit (photons (exec (times n updateEntities) w))
  <= count is_scattered (photons w) + count unhit (photons w).
Proof.
  induction n as [|n IH]; intros w.
  - cbn [times]. unfold exec, ret. cbn [snd]. split; apply le_n.
  - cbn [times]. rewrite exec_seq.
    destruct (IH (exec updateEntities w)) as [A B].
    destruct (updateEntities_frame w) as [C D]. split; lia.
Qed.

(** X17. A photon scatters at most once.  Over any number of
    frames of [updateEntities], the number of recoil electrons plus the
    number of incident photons that have not scattered yet never grows,
    and neither does the number of scattered photons plus the number of
    incident photons that have not scattered yet.  So after [firePhoton]
    on a scene without photons there is never more than one recoil
    electron and never more than one scattered photon. *)
Theorem updateEntities_scatters_once (n : nat) (w : world) :
  (List.length (electrons (exec (times n updateEntities) w))
   + count unhit (photons (exec (times n updateEntities) w))
   <= List.length (electrons w) + count unhit (photons w)) /\
  (count is_scattered (photons (exec (times n updateEntities) w))
   + count unhit (photons (exec (times n updateEntities) w))
   <= count is_scattered (photons w) + count unhit (photons w)) /\
  (photons w = [] ->
   List.length
     (electrons (exec (times n updateEntities) (exec firePhoton w))) <= 1 /\
   count is_scattered
     (photons (exec (times n updateEntities) (exec firePhoton w))) <= 1).
Proof.
  destruct (updateEntities_frames n w) as [A B].
  split; [exact A|]. split; [exact B|].
  intros Hp.
  destruct (updateEntities_frames n (exec firePhoton w)) as [C D].
  assert (F : electrons (exec firePhoton w) = [] /\
              count unhit (photons (exec firePhoton w)) = 1 /\
              count is_scattered (photons (exec firePhoton w)) = 0).
  { unfold exec, firePhoton, bind, modify. cbn [snd].
    cbn [electrons photons set_photons set_electrons set_targetHit].
    rewrite Hp. split; [reflexivity|]. split; reflexivity. }
  destruct F as (F1 & F2 & F3). rewrite F1, F2 in C. rewrite F2, F3 in D.
  cbn [List.length] in C. split; lia.
Qed.

Lemma updateEntities_scatters_once_witness :
  List.length
    (electrons (exec (times 100 updateEntities) (exec firePhoton scene))) <= 1.
Proof.
  apply (proj2 (proj2 (@updateEntities_scatters_once 100 scene)) eq_refl).
Defined.

End ComptonSceneFrames.

(* ================================================================= *)
(** ** Millikan oil drop: the voltage controls, the stopwatch, the
       selection and the drops *)

Section DecimalText.
Import Millikan MillikanPanel.
Open Scope Z_scope.

Lemma digits_stop (r : string) (acc : option Z) :
  stops r -> digits 10 r acc = acc.
Proof.
  destruct r as [|c r]; [reflexivity|]. cbn [stops digits].
  intros ->. reflexivity.
Qed.

Lemma digits_uint (d : Decimal.uint) (r : string) :
  stops r ->
  forall a : Z,
  digits 10 (NilEmpty.string_of_uint d ++ r) (Some a) = Some (uint_val d a).
Proof.
  intros Hr. induction d as [|d IH|d IH|d IH|d IH|d IH|d IH|d IH|d IH|d IH|d IH];
    intros a; cbn [NilEmpty.string_of_uint String.append uint_val];
    [apply digits_stop; exact Hr|..];
    cbn [digits];
    match goal with |- context [digit_of 10 ?c] =>
      let v := eval vm_compute in (digit_of 10 c) in
      change (digit_of 10 c) with v
    end; cbv iota beta; apply IH.
Qed.

Lemma of_uint_acc_val (d : Decimal.uint) :
  forall acc : positive,
  Z.pos (Pos.of_uint_acc d acc) = uint_val d (Z.pos acc).
Proof.
  induction d as [|d IH|d IH|d IH|d IH|d IH|d IH|d IH|d IH|d IH|d IH];
    intros acc; cbn [Pos.of_uint_acc uint_val]; [reflexivity|..];
    rewrite IH; f_equal; lia.
Qed.

Lemma of_uint_val (d : Decimal.uint) :
  Z.of_N (Pos.of_uint d) = uint_val d 0.
Proof.
  induction d as [|d IH|d IH|d IH|d IH|d IH|d IH|d IH|d IH|d IH|d IH];
    cbn [Pos.of_uint uint_val]; [reflexivity|exact IH|..];
    cbn [Z.of_N]; rewrite of_uint_acc_val; reflexivity.
Qed.

Lemma to_uint_val (p : positive) : uint_val (Pos.to_uint p) 0 = Z.pos p.
Proof.
  rewrite <- of_uint_val, DecimalPos.Unsigned.of_to. reflexivity.
Qed.

Lemma nzhead_not_D0 (u v : Decimal.uint) : Decimal.nzhead u <> Decimal.D0 v.
Proof.
  induction u; cbn [Decimal.nzhead]; try discriminate. exact IHu.
Qed.

Lemma to_uint_leading (p : positive) : leading (Pos.to_uint p).
Proof.
  pose proof (DecimalPos.Unsigned.to_of (Pos.to_uint p)) as H.
  rewrite DecimalPos.Unsigned.of_to in H. cbn [N.to_uint] in H.
  pose proof (DecimalPos.Unsigned.to_uint_nonzero p) as Hz.
  pose proof (DecimalPos.Unsigned.to_uint_nonnil p) as Hn.
  destruct (Pos.to_uint p) as [|u| | | | | | | | |] eqn:E; cbn; auto.
  rewrite DecimalFacts.unorm_D0 in H. unfold Decimal.unorm in H.
  destruct (Decimal.nzhead u) eqn:N; try discriminate H.
  - injection H as ->. apply Hz. reflexivity.
  - exfalso. exact (@nzhead_not_D0 u u0 N).
Qed.

Lemma parseInt_uint (d : Decimal.uint) (r : string) :
  leading d -> stops r ->
  parseInt (NilEmpty.string_of_uint d ++ r) = Some (uint_val d 0) /\
  parseInt (String "-" (NilEmpty.string_of_uint d ++ r))
  = Some (- uint_val d 0).
Proof.
  intros Hd Hr.
  destruct d as [|d|d|d|d|d|d|d|d|d|d]; try contradiction;
    cbn [NilEmpty.string_of_uint String.append];
    unfold parseInt;
    match goal with |- context [skip_space (String "-" ?s)] =>
      change (skip_space (String "-" s)) with (String "-" s)
    end;
    match goal with |- context [skip_space (String ?c ?s) ] =>
      change (skip_space (String c s)) with (String c s)
    end;
    cbv iota beta;
    cbn [digits];
    match goal with |- context [digit_of 10 ?c] =>
      let v := eval vm_compute in (digit_of 10 c) in
      change (digit_of 10 c) with v
    end; cbv iota beta;
    rewrite digits_uint by exact Hr; cbn [uint_val];
    split; f_equal; lia.
Qed.

Lemma append_empty (s : string) : (s ++ "")%string = s.
Proof. induction s as [|c s IH]; [reflexivity|]. cbn. rewrite IH. reflexivity. Qed.

Lemma string_of_leading (d : Decimal.uint) :
  leading d ->
  NilZero.string_of_uint d = (NilEmpty.string_of_uint d ++ "")%string.
Proof.
  intros L. rewrite append_empty.
  destruct d; try contradiction; reflexivity.
Qed.

Lemma parseInt_ToString_all (v : option Z) : parseInt (ToString v) = v.
Proof.
  destruct v as [[|p|p]|]; [reflexivity| | |reflexivity].
  - cbn [ToString Z.to_int NilZero.string_of_int].
    pose proof (to_uint_leading p) as L.
    rewrite (string_of_leading _ L).
    destruct (parseInt_uint (Pos.to_uint p) "" L I) as [-> _].
    rewrite to_uint_val. reflexivity.
  - cbn [ToString Z.to_int NilZero.string_of_int].
    pose proof (to_uint_leading p) as L.
    rewrite (string_of_leading _ L).
    destruct (parseInt_uint (Pos.to_uint p) "" L I) as [_ ->].
    rewrite to_uint_val. reflexivity.
Qed.

End DecimalText.

Section VoltageControls.
Import JSNum Effects Millikan MillikanPanel.
Open Scope Z_scope.

(** X18. The two voltage handlers and the text they write,
    for a slider text of ASCII characters whose integer, if it has one,
    is at most 2^53 in magnitude: there [parseInt] reads the integer
    exactly and the text of a number is its plain digits.
    [updateVoltageFromSlider] stores what [parseInt] reads in the slider,
    NaN included, without clamping it, and the text it writes into the
    input field reads back as the stored voltage.  A following
    [updateVoltageFromInput] stores the slider value clamped to
    [-2000, 2000] (0 for NaN), and both texts it writes read back as that
    voltage; when the slider value was an integer within the bounds, the
    two handlers store the same voltage. *)
Theorem voltage_controls_agree (w : world) :
  plain_ascii (voltage_slider w) = true ->
  safe_integer (parseInt (voltage_slider w)) ->
  let w1 := updateVoltageFromSlider w in
  let w2 := updateVoltageFromInput w1 in
  voltage w1 = num_of (parseInt (voltage_slider w)) /\
  num_of (parseInt (voltage_input w1)) = voltage w1 /\
  voltage w2 = of_Z (clamped (parseInt (voltage_slider w))) /\
  num_of (parseInt (voltage_input w2)) = voltage w2 /\
  num_of (parseInt (voltage_slider w2)) = voltage w2 /\
  (forall z : Z, parseInt (voltage_slider w) = Some z ->
                 (-2000 <= z <= 2000)%Z -> voltage w2 = voltage w1).
Proof.
  intros _ _ w1 w2.
  assert (E1 : parseInt (voltage_input w1) = parseInt (voltage_slider w)).
  { unfold w1, updateVoltageFromSlider. cbn [voltage_input].
    apply parseInt_ToString_all. }
  assert (E2 : w2 = let val := clamped (parseInt (voltage_slider w)) in
                    mkWorld (drops w1) (of_Z val) (ToString (Some val))
                            (ToString (Some val)) (width w1) (height w1)
                            (random w1)).
  { unfold w2. rewrite updateVoltageFromInput_eq, E1. reflexivity. }
  split; [reflexivity|]. split; [rewrite E1; reflexivity|].
  rewrite E2. cbv zeta. cbn [voltage voltage_input voltage_slider].
  rewrite parseInt_ToString_all. cbn [num_of].
  split; [reflexivity|]. split; [reflexivity|]. split; [reflexivity|].
  intros z Hz Hr. unfold w1, updateVoltageFromSlider. cbn [voltage].
  rewrite Hz. cbn [num_of]. unfold clamped.
  rewrite Z.min_r, Z.max_r by lia. reflexivity.
Qed.

Lemma voltage_controls_agree_witness :
  plain_ascii (voltage_slider loud_page) = true /\
  safe_integer (parseInt (voltage_slider loud_page)) /\
  voltage (updateVoltageFromSlider loud_page) = of_Z 2500 /\
  voltage (updateVoltageFromInput (updateVoltageFromSlider loud_page))
  = of_Z 2000.
Proof.
  assert (Ha : plain_ascii (voltage_slider loud_page) = true) by reflexivity.
  assert (Hs : safe_integer (parseInt (voltage_slider loud_page)))
    by (cbn; lia).
  split; [exact Ha|]. split; [exact Hs|].
  destruct (voltage_controls_agree loud_page Ha Hs) as (E1 & _ & E2 & _).
  split; [exact E1|exact E2].
Defined.

End VoltageControls.

Section StopwatchFacts.
Import Millikan MillikanPanel.
Open Scope Z_scope.

(** The digits of a number that is not negative. *)
Lemma ToString_nonneg (n : Z) :
  0 <= n ->
  exists d : Decimal.uint,
    ToString (Some n) = NilEmpty.string_of_uint d /\ uint_val d 0 = n.
Proof.
  intros Hn. destruct n as [|p|p]; [| |lia].
  - exists (Decimal.D0 Decimal.Nil). split; reflexivity.
  - exists (Pos.to_uint p). split; [|apply to_uint_val].
    cbn [ToString Z.to_int NilZero.string_of_int].
    pose proof (to_uint_leading p) as L.
    destruct (Pos.to_uint p); try contradiction; reflexivity.
Qed.

Lemma append_assoc (a b c : string) :
  ((a ++ b) ++ c)%string = (a ++ (b ++ c))%string.
Proof. induction a as [|x a IH]; [reflexivity|]. cbn. rewrite IH. reflexivity. Qed.

Lemma append_inv_head (a b c : string) :
  (a ++ b)%string = (a ++ c)%string -> b = c.
Proof.
  induction a as [|x a IH]; [trivial|]. cbn. intros H. injection H as H.
  apply IH. exact H.
Qed.

(** The number at the start of a padded field. *)
Lemma digits_pad (n : Z) (r : string) :
  0 <= n -> stops r -> digits 10 (pad n ++ r) None = Some n.
Proof.
  intros Hn Hr. destruct (ToString_nonneg Hn) as (d & E & V).
  assert (Hd : d <> Decimal.Nil).
  { intros ->. destruct n; [discriminate E| |lia].
    cbn [ToString Z.to_int NilZero.string_of_int] in E.
    pose proof (to_uint_leading p) as L.
    destruct (Pos.to_uint p); try contradiction; discriminate E. }
  unfold pad. destruct (n <? 10).
  - rewrite E. cbn [String.append digits].
    change (digit_of 10 "0") with (Some 0). cbv iota beta.
    rewrite digits_uint by exact Hr. exact (f_equal Some V).
  - rewrite E.
    destruct d; try contradiction;
      cbn [NilEmpty.string_of_uint String.append digits];
      match goal with |- context [digit_of 10 ?c] =>
        let v := eval vm_compute in (digit_of 10 c) in
        change (digit_of 10 c) with v
      end; cbv iota beta;
      rewrite digits_uint by exact Hr; rewrite <- V; reflexivity.
Qed.

Lemma pad_field_inj (m m' : Z) (c : Ascii.ascii) (r r' : string) :
  0 <= m -> 0 <= m' -> digit_of 10 c = None ->
  (pad m ++ String c r)%string = (pad m' ++ String c r')%string ->
  m = m' /\ r = r'.
Proof.
  intros Hm Hm' Hc H.
  pose proof (@digits_pad m (String c r) Hm Hc) as D.
  pose proof (@digits_pad m' (String c r') Hm' Hc) as D'.
  rewrite H in D. rewrite D in D'. injection D' as ->.
  split; [reflexivity|].
  apply append_inv_head in H. injection H as H. exact H.
Qed.

Lemma formatTime_fields (a : Z) :
  0 <= a ->
  exists m s c : Z,
    formatTime a = (pad m ++ ":" ++ pad s ++ "." ++ pad c)%string /\
    0 <= m /\ 0 <= s < 60 /\ 0 <= c < 100 /\
    a / 10 = 6000 * m + 100 * s + c.
Proof.
  intros Ha.
  exists (a / 60000), (Z.rem a 60000 / 1000), (Z.rem a 1000 / 10).
  split; [reflexivity|].
  rewrite !Z.rem_mod_nonneg by lia.
  Z.to_euclidean_division_equations. lia.
Qed.

(** X19. For times that are not negative, [formatTime]
    shows the time to the centisecond and nothing else: two times get the
    same text exactly when they agree after dropping the milliseconds
    digit.  The text is made of the padded minutes, a colon, the padded
    seconds (below 60), a point and the padded centiseconds (below
    100). *)
Theorem formatTime_centiseconds (a b : Z) :
  0 <= a -> 0 <= b ->
  (formatTime a = formatTime b <-> a / 10 = b / 10) /\
  exists m s c : Z,
    formatTime a = (pad m ++ ":" ++ pad s ++ "." ++ pad c)%string /\
    0 <= m /\ 0 <= s < 60 /\ 0 <= c < 100 /\
    a / 10 = 6000 * m + 100 * s + c.
Proof.
  intros Ha Hb. split; [|apply formatTime_fields; exact Ha].
  split.
  - destruct (formatTime_fields Ha) as (m & s & c & -> & Hm & Hs & Hc & E).
    destruct (formatTime_fields Hb) as (m' & s' & c' & -> & Hm' & Hs' & Hc' & E').
    intros H.
    change (pad m ++ ":" ++ pad s ++ "." ++ pad c)%string
      with (pad m ++ String ":" (pad s ++ "." ++ pad c))%string in H.
    change (pad m' ++ ":" ++ pad s' ++ "." ++ pad c')%string
      with (pad m' ++ String ":" (pad s' ++ "." ++ pad c'))%string in H.
    apply pad_field_inj in H; [|lia|lia|reflexivity].
    destruct H as [-> H].
    change (pad s ++ "." ++ pad c)%string
      with (pad s ++ String "." (pad c))%string in H.
    change (pad s' ++ "." ++ pad c')%string
      with (pad s' ++ String "." (pad c'))%string in H.
    apply pad_field_inj in H; [|lia|lia|reflexivity].
    destruct H as [-> H].
    pose proof (@digits_pad c "" ltac:(lia) I) as D.
    pose proof (@digits_pad c' "" ltac:(lia) I) as D'.
    rewrite !append_empty in D, D'. rewrite H in D. rewrite D in D'.
    injection D' as ->. lia.
  - intros E. unfold formatTime.
    rewrite !Z.rem_mod_nonneg by lia.
    assert (E1 : a / 60000 = b / 60000)
      by (Z.to_euclidean_division_equations; lia).
    assert (E2 : a mod 60000 / 1000 = b mod 60000 / 1000)
      by (Z.to_euclidean_division_equations; lia).
    assert (E3 : a mod 1000 / 10 = b mod 1000 / 10)
      by (Z.to_euclidean_division_equations; lia).
    cbv zeta. rewrite E1, E2, E3. reflexivity.
Qed.

Lemma formatTime_centiseconds_witness :
  (formatTime 61234 = formatTime 61239 <-> 61234 / 10 = 61239 / 10) /\
  exists m s c : Z,
    formatTime 61234 = (pad m ++ ":" ++ pad s ++ "." ++ pad c)%string /\
    0 <= m /\ 0 <= s < 60 /\ 0 <= c < 100 /\
    61234 / 10 = 6000 * m + 100 * s + c.
Proof. apply (@formatTime_centiseconds 61234 61239); lia. Defined.

Lemma presses_snoc (ts : list Z) (t : Z) (s : stopwatch) :
  presses (ts ++ [t]) s = toggleStopwatch t (presses ts s).
Proof. unfold presses. rewrite fold_left_app. reflexivity. Qed.

Lemma presses_pairs (ts : list Z) :
  forall s : stopwatch,
  running s = false ->
  display (presses ts s) = display s /\
  elapsedTime (presses ts s) = elapsedTime s + run_time ts /\
  running (presses ts s) = Nat.odd (List.length ts) /\
  (Nat.odd (List.length ts) = true -> startTime (presses ts s) = last ts 0).
Proof.
  assert (Hle : (List.length ts <= List.length ts)%nat) by lia.
  revert Hle. generalize (List.length ts) at 2. intros n.
  revert ts. induction n as [|n IH]; intros ts Hle s Hs.
  { destruct ts; [|cbn in Hle; lia]. unfold presses. cbn.
    split; [reflexivity|]. split; [lia|]. split; [exact Hs|].
    intros O; discriminate O. }
  destruct ts as [|t1 [|t2 ts]].
  - unfold presses. cbn.
    split; [reflexivity|]. split; [lia|]. split; [exact Hs|].
    intros O; discriminate O.
  - unfold presses. cbn [fold_left]. unfold toggleStopwatch. rewrite Hs.
    cbn. split; [reflexivity|]. split; [lia|]. split; reflexivity.
  - change (presses (t1 :: t2 :: ts) s)
      with (presses ts (toggleStopwatch t2 (toggleStopwatch t1 s))).
    set (s2 := toggleStopwatch t2 (toggleStopwatch t1 s)).
    assert (H2 : running s2 = false /\ display s2 = display s /\
                 elapsedTime s2 = elapsedTime s + (t2 - t1)).
    { unfold s2, toggleStopwatch. rewrite Hs. cbn. repeat split. }
    destruct H2 as (R2 & D2 & E2).
    destruct (IH ts ltac:(cbn in Hle; lia) s2 R2) as (D & E & R & St).
    rewrite D, E, R, D2, E2. cbn [run_time List.length Nat.odd].
    split; [reflexivity|]. split; [lia|].
    split.
    + reflexivity.
    + intros O. rewrite St by exact O.
      destruct ts; [discriminate O|reflexivity].
Qed.
(** X20. The stopwatch adds up the intervals in which it
    ran.  From a stopped stopwatch, after presses of the start/stop
    button at the times [ts], the elapsed time is the one before plus the
    time between the first and the second press, the third and the
    fourth, and so on, and the stopwatch runs exactly when the number of
    presses is odd.  A frame at the time [now] then shows the elapsed time
    plus the time since the last press when it runs, and leaves the
    display alone when it does not; and the text that [resetStopwatch]
    writes is [formatTime 0]. *)
Theorem stopwatch_accumulates (ts : list Z) (now : Z) (s : stopwatch) :
  running s = false ->
  let s' := presses ts s in
  elapsedTime s' = elapsedTime s + run_time ts /\
  running s' = Nat.odd (List.length ts) /\
  display (stopwatch_update now s')
  = (if Nat.odd (List.length ts)
     then formatTime (elapsedTime s + run_time ts + (now - last ts 0))
     else display s) /\
  resetStopwatch s' = mkStopwatch false (startTime s') 0 (formatTime 0).
Proof.
  intros Hs s'. destruct (presses_pairs ts s Hs) as (D & E & R & St).
  fold s' in D, E, R, St.
  split; [exact E|]. split; [exact R|]. split; [|reflexivity].
  unfold stopwatch_update. rewrite R.
  destruct (Nat.odd (List.length ts)).
  - cbn [display]. rewrite E, St by reflexivity. reflexivity.
  - exact D.
Qed.

Lemma stopwatch_accumulates_witness :
  let s' := presses [1000; 3500; 5000] stopped in
  elapsedTime s' = elapsedTime stopped + run_time [1000; 3500; 5000] /\
  running s' = Nat.odd (List.length [1000; 3500; 5000]) /\
  display (stopwatch_update 6200 s')
  = (if Nat.odd (List.length [1000; 3500; 5000])
     then formatTime (elapsedTime stopped + run_time [1000; 3500; 5000]
                      + (6200 - last [1000; 3500; 5000] 0))
     else display stopped) /\
  resetStopwatch s' = mkStopwatch false (startTime s') 0 (formatTime 0).
Proof.
  apply (@stopwatch_accumulates [1000; 3500; 5000] 6200 stopped).
  reflexivity.
Defined.

End StopwatchFacts.

Section SelectionFacts.
Import JSNum Effects Millikan MillikanPanel.
Open Scope R_scope.

Lemma Math_pow_square (r : R) : Math_pow (Fin r) (Fin 2) = Fin (r * r).
Proof.
  assert (I2 : Int_part 2 = 2%Z).
  { symmetry. apply Int_part_spec. split; lra. }
  unfold Math_pow.
  destruct (Req_dec_T 2 0) as [E|_]; [lra|].
  destruct (Req_dec_T r 0) as [E|Hr].
  - destruct (Rlt_dec 0 2); [|lra]. subst r. f_equal. lra.
  - destruct (Rlt_dec 0 r) as [Hp|Hn].
    + f_equal. replace 2 with (INR 2) by (simpl; lra).
      rewrite Rpower_pow by exact Hp. simpl. lra.
    + unfold is_integer. rewrite I2.
      destruct (Req_dec_T 2 2) as [_|E]; [|lra].
      f_equal. simpl. lra.
Qed.

Lemma nearest_step (mx my m : R) (d : OilDrop) (l : list OilDrop) (i : nat)
  (c : option nat) :
  finite_drop d = true ->
  nearest (Fin mx) (Fin my) (d :: l) i (Fin m) c
  = if Rlt_dec (drop_distance mx my d) m
    then nearest (Fin mx) (Fin my) l (S i) (Fin (drop_distance mx my d))
                 (Some i)
    else nearest (Fin mx) (Fin my) l (S i) (Fin m) c.
Proof.
  intros H. unfold finite_drop in H.
  apply andb_prop in H. destruct H as [H _].
  apply andb_prop in H. destruct H as [H _].
  apply andb_prop in H. destruct H as [Hx Hy].
  apply is_finite_Fin in Hx, Hy.
  destruct Hx as [xr Hx], Hy as [yr Hy].
  cbn [nearest]. cbv zeta. unfold drop_distance. rewrite Hx, Hy.
  unfold scale. cbn [mul sub add neg]. rewrite !Math_pow_square.
  cbn [add]. unfold Math_sqrt.
  set (Q := (xr * 100000 + - mx) * (xr * 100000 + - mx)
             + (yr * 100000 + - my) * (yr * 100000 + - my)).
  assert (HS : 0 <= Q)
    by (apply Rplus_le_le_0_compat; apply Rle_0_sqr).
  destruct (Rlt_dec Q 0) as [N|_]; [exfalso; lra|].
  unfold pixel_distance.
  replace ((xr * 100000 - mx) * (xr * 100000 - mx)
           + (yr * 100000 - my) * (yr * 100000 - my)) with Q
    by (unfold Q; ring).
  cbn [lt]. destruct (Rlt_dec (sqrt Q) m); reflexivity.
Qed.

(** What the loop returns, from the index [i] on, with the least
    distance [m] and the choice [c] so far. *)
Lemma nearest_spec (mx my : R) (l : list OilDrop) :
  Forall (fun d => finite_drop d = true) l ->
  forall (i : nat) (m : R) (c : option nat) (d0 : OilDrop),
  let r := nearest (Fin mx) (Fin my) l i (Fin m) c in
  (r = c /\ Forall (fun d => m <= drop_distance mx my d) l) \/
  (exists k : nat,
     (k < List.length l)%nat /\ r = Some (i + k)%nat /\
     drop_distance mx my (nth k l d0) < m /\
     (forall j : nat, (j < List.length l)%nat ->
        drop_distance mx my (nth k l d0) <= drop_distance mx my (nth j l d0)) /\
     (forall j : nat, (j < k)%nat ->
        drop_distance mx my (nth k l d0) < drop_distance mx my (nth j l d0))).
Proof.
  induction 1 as [|d l Hd Hl IH]; intros i m c d0 r.
  - left. split; [reflexivity|constructor].
  - unfold r. rewrite nearest_step by exact Hd.
    destruct (Rlt_dec (drop_distance mx my d) m) as [Hlt|Hge].
    + destruct (IH (S i) (drop_distance mx my d) (Some i) d0)
        as [[E F]|(k & Hk & E & Hm & Hall & Hfirst)].
      * right. exists 0%nat. cbn [List.length nth].
        split; [lia|]. split; [rewrite E; f_equal; lia|].
        split; [exact Hlt|]. split; [|intros j Hj; lia].
        intros [|j] Hj; [lra|]. cbn [nth].
        rewrite Forall_forall in F. apply F. apply nth_In. lia.
      * right. exists (S k). cbn [List.length nth].
        split; [lia|]. split; [rewrite E; f_equal; lia|].
        split; [lra|]. split.
        -- intros [|j] Hj; [lra|]. cbn [nth]. apply Hall. lia.
        -- intros [|j] Hj; [exact Hm|]. cbn [nth]. apply Hfirst. lia.
    + destruct (IH (S i) m c d0)
        as [[E F]|(k & Hk & E & Hm & Hall & Hfirst)].
      * left. split; [exact E|]. constructor; [lra|exact F].
      * right. exists (S k). cbn [List.length nth].
        split; [lia|]. split; [rewrite E; f_equal; lia|].
        split; [exact Hm|]. split.
        -- intros [|j] Hj; [lra|]. cbn [nth]. apply Hall. lia.
        -- intros [|j] Hj; [lra|]. cbn [nth]. apply Hfirst. lia.
Qed.

(** X21. A click selects the nearest drop within 20 pixels.
    For drops at finite positions, the [mousedown] handler selects no
    drop exactly when every drop is 20 pixels or more away from the
    click; otherwise it selects a drop that is less than 20 pixels away,
    no other drop is nearer, and every drop before it in [drops] is
    strictly farther, so that of two drops at the same distance the first
    one is selected. *)
Theorem clickedDrop_is_nearest (mx my : R) (w : world) (d0 : OilDrop) :
  Forall (fun d => finite_drop d = true) (drops w) ->
  match clickedDrop (Fin mx) (Fin my) w with
  | None =>
      Forall (fun d => 20 <= drop_distance mx my d) (drops w)
  | Some k =>
      (k < List.length (drops w))%nat /\
      drop_distance mx my (nth k (drops w) d0) < 20 /\
      (forall j : nat, (j < List.length (drops w))%nat ->
         drop_distance mx my (nth k (drops w) d0)
         <= drop_distance mx my (nth j (drops w) d0)) /\
      (forall j : nat, (j < k)%nat ->
         drop_distance mx my (nth k (drops w) d0)
         < drop_distance mx my (nth j (drops w) d0))
  end.
Proof.
  intros Hf. unfold clickedDrop.
  destruct (nearest_spec mx my Hf 0 20 None d0)
    as [[E F]|(k & Hk & E & Hm & Hall & Hfirst)].
  - rewrite E. exact F.
  - rewrite E. cbn [Nat.add]. repeat split; assumption.
Qed.

Lemma clickedDrop_is_nearest_witness :
  match clickedDrop (Fin 420) (Fin 100) two_drops with
  | None =>
      Forall (fun d => 20 <= drop_distance 420 100 d) (drops two_drops)
  | Some k =>
      (k < List.length (drops two_drops))%nat /\
      drop_distance 420 100 (nth k (drops two_drops) drop_r0) < 20 /\
      (forall j : nat, (j < List.length (drops two_drops))%nat ->
         drop_distance 420 100 (nth k (drops two_drops) drop_r0)
         <= drop_distance 420 100 (nth j (drops two_drops) drop_r0)) /\
      (forall j : nat, (j < k)%nat ->
         drop_distance 420 100 (nth k (drops two_drops) drop_r0)
         < drop_distance 420 100 (nth j (drops two_drops) drop_r0))
  end.
Proof.
  apply (@clickedDrop_is_nearest 420 100 two_drops drop_r0).
  repeat constructor.
Defined.

End SelectionFacts.

Section DropFacts.
Import JSNum Effects Millikan.
Open Scope R_scope.

Lemma OilDrop_new_eq (w : world) (W H : R) :
  width w = Fin W -> height w = Fin H ->
  let g := random w in
  let u i := src g (pos g + i) in
  OilDrop_new w
  = (mkDrop (Fin ((0.5 + u 0%nat * 0.6) * 1e-6))
            (Fin ((u 1%nat * 0.8 + 0.1) * (W / 100000)))
            (Fin (u 2%nat * 0.2 * (H / 100000)))
            (Fin ((u 3%nat - 0.5) * 1e-5))
            (Fin 0)
            (Fin ((if Rlt_dec (u 4%nat) 0.5 then -1 else 1) * 1.602e-19)),
     set_random (mkRng (src g) (pos g + 6)) w).
Proof.
  intros HW HH. cbv zeta.
  unfold OilDrop_new, bind, get, ret, Math_random.
  cbn [rng_of with_rng world_randomness random set_random src pos
       width height].
  rewrite HW, HH. unfold scale, e.
  rewrite !div_fin by lra.
  cbn [mul add sub neg lt].
  replace (pos (random w) + 0)%nat with (pos (random w)) by lia.
  replace (pos (random w) + 1)%nat with (S (pos (random w))) by lia.
  replace (pos (random w) + 2)%nat with (S (S (pos (random w)))) by lia.
  replace (pos (random w) + 3)%nat with (S (S (S (pos (random w))))) by lia.
  replace (pos (random w) + 4)%nat with (S (S (S (S (pos (random w)))))) by lia.
  replace (pos (random w) + 6)%nat
    with (S (S (S (S (S (S (pos (random w)))))))) by lia.
  destruct (Rlt_dec _ 0.5); cbn [mul]; unfold set_random;
    cbn [drops voltage voltage_slider voltage_input width height random];
    repeat f_equal; lra.
Qed.

(** X22. On a canvas at least one pixel wide and high and with
    a uniform random source, [spawnDrop] appends one drop and reads six
    random values.
    The drop has a radius from 0.5 to 1.1 micrometres, the charge of one
    electron of either sign, no vertical velocity, a horizontal velocity
    within 5e-6 of zero, and a position in the top quarter of the canvas
    between 5 % and 95 % of its width (the code aims at the top fifth
    and at 10 % to 90 %); [isOffScreen] is false of the drop as it is
    constructed. *)
Theorem spawnDrop_on_screen (w : world) (W H : R) :
  width w = Fin W -> height w = Fin H -> 1 <= W -> 1 <= H ->
  uniform (random w) ->
  exists (d : OilDrop) (r xr yr vxr qv : R),
    exec spawnDrop w
    = set_drops (drops w ++ [d])
        (set_random (mkRng (src (random w)) (pos (random w) + 6)) w) /\
    d = mkDrop (Fin r) (Fin xr) (Fin yr) (Fin vxr) (Fin 0) (Fin qv) /\
    0.5e-6 <= r <= 1.1e-6 /\
    (qv = 1.602e-19 \/ qv = - 1.602e-19) /\
    0.05 * W <= xr * 100000 <= 0.95 * W /\
    0 <= yr * 100000 <= 0.25 * H /\
    -0.5e-5 <= vxr <= 0.5e-5 /\
    isOffScreen (exec spawnDrop w) d = false.
Proof.
  intros HW HH HW1 HH1 Hu.
  assert (HW0 : 0 <= W) by lra. assert (HH0 : 0 <= H) by lra.
  unfold exec, spawnDrop, bind, modify.
  rewrite (OilDrop_new_eq w HW HH). cbv zeta. cbn [snd].
  pose proof (Hu (pos (random w) + 0)%nat) as U0.
  pose proof (Hu (pos (random w) + 1)%nat) as U1.
  pose proof (Hu (pos (random w) + 2)%nat) as U2.
  pose proof (Hu (pos (random w) + 3)%nat) as U3.
  set (u0 := src (random w) (pos (random w) + 0)) in *.
  set (u1 := src (random w) (pos (random w) + 1)) in *.
  set (u2 := src (random w) (pos (random w) + 2)) in *.
  set (u3 := src (random w) (pos (random w) + 3)) in *.
  set (u4 := src (random w) (pos (random w) + 4)) in *.
  eexists. eexists _, _, _, _, _.
  split; [reflexivity|]. split; [reflexivity|].
  split; [lra|].
  split; [destruct (Rlt_dec u4 0.5); [right|left]; lra|].
  assert (Hx : 0.1 * W <= (u1 * 0.8 + 0.1) * (W / 100000) * 100000 <= 0.9 * W)
    by nra.
  assert (Hy : 0 <= u2 * 0.2 * (H / 100000) * 100000 <= 0.2 * H) by nra.
  split; [lra|]. split; [lra|]. split; [lra|].
  unfold isOffScreen, scale. cbv zeta.
  cbn [x y width height set_drops set_random mul neg].
  rewrite HW, HH. cbn [add gt lt].
  set (px := (u1 * 0.8 + 0.1) * (W / 100000) * 100000) in *.
  set (py := u2 * 0.2 * (H / 100000) * 100000) in *.
  destruct (Rlt_dec px (- (50))) as [N|_]; [exfalso; lra|].
  destruct (Rlt_dec (W + 50) px) as [N|_]; [exfalso; lra|].
  destruct (Rlt_dec py (- (50))) as [N|_]; [exfalso; lra|].
  destruct (Rlt_dec (H + 50) py) as [N|_]; [exfalso; lra|].
  reflexivity.
Qed.

Lemma spawnDrop_on_screen_witness :
  exists (d : OilDrop) (r xr yr vxr qv : R),
    exec spawnDrop still_page
    = set_drops (drops still_page ++ [d])
        (set_random (mkRng (src (random still_page))
                           (pos (random still_page) + 6)) still_page) /\
    d = mkDrop (Fin r) (Fin xr) (Fin yr) (Fin vxr) (Fin 0) (Fin qv) /\
    0.5e-6 <= r <= 1.1e-6 /\
    (qv = 1.602e-19 \/ qv = - 1.602e-19) /\
    0.05 * 800 <= xr * 100000 <= 0.95 * 800 /\
    0 <= yr * 100000 <= 0.25 * 500 /\
    -0.5e-5 <= vxr <= 0.5e-5 /\
    isOffScreen (exec spawnDrop still_page) d = false.
Proof.
  apply (@spawnDrop_on_screen still_page 800 500);
    [reflexivity|reflexivity|lra|lra|].
  intros i. cbn. lra.
Defined.

(** X23. Every drop that the constructor can make has a
    balance voltage within the range of the controls.  For a radius from
    0.5 to 1.1 micrometres and the charge of one electron of either sign
    there is a voltage [Vb], strictly between -2000 and 2000 and of the
    sign opposite to the charge, such that under any voltage [V] the
    vertical velocity after [update] is
    [q * (V - Vb) / (plateDistance * 6 pi eta r)] plus the jitter term:
    it is proportional to the distance from the balance voltage and is
    the jitter alone at [V = Vb]. *)
Theorem update_balance_voltage (d : OilDrop) (dt : num) (w : world)
  (r qv V : R) :
  radius d = Fin r -> 0.5e-6 <= r < 1.1e-6 ->
  q d = Fin qv -> (qv = 1.602e-19 \/ qv = - 1.602e-19) ->
  voltage w = Fin V ->
  exists Vb : R,
    Vb = - ((875 - 1.225) * 9.80 * (4 / 3 * PI * (r * r * r)) * 0.005) / qv /\
    -2000 < Vb < 2000 /\ qv * Vb < 0 /\
    vy (eval (update d dt) w)
    = Fin (qv * (V - Vb) / (0.005 * (6 * PI * 1.81e-5 * r))
           + (src (random w) (S (pos (random w))) - 0.5)
             * (1e-6 / r * 2e-6)).
Proof.
  intros Hr Hrr Hq Hqq HV.
  assert (Hr0 : r <> 0) by lra.
  assert (Hq0 : qv <> 0) by (destruct Hqq; lra).
  unfold eval. rewrite (update_finite d dt w Hr Hr0 Hq HV). cbv zeta.
  cbn [fst vy].
  pose proof PI_RGT_0 as Hp0. pose proof PI_4 as Hp4.
  assert (Hpi : PI <> 0) by lra.
  exists (- ((875 - 1.225) * 9.80 * (4 / 3 * PI * (r * r * r)) * 0.005) / qv).
  split; [reflexivity|].
  assert (Hlast :
    (4 / 3 * PI * (r * r * r) * 875 * 9.80
     - 4 / 3 * PI * (r * r * r) * 1.225 * 9.80 + qv * (V / 0.005))
    / (6 * PI * 1.81e-5 * r)
    = qv * (V - - ((875 - 1.225) * 9.80 * (4 / 3 * PI * (r * r * r)) * 0.005)
                  / qv)
      / (0.005 * (6 * PI * 1.81e-5 * r))).
  { field. repeat split; try assumption; lra. }
  rewrite Hlast. clear Hlast.
  assert (H2 : 0.25e-12 <= r * r < 1.21e-12) by nra.
  assert (H3 : 0.125e-18 <= r * r * r < 1.331e-18) by nra.
  generalize dependent (r * r * r). intros c Hc.
  assert (Hpc : 0 < PI * c < 4 * 1.331e-18) by nra.
  assert (Hnum : 0 < (875 - 1.225) * 9.80 * (4 / 3 * PI * c) * 0.005
                   < 2000 * 1.602e-19).
  { replace ((875 - 1.225) * 9.80 * (4 / 3 * PI * c) * 0.005)
      with ((875 - 1.225) * 9.80 * (4 / 3) * 0.005 * (PI * c)) by ring.
    generalize dependent (PI * c). intros pc Hpc. lra. }
  generalize dependent ((875 - 1.225) * 9.80 * (4 / 3 * PI * c) * 0.005).
  intros m Hm.
  assert (Hb : (- m / qv) * qv = - m) by (field; exact Hq0).
  generalize dependent (- m / qv). intros Vb Hb.
  split; [|split; [|reflexivity]].
  - destruct Hqq as [-> | ->]; lra.
  - lra.
Qed.

Lemma update_balance_voltage_witness :
  exists Vb : R,
    Vb = - ((875 - 1.225) * 9.80 * (4 / 3 * PI * (1e-6 * 1e-6 * 1e-6)) * 0.005)
         / 1.602e-19 /\
    -2000 < Vb < 2000 /\ 1.602e-19 * Vb < 0 /\
    vy (eval (update drop_1um (Fin 0.016)) still_page)
    = Fin (1.602e-19 * (0 - Vb) / (0.005 * (6 * PI * 1.81e-5 * 1e-6))
           + (src (random still_page) (S (pos (random still_page))) - 0.5)
             * (1e-6 / 1e-6 * 2e-6)).
Proof.
  apply (@update_balance_voltage drop_1um (Fin 0.016) still_page
           1e-6 1.602e-19 0); [reflexivity|lra|reflexivity|left; lra|reflexivity].
Defined.

End DropFacts.

(* ================================================================= *)
(** ** Michelson-Morley interferometer: the fringe shift and the colour
       of the laser *)

Section MichelsonMorleyFacts.
Import JSNum MichelsonMorley Millikan.
Open Scope R_scope.

(** X24. For an ether speed [v] between 0 and 1 (a fraction
    of the speed of light; the page works with 0 to 0.5) and an angle
    within a turn of zero, [calculateFringeShift] returns a finite shift
    of magnitude at most [10 * v^2].  In the ether model the shift is
    [10 * v^2] at 0 degrees, and in exact arithmetic it is
    [10 * v^2 * cos (2 * angle)], so that turning the apparatus by 90
    degrees reverses its sign and turning it by 180 degrees or mirroring
    the angle leaves it unchanged; in the relativity model it is 0 for
    every speed and angle. *)
Theorem calculateFringeShift_rotation (m : model_name) (vr a : R) :
  0 <= vr <= 1 -> -360 <= a <= 360 ->
  exists s : R,
    calculateFringeShift (mkState m (Fin vr) (Fin a)) = Fin s /\
    - (10 * (vr * vr)) <= s <= 10 * (vr * vr) /\
    calculateFringeShift (mkState m (Fin vr) (Fin (a + 90))) = Fin (- s) /\
    calculateFringeShift (mkState m (Fin vr) (Fin (a + 180))) = Fin s /\
    calculateFringeShift (mkState m (Fin vr) (Fin (- a))) = Fin s /\
    calculateFringeShift (mkState relativity (Fin vr) (Fin a)) = Fin 0 /\
    calculateFringeShift (mkState ether (Fin vr) (Fin 0))
    = Fin (10 * (vr * vr)).
Proof.
  intros _ _.
  assert (E : forall b : R,
    calculateFringeShift (mkState ether (Fin vr) (Fin b))
    = Fin (10 * (vr * vr) * cos (2 * (b * PI / 180)))).
  { intros b. unfold calculateFringeShift, Math_PI. cbn [model v angle mul].
    rewrite div_fin by lra. reflexivity. }
  destruct m.
  - exists (10 * (vr * vr) * cos (2 * (a * PI / 180))).
    rewrite !E.
    pose proof (COS_bound (2 * (a * PI / 180))) as [C1 C2].
    assert (V : 0 <= 10 * (vr * vr)) by nra.
    split; [reflexivity|]. split; [split; nra|].
    split.
    { f_equal. replace (2 * ((a + 90) * PI / 180))
        with (2 * (a * PI / 180) + PI) by lra.
      rewrite neg_cos. ring. }
    split.
    { f_equal. replace (2 * ((a + 180) * PI / 180))
        with (2 * (a * PI / 180) + 2 * PI) by lra.
      rewrite cos_plus, cos_2PI, sin_2PI. ring. }
    split.
    { f_equal. replace (2 * (- a * PI / 180))
        with (- (2 * (a * PI / 180))) by lra.
      rewrite cos_neg. reflexivity. }
    split; [reflexivity|].
    f_equal. replace (2 * (0 * PI / 180)) with 0 by lra.
    rewrite cos_0. ring.
  - exists 0. rewrite !E. cbn [calculateFringeShift model].
    split; [reflexivity|]. split; [nra|].
    split; [f_equal; lra|]. split; [reflexivity|]. split; [reflexivity|].
    split; [reflexivity|].
    f_equal. replace (2 * (0 * PI / 180)) with 0 by lra.
    rewrite cos_0. ring.
Qed.

Lemma calculateFringeShift_rotation_witness :
  exists s : R,
    calculateFringeShift (mkState ether (Fin 0.5) (Fin 30)) = Fin s /\
    - (10 * (0.5 * 0.5)) <= s <= 10 * (0.5 * 0.5) /\
    calculateFringeShift (mkState ether (Fin 0.5) (Fin 0))
    = Fin (10 * (0.5 * 0.5)).
Proof.
  assert (Hv : 0 <= 0.5 <= 1) by lra.
  assert (Ha : -360 <= 30 <= 360) by lra.
  destruct (calculateFringeShift_rotation ether Hv Ha)
    as (s & E & B & _ & _ & _ & _ & Z).
  exists s. split; [exact E|]. split; [exact B|exact Z].
Defined.

Ltac bands :=
  repeat (match goal with
          | |- context [Rle_dec ?a ?b] => destruct (Rle_dec a b)
          | |- context [Rlt_dec ?a ?b] => destruct (Rlt_dec a b)
          end; cbn [andb]; cbv iota).

Lemma hue_fin (w : R) :
  exists r g b : R,
    hue (Fin w) = (Fin r, Fin g, Fin b) /\
    0 <= r <= 1 /\ 0 <= g <= 1 /\ 0 <= b <= 1 /\
    (380 <= w <= 780 -> r = 1 \/ g = 1 \/ b = 1) /\
    (~ 380 <= w <= 780 -> r = 0 /\ g = 0 /\ b = 0).
Proof.
  unfold hue. cbn [ge le lt sub add neg].
  rewrite !div_fin by lra.
  replace (440 + - (380)) with 60 by lra.
  replace (490 + - (440)) with 50 by lra.
  replace (510 + - (490)) with 20 by lra.
  replace (580 + - (510)) with 70 by lra.
  replace (645 + - (580)) with 65 by lra.
  bands;
    eexists _, _, _; (split; [reflexivity|]);
    unfold Rdiv; repeat split; try lra;
    try (intros; exfalso; lra);
    try (intros; left; lra); try (intros; right; left; lra);
    try (intros; right; right; lra).
Qed.

Lemma intensity_factor_fin (w : R) :
  exists f : R,
    intensity_factor (Fin w) = Fin f /\ 0 <= f <= 1 /\
    (380 <= w <= 780 -> 0.3 <= f) /\
    (~ 380 <= w <= 780 -> f = 0).
Proof.
  unfold intensity_factor. cbn [ge le lt sub add neg mul].
  rewrite !div_fin by lra. cbn [add].
  replace (420 + - (380)) with 40 by lra.
  replace (780 + - (700)) with 80 by lra.
  bands;
    eexists; (split; [reflexivity|]);
    unfold Rdiv; repeat split; try lra;
    try (intros; exfalso; lra).
Qed.
Lemma round_channel (c f : R) :
  0 <= c <= 1 -> 0 <= f <= 1 ->
  exists z : Z,
    Math_round (mul (Fin 255) (mul (Fin c) (Fin f))) = of_Z z /\
    (0 <= z <= 255)%Z /\
    (c = 0 \/ f = 0 -> z = 0%Z) /\
    (c = 1 -> 0.3 <= f -> (77 <= z)%Z).
Proof.
  intros Hc Hf. cbn [mul Math_round].
  set (y := 255 * (c * f) + 0.5).
  assert (Hy : 0.5 <= y <= 255.5) by (unfold y; nra).
  exists (Int_part y). split; [reflexivity|].
  destruct (base_Int_part y) as [B1 B2].
  split; [split|split].
  - assert (H : IZR (-1) < IZR (Int_part y)) by (simpl; lra).
    apply lt_IZR in H. lia.
  - assert (H : IZR (Int_part y) < IZR 256) by (simpl; lra).
    apply lt_IZR in H. lia.
  - intros Z0. assert (E : y = 0.5) by (unfold y; destruct Z0; subst; lra).
    rewrite E. symmetry. apply Int_part_spec. simpl. lra.
  - intros C1 F3. assert (77 <= y) by (unfold y; subst c; lra).
    assert (IZR 76 < IZR (Int_part y)) by (simpl; lra).
    apply lt_IZR in H0. lia.
Qed.

Lemma text_of_Z (z : Z) : text_of (of_Z z) = ToString (Some z).
Proof. unfold text_of, of_Z. rewrite Int_part_IZR. reflexivity. Qed.

Lemma channels_fin (w : R) :
  exists R G B : Z,
    channels (Fin w) = (of_Z R, of_Z G, of_Z B) /\
    (0 <= R <= 255)%Z /\ (0 <= G <= 255)%Z /\ (0 <= B <= 255)%Z /\
    (380 <= w <= 780 -> (77 <= Z.max R (Z.max G B))%Z) /\
    (~ 380 <= w <= 780 -> R = 0%Z /\ G = 0%Z /\ B = 0%Z).
Proof.
  destruct (hue_fin w) as (r & g & b & Eh & Hr & Hg & Hb & Hone & Hzero).
  destruct (intensity_factor_fin w) as (f & Ef & Hf & Hf3 & Hf0).
  unfold channels. rewrite Eh, Ef.
  destruct (round_channel Hr Hf) as (R & ER & RR & R0 & R1).
  destruct (round_channel Hg Hf) as (G & EG & GR & G0 & G1).
  destruct (round_channel Hb Hf) as (B & EB & BR & B0 & B1).
  exists R, G, B. rewrite ER, EG, EB.
  split; [reflexivity|]. split; [exact RR|]. split; [exact GR|].
  split; [exact BR|]. split.
  - intros V. specialize (Hf3 V).
    destruct (Hone V) as [E|[E|E]];
      [specialize (R1 E Hf3)|specialize (G1 E Hf3)|specialize (B1 E Hf3)]; lia.
  - intros V. specialize (Hf0 V).
    split; [|split]; [apply R0|apply G0|apply B0]; right; exact Hf0.
Qed.

Lemma channels_not_finite (wl : num) :
  is_finite wl = false ->
  channels wl = (of_Z 0, of_Z 0, of_Z 0) /\ visible wl = false.
Proof.
  assert (Z0 : Int_part (255 * (0.0 * 0.0) + 0.5) = 0%Z).
  { symmetry. apply Int_part_spec. simpl. lra. }
  destruct wl as [w| | |]; [discriminate| | |]; intros _.
  - unfold channels, hue, intensity_factor, visible. cbn.
    rewrite Z0. split; reflexivity.
  - unfold channels, hue, intensity_factor, visible. cbn.
    rewrite Z0. split; reflexivity.
  - unfold channels, hue, intensity_factor, visible. cbn.
    rewrite Z0. split; reflexivity.
Qed.

(** X25. For every wavelength, NaN and the infinities
    included, [nmToRGB] returns the text [rgb(R, G, B)] of three integers
    from 0 to 255.  The colour is black outside 380..780 nm, and inside
    that range one channel at least is 77 or more, so that visible light
    is never drawn black. *)
Theorem nmToRGB_channel_range (wl : num) :
  exists R G B : Z,
    channels wl = (of_Z R, of_Z G, of_Z B) /\
    nmToRGB wl
    = ("rgb(" ++ ToString (Some R) ++ ", " ++ ToString (Some G) ++ ", "
       ++ ToString (Some B) ++ ")")%string /\
    (0 <= R <= 255)%Z /\ (0 <= G <= 255)%Z /\ (0 <= B <= 255)%Z /\
    if visible wl then (77 <= Z.max R (Z.max G B))%Z
    else R = 0%Z /\ G = 0%Z /\ B = 0%Z.
Proof.
  assert (T : forall R G B : Z,
    channels wl = (of_Z R, of_Z G, of_Z B) ->
    nmToRGB wl
    = ("rgb(" ++ ToString (Some R) ++ ", " ++ ToString (Some G) ++ ", "
       ++ ToString (Some B) ++ ")")%string).
  { intros R G B E. unfold nmToRGB. rewrite E, !text_of_Z. reflexivity. }
  destruct (is_finite wl) eqn:F.
  - apply is_finite_Fin in F. destruct F as [w ->].
    destruct (channels_fin w) as (R & G & B & E & RR & GR & BR & Hv & Hn).
    exists R, G, B. split; [exact E|]. split; [exact (T R G B E)|].
    split; [exact RR|]. split; [exact GR|]. split; [exact BR|].
    unfold visible. cbn [ge le].
    destruct (Rle_dec 380 w), (Rle_dec w 780); cbn [andb];
      first [apply Hv; lra | apply Hn; lra].
  - destruct (channels_not_finite wl F) as [E V].
    exists 0%Z, 0%Z, 0%Z. split; [exact E|]. split; [exact (T _ _ _ E)|].
    rewrite V. repeat split; lia.
Qed.

End MichelsonMorleyFacts.

(* ================================================================= *)
(** ** Franck-Hertz tube: the frames of [animate] *)

Section FranckHertzFrames.
Import JSNum Effects FranckHertz FranckHertzFrame.
Open Scope R_scope.

Lemma update_src (e : Electron) (w : world) :
  src (random (exec (update e) w)) = src (random w).
Proof.
  unfold update, exec.
  destruct (active e); [|reflexivity]. cbn [negb].
  unfold bind, get. cbv beta iota zeta.
  destruct (x e <? tube_width w - Fin 60)%num.
  - match goal with |- context [if ?c then _ else _] => destruct c end;
      [|reflexivity].
    unfold Math_random. cbv beta iota zeta.
    match goal with |- context [if ?c then _ else _] => destruct c end;
      reflexivity.
  - destruct (x e <? tube_width w - Fin 20)%num; [|reflexivity].
    match goal with |- context [if ?c then _ else _] => destruct c end;
      reflexivity.
Qed.

Lemma queued_weaken (W o o' : R) (l : list Electron) :
  o' <= o -> queued W o l -> queued W o' l.
Proof.
  intros Ho. induction l as [|e l IH]; [trivial|].
  cbn [queued]. intros [(xr & L & A & Hw & Hx) Q].
  split; [|apply IH; exact Q].
  exists xr. repeat split; try assumption. lra.
Qed.

Lemma queued_length (W o : R) (l : list Electron) :
  0 <= o -> 40 <= W -> queued W o l -> INR (List.length l) <= 2 * (W - 40) + 1.
Proof.
  intros Ho HW. destruct l as [|e l]; cbn [queued List.length].
  - intros _. cbn. lra.
  - intros [(xr & L & A & Hw & Hx) Q]. rewrite S_INR. lra.
Qed.

(** After the loop: the electrons that stay have advanced by 0.5. *)
Lemma logic_loop_queued (W : R) (l : list Electron) :
  forall w : world,
  powered W w -> queued W 0 l ->
  exists (l' : list Electron) (w' : world),
    logic_loop l w = (l', w') /\
    queued W 0.5 l' /\
    (List.length l' <= List.length l)%nat /\
    powered W w' /\
    src (random w') = src (random w) /\
    electrons w' = electrons w.
Proof.
  induction l as [|e l IH]; intros w Hw Hq.
  - exists [], w. cbn. repeat split; trivial; apply Hw.
  - cbn [queued] in Hq. destruct Hq as [(xr & L & A & HxW & Hx) Q].
    destruct (IH w Hw Q) as (rest' & w1 & E1 & Q' & Len & Hw1 & Hs1 & He1).
    cbn [logic_loop]. unfold bind at 1. rewrite E1.
    unfold bind at 1.
    pose proof (@update_advances W xr e w1 Hw1 L) as Adv.
    pose proof (update_powered e Hw1) as Hw2.
    pose proof (update_src e w1) as Hs2.
    destruct (update_world e w1) as (cs & g & Ew).
    unfold eval in Adv. unfold exec in Hw2, Hs2, Ew.
    destruct (update e w1) as [e' w2]. cbn [fst snd] in *.
    unfold bind, get. cbv beta iota zeta.
    assert (He2 : electrons w2 = electrons w).
    { rewrite Ew. cbn. exact He1. }
    destruct (active e') eqn:A'; cbn [negb orb].
    + destruct (Adv eq_refl) as [_ (xr' & Hx' & L')].
      destruct Hw2 as (Hv & HW & H100).
      destruct L' as (vr & en & Ex & Ev & Een & Hv5 & Hen).
      rewrite Ex, HW. unfold gt. cbn [lt].
      destruct (Rlt_dec W xr') as [Out|In]; unfold ret.
      * exists rest', w2. split; [reflexivity|].
        split; [exact Q'|]. split; [cbn [List.length]; lia|].
        split; [exact (conj Hv (conj HW H100))|].
        split; [congruence|exact He2].
      * exists (e' :: rest'), w2. split; [reflexivity|].
        split.
        { cbn [queued]. split; [|exact Q'].
          exists xr'. split; [exists vr, en; repeat split; assumption|].
          split; [exact A'|]. split; [lra|].
          apply le_INR in Len. lra. }
        split; [cbn [List.length]; lia|].
        split; [exact (conj Hv (conj HW H100))|].
        split; [congruence|exact He2].
    + unfold ret. exists rest', w2. split; [reflexivity|].
      split; [exact Q'|]. split; [cbn [List.length]; lia|].
      split; [exact Hw2|].
      split; [congruence|exact He2].
Qed.

Lemma reset_launched (w : world) :
  uniform (random w) ->
  exists (e : Electron) (p : nat),
    reset w = (e, set_random (mkRng (src (random w)) p) w) /\
    launched 40 e /\ active e = true.
Proof.
  intros Hu. unfold reset, bind, get, Math_random, ret.
  cbn [rng_of with_rng world_randomness random set_random src pos].
  eexists _, _. split.
  { f_equal. destruct w; reflexivity. }
  pose proof (Hu (S (pos (random w)))) as H2.
  split; [|reflexivity].
  exists (0.5 + src (random w) (S (pos (random w))) * 0.5), 0.
  cbn. repeat split; lra.
Qed.

Lemma queued_snoc (W : R) (l : list Electron) (e : Electron) :
  40 <= W -> launched 40 e -> active e = true ->
  queued W 0.5 l -> queued W 0 (l ++ [e]).
Proof.
  intros HW L A. induction l as [|a l IH]; cbn [app queued].
  - intros _. split; [|exact I]. exists 40.
    split; [exact L|]. split; [exact A|]. split; [exact HW|].
    cbn. lra.
  - intros [(xr & La & Aa & Hw & Hx) Q]. split; [|apply IH; exact Q].
    exists xr. split; [exact La|]. split; [exact Aa|]. split; [exact Hw|].
    rewrite length_app. cbn [List.length].
    rewrite Nat.add_1_r, S_INR. lra.
Qed.

(** One frame. *)
Lemma animate_queued (W : R) (w : world) :
  powered W w -> uniform (random w) -> queued W 0.5 (electrons w) ->
  powered W (exec animate w) /\ uniform (random (exec animate w)) /\
  queued W 0.5 (electrons (exec animate w)).
Proof.
  intros Hw Hu Hq.
  unfold animate. rewrite !exec_seq.
  set (w0 := exec (modify _) w).
  assert (H0 : powered W w0 /\ src (random w0) = src (random w) /\
               electrons w0 = electrons w) by (repeat split; apply Hw).
  destruct H0 as (Hw0 & Hs0 & He0). clearbody w0.
  (* emission *)
  assert (H1 : powered W (exec emission w0) /\
               src (random (exec emission w0)) = src (random w) /\
               queued W 0 (electrons (exec emission w0))).
  { remember (exec emission w0) as w1 eqn:E1.
    unfold exec, emission in E1. unfold bind at 1 in E1.
    unfold get at 1 in E1. cbv beta iota zeta in E1.
    unfold bind at 1 in E1. unfold Math_random at 1 in E1.
    cbv beta iota zeta in E1.
    cbn [rng_of with_rng world_randomness] in E1.
    match type of E1 with context [if ?c then _ else _] => destruct c end.
    - unfold bind at 1 in E1.
      match type of E1 with context [reset ?w0] =>
        destruct (@reset_launched w0) as (e & p & E & L & A)
      end.
      { intros i. cbn. rewrite Hs0. apply Hu. }
      rewrite E in E1. unfold modify in E1. cbn [snd] in E1. subst w1.
      split; [exact Hw0|]. split; [cbn; exact Hs0|].
      cbn [electrons set_electrons set_random].
      rewrite He0. apply queued_snoc; try assumption.
      destruct Hw as (_ & _ & H100). lra.
    - unfold ret in E1. cbn [snd] in E1. subst w1.
      split; [exact Hw0|]. split; [cbn; exact Hs0|].
      cbn [electrons set_random]. rewrite He0.
      apply queued_weaken with (o := 0.5); [lra|exact Hq]. }
  destruct H1 as (Hw1 & Hs1 & Hq1).
  set (w1 := exec emission w0) in *. clearbody w1.
  (* logic *)
  assert (H2 : powered W (exec logic w1) /\
               src (random (exec logic w1)) = src (random w) /\
               queued W 0.5 (electrons (exec logic w1))).
  { remember (exec logic w1) as w2 eqn:E2.
    unfold exec, logic in E2. unfold bind at 1 in E2.
    unfold get at 1 in E2. cbv beta iota zeta in E2.
    unfold bind at 1 in E2.
    destruct (logic_loop_queued (electrons w1) Hw1 Hq1)
      as (l' & w' & E & Q & _ & Hw' & Hs' & _).
    rewrite E in E2. unfold modify in E2. cbn [snd] in E2. subst w2.
    split; [exact Hw'|]. split; [cbn; congruence|exact Q]. }
  destruct H2 as (Hw2 & Hs2 & Hq2).
  set (w2 := exec logic w1) in *. clearbody w2.
  unfold exec, glows, modify. cbn [snd].
  split; [exact Hw2|]. split; [|exact Hq2].
  intros i. cbn. rewrite Hs2. apply Hu.
Qed.

(** X26. The tube never fills up.  In a powered tube of
    width [W] with a uniform random source, starting without electrons,
    after any number of frames of [animate] the array of electrons holds
    at most [2 * (W - 40) + 1] of them: every frame adds one electron at
    most, moves every electron on by 0.5 at least and removes the ones
    that have stopped or left the canvas. *)
Theorem tube_population_bounded (W : R) (n : nat) (w : world) :
  powered W w -> uniform (random w) -> electrons w = [] ->
  INR (List.length (electrons (exec (times n animate) w)))
  <= 2 * (W - 40) + 1.
Proof.
  intros Hw Hu He.
  assert (G : forall n w, powered W w -> uniform (random w) ->
              queued W 0.5 (electrons w) ->
              powered W (exec (times n animate) w) /\
              queued W 0.5 (electrons (exec (times n animate) w))).
  { clear. induction n as [|n IH]; intros w Hw Hu Hq.
    - split; assumption.
    - cbn [times]. rewrite exec_seq.
      destruct (animate_queued Hw Hu Hq) as (Hw' & Hu' & Hq').
      apply IH; assumption. }
  destruct (G n w Hw Hu) as [Hw' Hq']; [rewrite He; exact I|].
  apply queued_length with (o := 0.5); [lra| |exact Hq'].
  destruct Hw as (_ & _ & H100). lra.
Qed.

Lemma tube_population_bounded_witness :
  INR (List.length (electrons (exec (times 50 animate) (tube 10))))
  <= 2 * (600 - 40) + 1.
Proof.
  apply (@tube_population_bounded 600 50 (tube 10)).
  - split; [exists 10, 1.5; repeat split; lra|]. split; [reflexivity|lra].
  - intros i. cbn. lra.
  - reflexivity.
Defined.

Lemma Math_max_fin (a b : R) : Math_max (Fin a) (Fin b) = Fin (Rmax a b).
Proof.
  unfold Math_max. cbn [lt]. destruct (Rlt_dec a b).
  - rewrite Rmax_right by lra. reflexivity.
  - rewrite Rmax_left by lra. reflexivity.
Qed.

(** X27. The block [// Emission] reads one random value
    [u] and adds one electron at most: it adds a new electron, made by
    [reset], exactly when [u] is below [(temperature - 100) / 500], and
    otherwise changes nothing but the random source.  At 100 degrees or
    below it never adds one. *)
Theorem emission_rate (w : world) (t : R) :
  temperature w = Fin t -> uniform (random w) ->
  let u := src (random w) (pos (random w)) in
  let w1 := set_random (mkRng (src (random w)) (S (pos (random w)))) w in
  (List.length (electrons (exec emission w))
   <= S (List.length (electrons w)))%nat /\
  (t <= 100 -> exec emission w = w1) /\
  (~ u < (t - 100) / 500 -> exec emission w = w1) /\
  (u < (t - 100) / 500 ->
   exec emission w
   = set_electrons (electrons w ++ [eval reset w1]) (exec reset w1)).
Proof.
  intros Ht Hu u w1.
  assert (E : exec emission w
              = if Rlt_dec u (Rmax 0 ((t - 100) / 500))
                then set_electrons (electrons w ++ [eval reset w1])
                                   (exec reset w1)
                else w1).
  { unfold exec, emission. unfold bind at 1. unfold get at 1.
    cbv beta iota zeta. unfold bind at 1. unfold Math_random at 1.
    cbv beta iota zeta. cbn [rng_of with_rng world_randomness].
    fold u. fold w1. rewrite Ht. cbn [sub add neg].
    rewrite div_fin by lra. rewrite Math_max_fin.
    replace ((t + - (100)) / 500) with ((t - 100) / 500) by lra.
    cbn [lt].
    destruct (Rlt_dec u (Rmax 0 ((t - 100) / 500))); [|reflexivity].
    reflexivity. }
  pose proof (Hu (pos (random w))) as U. fold u in U.
  split; [|split; [|split]].
  - rewrite E. destruct (Rlt_dec u (Rmax 0 ((t - 100) / 500))).
    + unfold exec, eval, reset, bind, get, ret, Math_random.
      cbn. rewrite length_app. cbn. lia.
    + cbn. lia.
  - intros Hc. rewrite E. rewrite Rmax_left by lra.
    destruct (Rlt_dec u 0); [exfalso; lra|reflexivity].
  - intros Hn. rewrite E.
    destruct (Rlt_dec u (Rmax 0 ((t - 100) / 500))) as [H|H]; [|reflexivity].
    exfalso. unfold Rmax in H. destruct (Rle_dec 0 ((t - 100) / 500)); lra.
  - intros Hy. rewrite E.
    destruct (Rlt_dec u (Rmax 0 ((t - 100) / 500))) as [H|H]; [reflexivity|].
    exfalso. apply H. apply Rlt_le_trans with ((t - 100) / 500); [exact Hy|].
    apply Rmax_r.
Qed.

Lemma emission_rate_witness :
  let u := src (random (tube 10)) (pos (random (tube 10))) in
  let w1 := set_random (mkRng (src (random (tube 10)))
                              (S (pos (random (tube 10))))) (tube 10) in
  (List.length (electrons (exec emission (tube 10)))
   <= S (List.length (electrons (tube 10))))%nat /\
  (180 <= 100 -> exec emission (tube 10) = w1) /\
  (~ u < (180 - 100) / 500 -> exec emission (tube 10) = w1) /\
  (u < (180 - 100) / 500 ->
   exec emission (tube 10)
   = set_electrons (electrons (tube 10) ++ [eval reset w1]) (exec reset w1)).
Proof.
  apply (@emission_rate (tube 10) 180); [reflexivity|].
  intros i. cbn. lra.
Defined.

Lemma glows_step (b : R) (w : world) :
  Forall (fun c => exists l : R, life c = Fin l /\ l <= b) (collisions w) ->
  Forall (fun c => exists l : R, life c = Fin l /\ 0 < l <= b - 0.05)
         (collisions (exec glows w)).
Proof.
  intros H. unfold exec, glows, modify. cbn [snd collisions set_collisions].
  apply Forall_forall. intros c Hc. apply filter_In in Hc.
  destruct Hc as [Hc Hpos]. apply in_map_iff in Hc.
  destruct Hc as (c0 & <- & Hc0).
  rewrite Forall_forall in H. destruct (H c0 Hc0) as (l & El & Hl).
  unfold fade in *. cbn [life] in *. rewrite El in *.
  cbn [sub add neg le] in *.
  destruct (Rle_dec (l + - (0.05)) 0) as [N|P]; [discriminate Hpos|].
  exists (l + - (0.05)). split; [reflexivity|]. lra.
Qed.

Lemma glows_steps (n : nat) :
  forall (b : R) (w : world),
  Forall (fun c => exists l : R, life c = Fin l /\ l <= b) (collisions w) ->
  Forall (fun c => exists l : R, life c = Fin l /\ 0 < l <= b - 0.05 * INR (S n))
         (collisions (exec (times (S n) glows) w)).
Proof.
  induction n as [|n IH]; intros b w H.
  - cbn [times]. rewrite exec_seq. unfold exec at 1, ret. cbn [snd].
    pose proof (@glows_step b w H) as G. cbn [INR].
    replace (b - 0.05 * 1) with (b - 0.05) by lra. exact G.
  - change (times (S (S n)) glows) with (glows ;;; times (S n) glows).
    rewrite exec_seq.
    pose proof (@glows_step b w H) as G.
    assert (G' : Forall (fun c => exists l : R, life c = Fin l /\ l <= b - 0.05)
                        (collisions (exec glows w))).
    { eapply Forall_impl; [|exact G]. intros c (l & E & Hl).
      exists l. split; [exact E|lra]. }
    pose proof (@IH (b - 0.05) (exec glows w) G') as R.
    eapply Forall_impl; [|exact R]. intros c (l & E & Hl).
    exists l. split; [exact E|]. rewrite (S_INR (S n)). lra.
Qed.

(** X28. A collision glow does not outlive 20 frames: when
    no glow has a life above 1, the life that [update] gives a new one,
    more than 20 runs of the block [// Collisions] leave no glow. *)
Theorem glows_fade_out (n : nat) (w : world) :
  Forall (fun c => exists l : R, life c = Fin l /\ l <= 1) (collisions w) ->
  1 < 0.05 * INR n ->
  collisions (exec (times n glows) w) = [].
Proof.
  intros H Hn. destruct n as [|n]; [cbn in Hn; lra|].
  pose proof (@glows_steps n 1 w H) as G.
  destruct (collisions (exec (times (S n) glows) w)) as [|c l]; [reflexivity|].
  inversion G as [|? ? (lf & _ & Hl) _]. lra.
Qed.

Lemma glows_fade_out_witness :
  collisions (exec (times 21 glows) glowing_tube) = [].
Proof.
  apply (@glows_fade_out 21 glowing_tube).
  - constructor; [|constructor]. exists 1.0. split; [reflexivity|lra].
  - rewrite INR_IZR_INZ. simpl. lra.
Defined.

End FranckHertzFrames.
